(** * A room-based chat relay over WebSocket and Redis

    Shallow embedding of the server (index.ts, types.ts): the key
    namespace, the history store, the rate limiter, the relay subscriber
    and the per-connection handlers, with the properties of its
    specification.

    Modelling conventions.
    - A JavaScript string is a [string] whose characters are its code
      units (code units below 256); [.length] is the number of code units.
    - Numbers that the program handles (clock readings, counters, the
      numeric settings) are integers, modelled in [Z].
    - An event handler runs to completion at one clock reading [now]:
      [Date.now()] and the clock of the store agree during one handler.
      The handler of a connection is also modelled in its two parts,
      before and after its [await], with other handlers in between
      ([perform]); [step] runs the two parts with nothing in between.
    - An [await]ed call that rejects, like a [throw], aborts the handler;
      effects already performed stay. *)

From Stdlib Require Import ZArith Ascii String Decimal DecimalN DecimalPos DecimalFacts Lia.
From stdpp Require Import base option list strings gmap sets.

Local Open Scope Z_scope.

(** ** Strings *)

Module Str.

(** [s.length] *)
Definition length (s : string) : Z := Z.of_nat (String.length s).

Fixpoint all_chars (p : ascii -> bool) (s : string) : bool :=
  match s with
  | EmptyString => true
  | String c s' => p c && all_chars p s'
  end.

(** White space and line terminators of ECMAScript among the code units
    below 256: TAB, LF, VT, FF, CR, SP, NBSP. *)
Definition is_space (c : ascii) : bool :=
  let n := N_of_ascii c in
  ((9 <=? n)%N && (n <=? 13)%N) || (n =? 32)%N || (n =? 160)%N.

Fixpoint trimStart (s : string) : string :=
  match s with
  | EmptyString => EmptyString
  | String c s' => if is_space c then trimStart s' else s
  end.

Fixpoint trimEnd (s : string) : string :=
  match s with
  | EmptyString => EmptyString
  | String c s' =>
      match trimEnd s' with
      | EmptyString => if is_space c then EmptyString else String c EmptyString
      | r => String c r
      end
  end.

(** [s.trim()] *)
Definition trim (s : string) : string := trimEnd (trimStart s).

(** [s.substring(n)] for [0 <= n] *)
Fixpoint substring (n : nat) (s : string) : string :=
  match n, s with
  | O, _ => s
  | S n', EmptyString => EmptyString
  | S n', String _ s' => substring n' s'
  end.

Fixpoint digits (d : Decimal.uint) : string :=
  match d with
  | Nil => EmptyString
  | D0 d => String "0" (digits d)
  | D1 d => String "1" (digits d)
  | D2 d => String "2" (digits d)
  | D3 d => String "3" (digits d)
  | D4 d => String "4" (digits d)
  | D5 d => String "5" (digits d)
  | D6 d => String "6" (digits d)
  | D7 d => String "7" (digits d)
  | D8 d => String "8" (digits d)
  | D9 d => String "9" (digits d)
  end.

Definition of_N (n : N) : string := digits (N.to_uint n).

(** The decimal rendering of an integer, as a template literal or
    [JSON.stringify] gives it. *)
Definition of_Z (z : Z) : string :=
  match z with
  | Zneg p => String "-" (of_N (Npos p))
  | _ => of_N (Z.to_N z)
  end.

Definition is_digit (c : ascii) : bool :=
  let n := N_of_ascii c in (48 <=? n)%N && (n <=? 57)%N.

Definition is_colon (c : ascii) : bool := (N_of_ascii c =? 58)%N.

Definition no_colon (s : string) : bool := all_chars (fun c => negb (is_colon c)) s.

End Str.

(** ** Settings and the key namespace *)

(** The settings read from the environment at start-up, each through
    [Number(...)]; the model takes the numeric ones to be integers. *)
Record Config := {
  DEFAULT_ROOM : string;
  RATE_LIMIT_PER_MIN : Z;
  HISTORY_SIZE : Z;
  HISTORY_TTL_SECONDS : Z
}.

(** The values taken when the environment sets nothing. *)
Definition default_config : Config :=
  {| DEFAULT_ROOM := "lobby";
     RATE_LIMIT_PER_MIN := 20;
     HISTORY_SIZE := 50;
     HISTORY_TTL_SECONDS := 60 * 60 * 24 * 7 |}.

Definition CHANNEL_PREFIX : string := "chat:".
Definition HISTORY_PREFIX : string := "history:".
Definition RATE_PREFIX : string := "rate:".

Definition channelFor (room : string) : string := CHANNEL_PREFIX +:+ room.
Definition historyKey (room : string) : string := HISTORY_PREFIX +:+ room.

(** [Math.floor(Date.now() / 60000)] *)
Definition minuteBucket (now : Z) : Z := now `div` 60000.

Definition rateKey (ip : string) (now : Z) : string :=
  RATE_PREFIX +:+ ip +:+ ":" +:+ Str.of_Z (minuteBucket now).

(** The room of a channel, as the subscriber decodes it. *)
Definition roomOf (ch : string) : string :=
  Str.substring (String.length CHANNEL_PREFIX) ch.

(** ** JSON values and the codec *)

#[local] Set Warnings "-register-all".

Inductive json :=
| JNull
| JBool (b : bool)
| JNum (n : Z)
| JStr (s : string)
| JArr (items : list json)
| JObj (fields : list (string * json)).

(** Property access on a parsed object: of two members with one name the
    later one wins, as in [JSON.parse]. *)
Fixpoint json_get (k : string) (fields : list (string * json)) : option json :=
  match fields with
  | [] => None
  | (k', v) :: rest =>
      match json_get k rest with
      | Some v' => Some v'
      | None => if String.eqb k k' then Some v else None
      end
  end.

(** [JSON.parse] and [JSON.stringify] belong to the platform. The program
    relies on two facts only: parsing either yields a value or throws
    [SyntaxError] ([None] here), and parsing undoes [JSON.stringify]. The
    proofs use the second fact at the messages and events that the
    program itself builds. *)
Class JSON := {
  JSON_parse : string -> option json;
  JSON_stringify : json -> string;
  JSON_parse_stringify : forall v, JSON_parse (JSON_stringify v) = Some v
}.

(** ** A codec

    An instance of the interface, on the values of [json]: numbers are
    integers in plain decimal notation, strings hold code units below
    256. The printer writes what [JSON.stringify] writes for such
    values. The parser reads JSON texts of such values, with white space
    between tokens; fractions, exponents and escapes of code units from
    256 on are outside its domain and read as errors. *)

Module Wire.

Local Open Scope char_scope.

Definition quote_char : ascii := ascii_of_nat 34.
Definition backslash : ascii := ascii_of_nat 92.

Definition hex_digit (n : N) : ascii :=
  ascii_of_N (if (n <? 10)%N then 48 + n else 87 + n).

Definition hex_val (c : ascii) : option N :=
  let n := N_of_ascii c in
  if (48 <=? n)%N && (n <=? 57)%N then Some (n - 48)%N
  else if (97 <=? n)%N && (n <=? 102)%N then Some (n - 87)%N
  else if (65 <=? n)%N && (n <=? 70)%N then Some (n - 55)%N
  else None.

(** One code unit inside a string literal, followed by [rest]. *)
Definition escape_char (c : ascii) (rest : string) : string :=
  let n := N_of_ascii c in
  if (n =? 34)%N then String backslash (String quote_char rest)
  else if (n =? 92)%N then String backslash (String backslash rest)
  else if (n =? 8)%N then String backslash (String "b" rest)
  else if (n =? 9)%N then String backslash (String "t" rest)
  else if (n =? 10)%N then String backslash (String "n" rest)
  else if (n =? 12)%N then String backslash (String "f" rest)
  else if (n =? 13)%N then String backslash (String "r" rest)
  else if (n <? 32)%N then
    String backslash (String "u" (String "0" (String "0"
      (String (hex_digit (n / 16)) (String (hex_digit (n mod 16)) rest)))))
  else String c rest.

Fixpoint escape (s rest : string) : string :=
  match s with
  | EmptyString => rest
  | String c s' => escape_char c (escape s' rest)
  end.

Definition quote (s rest : string) : string :=
  String quote_char (escape s (String quote_char rest)).

(** [print v rest] is the text of [v] followed by [rest]. *)
Fixpoint print (v : json) (rest : string) : string :=
  match v with
  | JNull => ("null" +:+ rest)%string
  | JBool true => ("true" +:+ rest)%string
  | JBool false => ("false" +:+ rest)%string
  | JNum n => (Str.of_Z n +:+ rest)%string
  | JStr s => quote s rest
  | JArr items =>
      String "["
        match items with
        | [] => String "]" rest
        | v :: items' =>
            print v
              ((fix more (l : list json) : string :=
                  match l with
                  | [] => String "]" rest
                  | v' :: l' => String "," (print v' (more l'))
                  end) items')
        end
  | JObj fields =>
      String "{"
        match fields with
        | [] => String "}" rest
        | (k, v) :: fields' =>
            quote k (String ":" (print v
              ((fix more (l : list (string * json)) : string :=
                  match l with
                  | [] => String "}" rest
                  | (k', v') :: l' =>
                      String "," (quote k' (String ":" (print v' (more l'))))
                  end) fields')))
        end
  end.

(** What follows the first element of an array, and the first member
    of an object. *)
Fixpoint items_tail (l : list json) (rest : string) : string :=
  match l with
  | [] => String "]" rest
  | v :: l' => String "," (print v (items_tail l' rest))
  end.

Fixpoint members_tail (l : list (string * json)) (rest : string) : string :=
  match l with
  | [] => String "}" rest
  | (k, v) :: l' => String "," (quote k (String ":" (print v (members_tail l' rest))))
  end.

Definition is_ws (c : ascii) : bool :=
  let n := N_of_ascii c in
  (n =? 32)%N || (n =? 9)%N || (n =? 10)%N || (n =? 13)%N.

Fixpoint skip_ws (s : string) : string :=
  match s with
  | String c s' => if is_ws c then skip_ws s' else s
  | EmptyString => EmptyString
  end.

Definition prepend (c : ascii) (r : option (string * string)) : option (string * string) :=
  match r with
  | Some (x, rest) => Some (String c x, rest)
  | None => None
  end.

Definition simple_escape (e : ascii) : option ascii :=
  let n := N_of_ascii e in
  if (n =? 34)%N || (n =? 92)%N || (n =? 47)%N then Some e
  else if (n =? 98)%N then Some (ascii_of_N 8)
  else if (n =? 116)%N then Some (ascii_of_N 9)
  else if (n =? 110)%N then Some (ascii_of_N 10)
  else if (n =? 102)%N then Some (ascii_of_N 12)
  else if (n =? 114)%N then Some (ascii_of_N 13)
  else None.

Definition hex4 (h1 h2 h3 h4 : ascii) : option N :=
  match hex_val h1, hex_val h2, hex_val h3, hex_val h4 with
  | Some a, Some b, Some c, Some d => Some (((a * 16 + b) * 16 + c) * 16 + d)%N
  | _, _, _, _ => None
  end.

(** The code units of a string literal after its opening quote, and
    the text after its closing quote. *)
Fixpoint parse_chars (s : string) : option (string * string) :=
  match s with
  | EmptyString => None
  | String c s' =>
      if (N_of_ascii c =? 34)%N then Some (EmptyString, s')
      else if (N_of_ascii c =? 92)%N then
        match s' with
        | String e s'' =>
            match simple_escape e with
            | Some c' => prepend c' (parse_chars s'')
            | None =>
                if (N_of_ascii e =? 117)%N then
                  match s'' with
                  | String h1 (String h2 (String h3 (String h4 r))) =>
                      match hex4 h1 h2 h3 h4 with
                      | Some n =>
                          if (n <? 256)%N then prepend (ascii_of_N n) (parse_chars r)
                          else None
                      | None => None
                      end
                  | _ => None
                  end
                else None
            end
        | EmptyString => None
        end
      else if (N_of_ascii c <? 32)%N then None
      else prepend c (parse_chars s')
  end.

Definition digit_of (c : ascii) : option (Decimal.uint -> Decimal.uint) :=
  match N_of_ascii c with
  | 48%N => Some D0 | 49%N => Some D1 | 50%N => Some D2 | 51%N => Some D3
  | 52%N => Some D4 | 53%N => Some D5 | 54%N => Some D6 | 55%N => Some D7
  | 56%N => Some D8 | 57%N => Some D9
  | _ => None
  end.

(** The longest run of digits at the head of [s], and what follows. *)
Fixpoint read_digits (s : string) : Decimal.uint * string :=
  match s with
  | EmptyString => (Nil, EmptyString)
  | String c s' =>
      match digit_of c with
      | Some D => let '(d, r) := read_digits s' in (D d, r)
      | None => (Nil, s)
      end
  end.

(** A digit run is a JSON integer if it is not empty and has no
    leading zero. *)
Definition well_formed (d : Decimal.uint) : bool :=
  match d with
  | Nil => false
  | D0 Nil => true
  | D0 _ => false
  | _ => true
  end.

Definition parse_number (s : string) : option (json * string) :=
  match s with
  | String "-" s' =>
      let '(d, r) := read_digits s' in
      if well_formed d then Some (JNum (- Z.of_N (N.of_uint d)), r) else None
  | _ =>
      let '(d, r) := read_digits s in
      if well_formed d then Some (JNum (Z.of_N (N.of_uint d)), r) else None
  end.

(** [s] without its prefix [word]. *)
Fixpoint strip (word s : string) : option string :=
  match word, s with
  | EmptyString, _ => Some s
  | String a word', String b s' => if Ascii.eqb a b then strip word' s' else None
  | String _ _, EmptyString => None
  end.

Definition expect (word : string) (s : string) (v : json) : option (json * string) :=
  match strip word s with
  | Some r => Some (v, r)
  | None => None
  end.

(** The text after the token [c], if [s] starts with it. *)
Definition token (c : ascii) (s : string) : option string :=
  match skip_ws s with
  | String c' r => if Ascii.eqb c c' then Some r else None
  | EmptyString => None
  end.

Fixpoint parse_value (fuel : nat) (s : string) : option (json * string) :=
  match fuel with
  | O => None
  | S fuel' =>
      match skip_ws s with
      | EmptyString => None
      | String c r =>
          if (N_of_ascii c =? 110)%N then expect "ull" r JNull
          else if (N_of_ascii c =? 116)%N then expect "rue" r (JBool true)
          else if (N_of_ascii c =? 102)%N then expect "alse" r (JBool false)
          else if (N_of_ascii c =? 34)%N then
            match parse_chars r with
            | Some (x, r') => Some (JStr x, r')
            | None => None
            end
          else if (N_of_ascii c =? 91)%N then
            match token "]" r with
            | Some r' => Some (JArr [], r')
            | None =>
                match parse_items fuel' r with
                | Some (l, r') => Some (JArr l, r')
                | None => None
                end
            end
          else if (N_of_ascii c =? 123)%N then
            match token "}" r with
            | Some r' => Some (JObj [], r')
            | None =>
                match parse_members fuel' r with
                | Some (l, r') => Some (JObj l, r')
                | None => None
                end
            end
          else parse_number (String c r)
      end
  end
with parse_items (fuel : nat) (s : string) : option (list json * string) :=
  match fuel with
  | O => None
  | S fuel' =>
      match parse_value fuel' s with
      | Some (v, r) =>
          match token "," r with
          | Some r' =>
              match parse_items fuel' r' with
              | Some (l, r'') => Some (v :: l, r'')
              | None => None
              end
          | None =>
              match token "]" r with
              | Some r' => Some ([v], r')
              | None => None
              end
          end
      | None => None
      end
  end
with parse_members (fuel : nat) (s : string) : option (list (string * json) * string) :=
  match fuel with
  | O => None
  | S fuel' =>
      match token quote_char s with
      | Some r =>
          match parse_chars r with
          | Some (k, r1) =>
              match token ":" r1 with
              | Some r2 =>
                  match parse_value fuel' r2 with
                  | Some (v, r3) =>
                      match token "," r3 with
                      | Some r4 =>
                          match parse_members fuel' r4 with
                          | Some (l, r5) => Some ((k, v) :: l, r5)
                          | None => None
                          end
                      | None =>
                          match token "}" r3 with
                          | Some r4 => Some ([(k, v)], r4)
                          | None => None
                          end
                      end
                  | None => None
                  end
              | None => None
              end
          | None => None
          end
      | None => None
      end
  end.

Definition parse (s : string) : option json :=
  match parse_value (S (2 * String.length s)) s with
  | Some (v, r) =>
      match skip_ws r with
      | EmptyString => Some v
      | _ => None
      end
  | None => None
  end.

Definition stringify (v : json) : string := print v EmptyString.

End Wire.

(** ** The message types (types.ts) *)

Module ChatMessage.
Record t := mk {
  id : string;
  room : string;
  text : string;
  username : string;
  ts : Z
}.

Definition to_json (m : t) : json :=
  JObj [("id", JStr (id m)); ("room", JStr (room m)); ("text", JStr (text m));
        ("username", JStr (username m)); ("ts", JNum (ts m))].
End ChatMessage.

Module ClientMessage.
(** The result of a successful [ClientMessageSchema.safeParse]; the
    literal [type] tag carries no information. *)
Record t := mk {
  room : string;
  text : string;
  username : string
}.
End ClientMessage.

(** A stored or relayed message is cast to [ChatMessage] unchecked, so an
    event carries whatever value was parsed. *)
Inductive ServerEvent :=
| EvHistory (room : string) (messages : list json)
| EvBroadcast (message : json)
| EvSystem (text : string).

Definition event_json (e : ServerEvent) : json :=
  match e with
  | EvHistory room messages =>
      JObj [("type", JStr "history"); ("room", JStr room); ("messages", JArr messages)]
  | EvBroadcast message =>
      JObj [("type", JStr "broadcast"); ("message", message)]
  | EvSystem text =>
      JObj [("type", JStr "system"); ("text", JStr text)]
  end.

(** [z.string().min(lo)] and [z.string().min(lo).max(hi)] *)
Definition str_min (lo : Z) (v : option json) : option string :=
  match v with
  | Some (JStr s) => if lo <=? Str.length s then Some s else None
  | _ => None
  end.

Definition str_min_max (lo hi : Z) (v : option json) : option string :=
  match str_min lo v with
  | Some s => if Str.length s <=? hi then Some s else None
  | None => None
  end.

(** [ClientMessageSchema.safeParse]: [None] stands for [success: false]. *)
Definition safeParse (payload : json) : option ClientMessage.t :=
  match payload with
  | JObj fields =>
      match json_get "type" fields with
      | Some (JStr tag) =>
          if String.eqb tag "message" then
            match str_min 1 (json_get "room" fields),
                  str_min_max 1 2000 (json_get "text" fields),
                  str_min_max 1 40 (json_get "username" fields) with
            | Some room, Some text, Some username =>
                Some (ClientMessage.mk room text username)
            | _, _, _ => None
            end
          else None
      | _ => None
      end
  | _ => None
  end.

(** ** Exceptions *)

Inductive exn :=
| SyntaxError    (* JSON.parse on a text that is not JSON *)
| ReplyError     (* the store refuses a command: a key of the wrong type *)
| SendError.     (* send on a socket that is still CONNECTING *)

Inductive res (A : Type) :=
| Ret (a : A)
| Throw (e : exn).
Arguments Ret {A} a.
Arguments Throw {A} e.

(** ** The store: keys with a value and an optional time of expiry *)

Module Redis.

Inductive value :=
| Int (n : Z)
| List (l : list string).

Record entry := mk { val : value; expireAt : option Z }.

Definition live (now : Z) (e : entry) : bool :=
  match expireAt e with
  | Some t => now <=? t
  | None => true
  end.

(** The entry of a key as a command at time [now] sees it: an entry
    is gone once the clock is past its time of expiry. *)
Definition get (now : Z) (k : string) (d : gmap string entry) : option entry :=
  match d !! k with
  | Some e => if live now e then Some e else None
  | None => None
  end.

(** INCR *)
Definition incr (now : Z) (k : string) (d : gmap string entry)
  : gmap string entry * res Z :=
  match get now k d with
  | None => (<[k := mk (Int 1) None]> d, Ret 1)
  | Some (mk (Int n) e) => (<[k := mk (Int (n + 1)) e]> d, Ret (n + 1))
  | Some (mk (List _) _) => (d, Throw ReplyError)
  end.

(** EXPIRE: a time to live that is not positive deletes the key. *)
Definition expire (now : Z) (k : string) (seconds : Z) (d : gmap string entry)
  : gmap string entry * res bool :=
  match get now k d with
  | None => (d, Ret false)
  | Some e =>
      if seconds <=? 0 then (delete k d, Ret true)
      else (<[k := mk (val e) (Some (now + seconds * 1000))]> d, Ret true)
  end.

(** The elements of ranks [start..stop], both inclusive; a negative
    rank counts from the end of the list. *)
Definition range {A} (l : list A) (start stop : Z) : list A :=
  let llen := Z.of_nat (length l) in
  let start := if start <? 0 then llen + start else start in
  let stop := if stop <? 0 then llen + stop else stop in
  let start := if start <? 0 then 0 else start in
  if (stop <? start) || (llen <=? start) then []
  else
    let stop := if llen <=? stop then llen - 1 else stop in
    take (Z.to_nat (stop - start + 1)) (drop (Z.to_nat start) l).

(** LPUSH *)
Definition lPush (now : Z) (k : string) (v : string) (d : gmap string entry)
  : gmap string entry * res Z :=
  match get now k d with
  | None => (<[k := mk (List [v]) None]> d, Ret 1)
  | Some (mk (List l) e) =>
      (<[k := mk (List (v :: l)) e]> d, Ret (Z.of_nat (length (v :: l))))
  | Some (mk (Int _) _) => (d, Throw ReplyError)
  end.

(** LTRIM: a list that becomes empty is deleted. *)
Definition lTrim (now : Z) (k : string) (start stop : Z) (d : gmap string entry)
  : gmap string entry * res unit :=
  match get now k d with
  | None => (d, Ret tt)
  | Some (mk (List l) e) =>
      match range l start stop with
      | [] => (delete k d, Ret tt)
      | l' => (<[k := mk (List l') e]> d, Ret tt)
      end
  | Some (mk (Int _) _) => (d, Throw ReplyError)
  end.

(** LRANGE *)
Definition lRange (now : Z) (k : string) (start stop : Z) (d : gmap string entry)
  : res (list string) :=
  match get now k d with
  | None => Ret []
  | Some (mk (List l) _) => Ret (range l start stop)
  | Some (mk (Int _) _) => Throw ReplyError
  end.

(** A glob-style pattern against the name of a key: [*] stands for any
    run of characters, [?] for any one character, a backslash takes the
    character after it literally, and any other character stands for
    itself. Bracketed classes are left out: the pattern of the program
    has none. *)
Fixpoint glob (p : string) : string -> bool :=
  match p with
  | EmptyString => fun s => match s with EmptyString => true | String _ _ => false end
  | String c p' =>
      let literal (c : ascii) (rest : string -> bool) (s : string) : bool :=
        match s with
        | EmptyString => false
        | String x s' => Ascii.eqb c x && rest s'
        end in
      if (N_of_ascii c =? 42)%N then
        fix star (s : string) : bool :=
          glob p' s || match s with EmptyString => false | String _ s' => star s' end
      else if (N_of_ascii c =? 63)%N then
        fun s => match s with EmptyString => false | String _ s' => glob p' s' end
      else if (N_of_ascii c =? 92)%N then
        match p' with
        | EmptyString => literal c (glob p')
        | String c' p'' => literal c' (glob p'')
        end
      else literal c (glob p')
  end.

(** KEYS: the names of the keys that are there at time [now] and match
    the pattern. The store promises no order; the model lists them in
    the order of the map. *)
Definition keys (now : Z) (pattern : string) (d : gmap string entry) : list string :=
  omap (fun ke : string * entry =>
          if live now ke.2 && glob pattern ke.1 then Some ke.1 else None)
       (map_to_list d).

End Redis.

(** ** The server's state *)

Inductive ReadyState := CONNECTING | OPEN | CLOSING | CLOSED.

#[global] Instance ReadyState_eq_dec : EqDecision ReadyState.
Proof. solve_decision. Defined.

(** A socket of the server: its state and the frames handed to it for
    sending, oldest first. *)
Record WebSocket := mkSocket {
  readyState : ReadyState;
  sent : list string
}.

(** [type ClientInfo = { ws, rooms, ip }] *)
Record ClientInfo := mkInfo {
  ws : nat;
  rooms : gset string;
  ip : string
}.

(** One server process together with the store it talks to. Sockets are
    named by numbers; [next_ws] is the name of the next socket to be
    accepted. [listening] holds the sockets whose ["message"] and
    ["close"] handlers are registered. *)
Record World := mkWorld {
  redis : gmap string Redis.entry;
  published : list (string * string);
  wss_clients : gmap nat WebSocket;
  clients : gmap nat ClientInfo;
  listening : gset nat;
  next_ws : nat
}.

Definition set_redis (f : gmap string Redis.entry -> gmap string Redis.entry) (w : World) : World :=
  mkWorld (f (redis w)) (published w) (wss_clients w) (clients w) (listening w) (next_ws w).
Definition set_published (f : list (string * string) -> list (string * string)) (w : World) : World :=
  mkWorld (redis w) (f (published w)) (wss_clients w) (clients w) (listening w) (next_ws w).
Definition set_wss_clients (f : gmap nat WebSocket -> gmap nat WebSocket) (w : World) : World :=
  mkWorld (redis w) (published w) (f (wss_clients w)) (clients w) (listening w) (next_ws w).
Definition set_clients (f : gmap nat ClientInfo -> gmap nat ClientInfo) (w : World) : World :=
  mkWorld (redis w) (published w) (wss_clients w) (f (clients w)) (listening w) (next_ws w).
Definition set_listening (f : gset nat -> gset nat) (w : World) : World :=
  mkWorld (redis w) (published w) (wss_clients w) (clients w) (f (listening w)) (next_ws w).

(** The state at start-up, on a store that holds nothing. *)
Definition init : World := mkWorld ∅ [] ∅ ∅ ∅ 0.

(** ** Computations: state, and an exception that keeps the state *)

Definition M (A : Type) : Type := World -> World * res A.

Definition ret {A} (a : A) : M A := fun w => (w, Ret a).

Definition throw {A} (e : exn) : M A := fun w => (w, Throw e).

Definition bind {A B} (m : M A) (k : A -> M B) : M B :=
  fun w =>
    match m w with
    | (w', Ret a) => k a w'
    | (w', Throw e) => (w', Throw e)
    end.

Notation "x <- m ; k" := (bind m (fun x => k))
  (at level 20, m at level 100, k at level 200, only parsing).

(** A command on the store, run by the client [pub]. *)
Definition on_redis {A} (c : gmap string Redis.entry -> gmap string Redis.entry * res A) : M A :=
  fun w => let '(d, r) := c (redis w) in (set_redis (fun _ => d) w, r).

Definition incr (now : Z) (k : string) : M Z := on_redis (Redis.incr now k).
Definition expire (now : Z) (k : string) (seconds : Z) : M bool :=
  on_redis (Redis.expire now k seconds).
Definition lPush (now : Z) (k v : string) : M Z := on_redis (Redis.lPush now k v).
Definition lTrim (now : Z) (k : string) (start stop : Z) : M unit :=
  on_redis (Redis.lTrim now k start stop).
Definition lRange (now : Z) (k : string) (start stop : Z) : M (list string) :=
  on_redis (fun d => (d, Redis.lRange now k start stop d)).
Definition keys (now : Z) (pattern : string) : M (list string) :=
  on_redis (fun d => (d, Ret (Redis.keys now pattern d))).

(** PUBLISH: the message goes to the subscribers of the channel, this
    process' own subscriber among them. The log keeps what was published,
    latest last. *)
Definition publish (channel message : string) : M unit :=
  fun w => (set_published (fun l => l ++ [(channel, message)]) w, Ret tt).

(** [socket.send(data)] of the [ws] library: it throws while the socket
    is CONNECTING, hands the frame over when OPEN, and drops it silently
    (no callback is given) once the socket is CLOSING or CLOSED. A socket
    that left [wss.clients] is closed. *)
Definition send (s : nat) (data : string) : M unit :=
  fun w =>
    match wss_clients w !! s with
    | Some sock =>
        match readyState sock with
        | CONNECTING => (w, Throw SendError)
        | OPEN =>
            (set_wss_clients (insert s (mkSocket OPEN (sent sock ++ [data]))) w, Ret tt)
        | CLOSING | CLOSED => (w, Ret tt)
        end
    | None => (w, Ret tt)
    end.

(** [for (const x of xs) f(x)] *)
Fixpoint forEach {A} (f : A -> M unit) (xs : list A) : M unit :=
  match xs with
  | [] => ret tt
  | x :: xs' => _ <- f x ; forEach f xs'
  end.

(** ** The program (index.ts) *)

Section Server.

Context (cfg : Config) {codec : JSON}.

(** [JSON.parse(s)], which throws on a text that is not JSON *)
Definition parse (s : string) : M json :=
  match JSON_parse s with
  | Some v => ret v
  | None => throw SyntaxError
  end.

(** [raw.map((s) => JSON.parse(s))] *)
Fixpoint parse_all (raw : list string) : M (list json) :=
  match raw with
  | [] => ret []
  | s :: raw' => v <- parse s ; vs <- parse_all raw' ; ret (v :: vs)
  end.

Definition stringify_event (e : ServerEvent) : string :=
  JSON_stringify (event_json e).

Definition loadHistory (now : Z) (room : string) : M (list json) :=
  raw <- lRange now (historyKey room) 0 (HISTORY_SIZE cfg - 1) ;
  parsed <- parse_all raw ;
  ret (reverse parsed).

Definition pushHistory (now : Z) (room : string) (msg : ChatMessage.t) : M unit :=
  let key := historyKey room in
  _ <- lPush now key (JSON_stringify (ChatMessage.to_json msg)) ;
  _ <- lTrim now key 0 (HISTORY_SIZE cfg - 1) ;
  _ <- expire now key (HISTORY_TTL_SECONDS cfg) ;
  ret tt.

(** The test of the fan-out loop on one socket. *)
Definition is_member (w : World) (socket : nat) (room : string) : bool :=
  match clients w !! socket with
  | Some info => bool_decide (room ∈ rooms info)
  | None => false
  end.

Definition is_open (w : World) (socket : nat) : bool :=
  match wss_clients w !! socket with
  | Some sock => bool_decide (readyState sock = OPEN)
  | None => false
  end.

(** The body of [wss.clients.forEach] in the subscriber. *)
Definition deliver (room : string) (payload : ServerEvent) (socket : nat) : M unit :=
  fun w =>
    match clients w !! socket with
    | None => (w, Ret tt)
    | Some info =>
        if bool_decide (room ∈ rooms info) && is_open w socket
        then send socket (stringify_event payload) w
        else (w, Ret tt)
    end.

(** The listener of [sub.pSubscribe("chat:*", ...)]. *)
Definition onBusMessage (message ch : string) : M unit :=
  let room := roomOf ch in
  parsed <- parse message ;
  let payload := EvBroadcast parsed in
  fun w => forEach (deliver room payload) (map fst (map_to_list (wss_clients w))) w.

(** [x-forwarded-for ?? remoteAddress ?? "unknown"] *)
Definition client_ip (forwarded remoteAddress : option string) : string :=
  match forwarded with
  | Some h => h
  | None => match remoteAddress with Some a => a | None => "unknown" end
  end.

Definition welcome : ServerEvent :=
  EvSystem ("Connected. Joined room " +:+ String (ascii_of_nat 34) "" +:+ DEFAULT_ROOM cfg
            +:+ String (ascii_of_nat 34) "" +:+ ".").

(** The handler of ["connection"], up to the registration of the
    socket's own handlers. *)
Definition onConnection (s : nat) (forwarded remoteAddress : option string) (now : Z) : M unit :=
  let ip := client_ip forwarded remoteAddress in
  let info := mkInfo s {[ DEFAULT_ROOM cfg ]} ip in
  _ <- (fun w => (set_clients (insert s info) w, Ret tt)) ;
  history <- loadHistory now (DEFAULT_ROOM cfg) ;
  _ <- send s (stringify_event (EvHistory (DEFAULT_ROOM cfg) history)) ;
  _ <- send s (stringify_event welcome) ;
  fun w => (set_listening (union {[ s ]}) w, Ret tt).

(** Which [return] of the ["message"] handler a frame reached. *)
Inductive outcome :=
| RateLimited
| InvalidJSON
| InvalidShape
| Accepted (msg : ChatMessage.t).

(** [if (!info.rooms.has(room)) info.rooms.add(room)] *)
Definition join (s : nat) (room : string) : M unit :=
  fun w =>
    match clients w !! s with
    | Some info =>
        if bool_decide (room ∈ rooms info) then (w, Ret tt)
        else (set_clients (insert s (mkInfo (ws info) ({[ room ]} ∪ rooms info) (ip info))) w,
              Ret tt)
    | None => (w, Ret tt)
    end.

(** Lines 123-163: the frame after the rate check. *)
Definition process (s : nat) (data : string) (now : Z) (uuid : string) : M outcome :=
  match JSON_parse data with
  | None =>
      _ <- send s (stringify_event (EvSystem "Invalid JSON")) ;
      ret InvalidJSON
  | Some payload =>
      match safeParse payload with
      | None =>
          _ <- send s (stringify_event (EvSystem "Invalid message shape")) ;
          ret InvalidShape
      | Some (ClientMessage.mk room text username) =>
          _ <- join s room ;
          let msg := ChatMessage.mk uuid room (Str.trim text) (Str.trim username) now in
          _ <- pushHistory now room msg ;
          _ <- publish (channelFor room) (JSON_stringify (ChatMessage.to_json msg)) ;
          ret (Accepted msg)
      end
  end.

(** The handler of ["message"] on socket [s] of a client at address
    [ip]; [now] is the clock and [uuid] the fresh identifier drawn. *)
Definition onMessage (s : nat) (ip : string) (data : string) (now : Z) (uuid : string)
  : M outcome :=
  let rKey := rateKey ip now in
  count <- incr now rKey ;
  _ <- (if count =? 1 then expire now rKey 60 else ret true) ;
  if RATE_LIMIT_PER_MIN cfg <? count then
    _ <- send s (stringify_event (EvSystem "Rate limit exceeded. Try again soon.")) ;
    ret RateLimited
  else process s data now uuid.

(** The handler of ["close"]. *)
Definition onClose (s : nat) : M unit :=
  fun w => (set_clients (delete s) w, Ret tt).

(** The handler of [GET /healthz]: the body that [res.json] sends. *)
Definition getHealthz : M string :=
  ret (JSON_stringify (JObj [("ok", JBool true)])).

(** The handler of [GET /rooms], asked at time [now]: the rooms as the
    handler computes them, and the body that [res.json] sends. *)
Definition getRooms (now : Z) : M (list string * string) :=
  ks <- keys now (HISTORY_PREFIX +:+ "*") ;
  let rooms := Str.substring (String.length HISTORY_PREFIX) <$> ks in
  ret (rooms, JSON_stringify (JObj [("rooms", JArr (JStr <$> rooms))])).

End Server.

(** ** The event loop *)

(** What can happen to the process. A frame carries the clock reading
    and the identifier that [randomUUID] draws while it is handled. *)
Inductive event :=
| Connect (forwarded remoteAddress : option string) (now : Z)
| Frame (s : nat) (data : string) (now : Z) (uuid : string)
| CloseStart (s : nat)
| Close (s : nat)
| BusMessage (ch message : string).

(** The [ws] server accepts a connection: a new OPEN socket enters
    [wss.clients]. *)
Definition accept : M nat :=
  fun w =>
    let s := next_ws w in
    (mkWorld (redis w) (published w) (<[s := mkSocket OPEN []]> (wss_clients w))
             (clients w) (listening w) (S s), Ret s).

(** The closing handshake starts on an open socket. *)
Definition closing (s : nat) : M unit :=
  fun w =>
    match wss_clients w !! s with
    | Some (mkSocket OPEN out) =>
        (set_wss_clients (insert s (mkSocket CLOSING out)) w, Ret tt)
    | _ => (w, Ret tt)
    end.

(** The socket is closed: it leaves [wss.clients], and its ["close"]
    handler runs if it was registered. *)
Definition closed (s : nat) : M unit :=
  fun w =>
    let w1 := set_wss_clients (delete s) w in
    if bool_decide (s ∈ listening w)
    then (_ <- onClose s ; fun w2 => (set_listening (fun l => l ∖ {[ s ]}) w2, Ret tt)) w1
    else (w1, Ret tt).

(** Pattern [chat:*] *)
Definition matches_pattern (ch : string) : bool := String.prefix CHANNEL_PREFIX ch.

Section Loop.

Context (cfg : Config) {codec : JSON}.

(** The frame reaches the ["message"] handler of an open socket that
    has one; the handler's [info] is the socket's entry of [clients]. *)
Definition frame_target (w : World) (s : nat) : option ClientInfo :=
  if bool_decide (s ∈ listening w) && is_open w s then clients w !! s else None.

Definition step (ev : event) : M unit :=
  match ev with
  | Connect forwarded remoteAddress now =>
      s <- accept ; onConnection cfg s forwarded remoteAddress now
  | Frame s data now uuid =>
      fun w =>
        match frame_target w s with
        | Some info => (_ <- onMessage cfg s (ip info) data now uuid ; ret tt) w
        | None => (w, Ret tt)
        end
  | CloseStart s => closing s
  | Close s => closed s
  | BusMessage ch message =>
      if matches_pattern ch then onBusMessage message ch else ret tt
  end.

(** The events of a run, one handler at a time. No handler for uncaught
    exceptions or unhandled rejections is installed: an exception that
    leaves a handler ends the process, and the run stops there. *)
Definition run (evs : list event) : M unit := forEach step evs.

(** 1 if [ev], in state [w], is a frame that reaches a ["message"]
    handler of address [a] in minute bucket [b], whatever the frame
    holds; 0 otherwise. *)
Definition hit (a : string) (b : Z) (w : World) (ev : event) : Z :=
  match ev with
  | Frame s _ now _ =>
      match frame_target w s with
      | Some info =>
          if bool_decide (ip info = a /\ minuteBucket now = b) then 1 else 0
      | None => 0
      end
  | _ => 0
  end.

(** The number of such frames among [evs], run from [w]. *)
Fixpoint frames_from (a : string) (b : Z) (w : World) (evs : list event) : Z :=
  match evs with
  | [] => 0
  | ev :: evs' =>
      hit a b w ev
      + match step ev w with
        | (w', Ret _) => frames_from a b w' evs'
        | (_, Throw _) => 0
        end
  end.

End Loop.

(** ** The [await] of the connection handler

    The handler of ["connection"] is an [async] function: it runs up to
    [await loadHistory(DEFAULT_ROOM)] (line 89), where [loadHistory]
    has sent its LRANGE to the store, and goes on when the reply is
    there. Other handlers run in between. The store serves the commands
    of the one client [pub] in the order in which they were sent, so the
    reply is what the command finds when the handler sends it. After
    the reply only promise jobs run - the rest of [loadHistory] and the
    return to the handler - before the handler goes on. *)

Section Awaits.

Context (cfg : Config) {codec : JSON}.

(** Lines 81-86: the handler of ["connection"] up to the call of
    [loadHistory]. *)
Definition onConnection_start (s : nat) (forwarded remoteAddress : option string) : M unit :=
  let ip := client_ip forwarded remoteAddress in
  let info := mkInfo s {[ DEFAULT_ROOM cfg ]} ip in
  fun w => (set_clients (insert s info) w, Ret tt).

(** Lines 55 and 89-168: the handler from the reply of the store to
    LRANGE on; a command that the store refused rejects the [await]. *)
Definition onConnection_resume (s : nat) (reply : res (list string)) : M unit :=
  match reply with
  | Throw e => throw e
  | Ret raw =>
      parsed <- parse_all raw ;
      let history := reverse parsed in
      _ <- send s (stringify_event (EvHistory (DEFAULT_ROOM cfg) history)) ;
      _ <- send s (stringify_event (welcome cfg)) ;
      fun w => (set_listening (union {[ s ]}) w, Ret tt)
  end.

(** The process: its state, and the connection handlers that wait for
    the store, each with the reply that is on its way. *)
Record Process := mkProcess {
  world : World;
  awaiting : gmap nat (res (list string))
}.

(** What the event loop runs: the first part of a connection handler,
    the rest of the connection handler of socket [s], or a handler of
    [step] as a whole. *)
Inductive turn :=
| Arrive (forwarded remoteAddress : option string) (now : Z)
| Resume (s : nat)
| Handle (ev : event).

(** ["close"] is emitted once, when the socket leaves [wss.clients]. *)
Definition emitted (w : World) (ev : event) : bool :=
  match ev with
  | Close s => bool_decide (is_Some (wss_clients w !! s))
  | _ => true
  end.

(** One turn. A connection that arrives gets its socket and its
    session, and the LRANGE of [loadHistory] is answered from the store
    as it is then; the reply is kept for the second part. A turn of
    [Resume] for a socket whose handler does not wait does nothing. *)
Definition perform (t : turn) (p : Process) : Process * res unit :=
  match t with
  | Arrive forwarded remoteAddress now =>
      let s := next_ws (world p) in
      let '(w1, r) := (s <- accept ; onConnection_start s forwarded remoteAddress) (world p) in
      let reply :=
        Redis.lRange now (historyKey (DEFAULT_ROOM cfg)) 0 (HISTORY_SIZE cfg - 1) (redis w1) in
      (mkProcess w1 (<[s := reply]> (awaiting p)), r)
  | Resume s =>
      match awaiting p !! s with
      | Some reply =>
          let '(w1, r) := onConnection_resume s reply (world p) in
          (mkProcess w1 (delete s (awaiting p)), r)
      | None => (p, Ret tt)
      end
  | Handle ev =>
      if emitted (world p) ev
      then let '(w1, r) := step cfg ev (world p) in (mkProcess w1 (awaiting p), r)
      else (p, Ret tt)
  end.

(** The turns of a run, one after the other; an exception that leaves a
    turn ends the process. *)
Fixpoint schedule (ts : list turn) (p : Process) : Process * res unit :=
  match ts with
  | [] => (p, Ret tt)
  | t :: ts' =>
      match perform t p with
      | (p1, Ret _) => schedule ts' p1
      | (p1, Throw e) => (p1, Throw e)
      end
  end.

End Awaits.

(** The process at start-up: no handler is waiting. *)
Definition start : Process := mkProcess init ∅.

(** * Properties *)

(** ** Strings and keys *)

Lemma str_app_nil s : "" +:+ s = s.
Proof. reflexivity. Qed.

Lemma str_app_cons c s t : String c s +:+ t = String c (s +:+ t).
Proof. reflexivity. Qed.

Ltac str_norm := rewrite ?str_app_cons, ?str_app_nil in *.

Lemma all_chars_app p s t :
  Str.all_chars p (s +:+ t) = Str.all_chars p s && Str.all_chars p t.
Proof.
  induction s as [|c s IH]; str_norm; simpl; [done|].
  rewrite IH. by rewrite andb_assoc.
Qed.

Lemma digits_inj d d' : Str.digits d = Str.digits d' -> d = d'.
Proof.
  revert d'. induction d; intros d'; destruct d'; simpl; intros H;
    try discriminate; try done; f_equal; apply IHd; by inversion H.
Qed.

Lemma digits_all_digit d : Str.all_chars Str.is_digit (Str.digits d) = true.
Proof. induction d; simpl; auto. Qed.

Lemma all_chars_impl (p q : ascii -> bool) s :
  (forall c, p c = true -> q c = true) ->
  Str.all_chars p s = true -> Str.all_chars q s = true.
Proof.
  intros Hpq. induction s as [|c s IH]; simpl; [done|].
  intros [Hc Hs]%andb_prop. rewrite (Hpq c Hc). by rewrite IH.
Qed.

Lemma is_digit_not_colon c : Str.is_digit c = true -> negb (Str.is_colon c) = true.
Proof.
  unfold Str.is_digit, Str.is_colon.
  intros [H1 H2]%andb_prop. apply N.leb_le in H2.
  apply negb_true_iff, N.eqb_neq. lia.
Qed.

Lemma of_N_no_colon n : Str.no_colon (Str.of_N n) = true.
Proof.
  unfold Str.no_colon, Str.of_N.
  eapply all_chars_impl; [apply is_digit_not_colon | apply digits_all_digit].
Qed.

Lemma of_Z_no_colon z : Str.no_colon (Str.of_Z z) = true.
Proof.
  destruct z as [|p|p]; [apply of_N_no_colon..|].
  change (Str.no_colon (Str.of_N (N.pos p)) = true). apply of_N_no_colon.
Qed.

Lemma of_N_inj n n' : Str.of_N n = Str.of_N n' -> n = n'.
Proof. intros H. by apply DecimalN.Unsigned.to_uint_inj, digits_inj. Qed.

Lemma of_N_not_dash n s : Str.of_N n <> String "-" s.
Proof.
  intros H. pose proof (digits_all_digit (N.to_uint n)) as Hd.
  unfold Str.of_N in H. rewrite H in Hd. simpl in Hd. discriminate.
Qed.

Lemma of_Z_inj z z' : Str.of_Z z = Str.of_Z z' -> z = z'.
Proof.
  destruct z as [|p|p], z' as [|q|q]; simpl; intros H;
    try (by apply of_N_inj in H; lia);
    try (by apply of_N_not_dash in H);
    try (by symmetry in H; apply of_N_not_dash in H).
  inversion H as [H']. apply of_N_inj in H'. congruence.
Qed.

(** The last colon of a key separates the address from the bucket. *)
Lemma colon_split a a' d d' :
  Str.no_colon d = true -> Str.no_colon d' = true ->
  a +:+ ":" +:+ d = a' +:+ ":" +:+ d' -> a = a' /\ d = d'.
Proof.
  intros Hd Hd'. revert a'.
  induction a as [|c a IH]; intros [|c' a']; intros H; str_norm.
  - by injection H as ->.
  - injection H as Hc Hr. rewrite Hr in Hd.
    unfold Str.no_colon in Hd. rewrite all_chars_app in Hd. simpl in Hd.
    by rewrite andb_false_r in Hd.
  - injection H as Hc Hr. rewrite <- Hr in Hd'.
    unfold Str.no_colon in Hd'. rewrite all_chars_app in Hd'. simpl in Hd'.
    by rewrite andb_false_r in Hd'.
  - injection H as -> Hr. by destruct (IH _ Hr) as [-> ->].
Qed.

Lemma rateKey_inj a t a' t' :
  rateKey a t = rateKey a' t' -> a = a' /\ minuteBucket t = minuteBucket t'.
Proof.
  unfold rateKey, RATE_PREFIX. intros H. str_norm. injection H as H'.
  apply colon_split in H'; try apply of_Z_no_colon.
  destruct H' as [-> H']. split; [done|]. by apply of_Z_inj.
Qed.

Lemma historyKey_inj r r' : historyKey r = historyKey r' -> r = r'.
Proof. unfold historyKey, HISTORY_PREFIX. intros H. str_norm. by injection H. Qed.

Lemma rateKey_historyKey a t r : rateKey a t <> historyKey r.
Proof. unfold rateKey, historyKey. discriminate. Qed.

Lemma roomOf_channelFor room : roomOf (channelFor room) = room.
Proof. reflexivity. Qed.

(** ** The codec reads what it writes *)

Ltac each_char c := destruct c as [[] [] [] [] [] [] [] []].

Lemma escape_char_parse c t :
  Wire.parse_chars (Wire.escape_char c t) = Wire.prepend c (Wire.parse_chars t).
Proof. each_char c; reflexivity. Qed.

Lemma escape_parse s rest :
  Wire.parse_chars (Wire.escape s (String Wire.quote_char rest)) = Some (s, rest).
Proof.
  induction s as [|c s IH]; [done|].
  cbn [Wire.escape]. by rewrite escape_char_parse, IH.
Qed.

(** [rest] does not go on with a digit. *)
Definition digit_free (rest : string) : Prop :=
  match rest with
  | String c _ => Wire.digit_of c = None
  | EmptyString => True
  end.

Lemma read_digits_print d rest :
  digit_free rest -> Wire.read_digits (Str.digits d +:+ rest) = (d, rest).
Proof.
  intros Hrest. induction d; cbn [Str.digits]; str_norm;
    try (simpl; by rewrite IHd).
  destruct rest as [|c r]; [done|]. simpl in *. by rewrite Hrest.
Qed.

Lemma nzhead_not_D0 d : match nzhead d with D0 _ => False | _ => True end.
Proof. induction d; simpl; auto. Qed.

Lemma well_formed_unorm d : Wire.well_formed (unorm d) = true.
Proof.
  unfold unorm. pose proof (nzhead_not_D0 d). by destruct (nzhead d).
Qed.

Lemma well_formed_to_uint n : Wire.well_formed (N.to_uint n) = true.
Proof.
  rewrite <- (DecimalN.Unsigned.of_to n) at 1.
  rewrite DecimalN.Unsigned.to_of. apply well_formed_unorm.
Qed.

Lemma parse_number_print z rest :
  digit_free rest -> Wire.parse_number (Str.of_Z z +:+ rest) = Some (JNum z, rest).
Proof.
  intros Hrest.
  assert (forall n, 0 <= z -> n = Z.to_N z ->
            Wire.parse_number (Str.of_N n +:+ rest) = Some (JNum z, rest)) as Hpos.
  { intros n Hz ->. unfold Str.of_N.
    pose proof (well_formed_to_uint (Z.to_N z)) as Hwf.
    pose proof (read_digits_print (N.to_uint (Z.to_N z)) rest Hrest) as Hread.
    pose proof (DecimalN.Unsigned.of_to (Z.to_N z)) as Hof.
    destruct (N.to_uint (Z.to_N z)) eqn:Hd; try done;
      cbn [Str.digits] in *; str_norm; unfold Wire.parse_number;
      rewrite Hread, Hwf, Hof; do 3 f_equal; lia. }
  destruct z as [|p|p]; [by apply Hpos..|].
  cbn [Str.of_Z]. str_norm. unfold Wire.parse_number, Str.of_N.
  rewrite read_digits_print, well_formed_to_uint by done.
  rewrite DecimalN.Unsigned.of_to. done.
Qed.

(** The characters a value can start with. *)
Definition value_start (c : ascii) : bool :=
  let n := N_of_ascii c in
  (n =? 110)%N || (n =? 116)%N || (n =? 102)%N || (n =? 34)%N || (n =? 91)%N
  || (n =? 123)%N || (n =? 45)%N || ((48 <=? n)%N && (n <=? 57)%N).

Lemma digits_head d rest :
  d <> Nil ->
  exists c r, Str.digits d +:+ rest = String c r /\ value_start c = true.
Proof. destruct d; [done|..]; intros _; cbn [Str.digits]; str_norm; eauto. Qed.

Lemma to_uint_nonnil n : N.to_uint n <> Nil.
Proof. destruct n; [done|]. apply DecimalPos.Unsigned.to_uint_nonnil. Qed.

Lemma of_Z_head z rest :
  exists c r, Str.of_Z z +:+ rest = String c r /\
    (N_of_ascii c =? 45)%N || ((48 <=? N_of_ascii c)%N && (N_of_ascii c <=? 57)%N) = true.
Proof.
  assert (forall n, exists c r, Str.of_N n +:+ rest = String c r /\
    (N_of_ascii c =? 45)%N || ((48 <=? N_of_ascii c)%N && (N_of_ascii c <=? 57)%N) = true)
    as Hn.
  { intros n. unfold Str.of_N. pose proof (to_uint_nonnil n).
    destruct (N.to_uint n); [done|..]; cbn [Str.digits]; str_norm; eauto. }
  destruct z; cbn [Str.of_Z]; str_norm; eauto.
Qed.

Lemma print_head v rest :
  exists c r, Wire.print v rest = String c r /\ value_start c = true.
Proof.
  destruct v as [|[]|z|s|l|fs]; cbn [Wire.print]; str_norm.
  all: try (by eexists _, _).
  - destruct (of_Z_head z rest) as (c & r & Heq & Hc). rewrite Heq.
    exists c, r. split; [done|].
    unfold value_start. apply orb_prop in Hc as [-> | ->]; by rewrite ?orb_true_r.
Qed.

Lemma token_other c c' r :
  value_start c' = true -> Wire.is_ws c = false -> value_start c = false ->
  Wire.token c (String c' r) = None.
Proof.
  intros Hc' _ Hc. unfold Wire.token.
  assert (Wire.is_ws c' = false) as Hws by (each_char c'; done).
  cbn [Wire.skip_ws]. rewrite Hws.
  destruct (Ascii.eqb_spec c c') as [->|]; [congruence|done].
Qed.

Lemma token_here c r :
  Wire.is_ws c = false -> Wire.token c (String c r) = Some r.
Proof.
  intros Hws. unfold Wire.token. cbn [Wire.skip_ws]. rewrite Hws.
  by rewrite Ascii.eqb_refl.
Qed.

(** A number is read by the number parser. *)
Lemma parse_value_number fuel c r :
  (N_of_ascii c =? 45)%N || ((48 <=? N_of_ascii c)%N && (N_of_ascii c <=? 57)%N) = true ->
  Wire.parse_value (S fuel) (String c r) = Wire.parse_number (String c r).
Proof. each_char c; try discriminate; reflexivity. Qed.

Definition len (s : string) : nat := String.length s.

Lemma len_cons c s : len (String c s) = S (len s).
Proof. reflexivity. Qed.

Ltac len_lia :=
  unfold Wire.quote in *; rewrite ?len_cons in *; change (len "") with 0%nat in *; lia.

Lemma len_app s t : len (s +:+ t) = (len s + len t)%nat.
Proof. induction s; str_norm; simpl; [done|]. unfold len in *. simpl. lia. Qed.

Lemma escape_len s rest : (len rest <= len (Wire.escape s rest))%nat.
Proof.
  induction s as [|c s IH]; [done|]. cbn [Wire.escape].
  etrans; [apply IH|]. generalize (Wire.escape s rest). intros t.
  each_char c; unfold len; simpl; lia.
Qed.

Lemma quote_len s rest : (len rest + 2 <= len (Wire.quote s rest))%nat.
Proof.
  unfold Wire.quote. pose proof (escape_len s (String Wire.quote_char rest)).
  unfold len in *. simpl in *. lia.
Qed.

Section json_induction.

Variable P : json -> Prop.
Hypothesis Hnull : P JNull.
Hypothesis Hbool : forall b, P (JBool b).
Hypothesis Hnum : forall n, P (JNum n).
Hypothesis Hstr : forall s, P (JStr s).
Hypothesis Harr : forall l, Forall P l -> P (JArr l).
Hypothesis Hobj : forall fs, Forall (fun kv => P kv.2) fs -> P (JObj fs).

(** Induction on a value, with the property in hand for the elements of
    an array and the members of an object. *)
Fixpoint json_nested_ind (v : json) : P v :=
  match v with
  | JNull => Hnull
  | JBool b => Hbool b
  | JNum n => Hnum n
  | JStr s => Hstr s
  | JArr l =>
      Harr l ((fix go (l : list json) : Forall P l :=
                 match l with
                 | [] => @List.Forall_nil _ P
                 | x :: l' => @List.Forall_cons _ P x l' (json_nested_ind x) (go l')
                 end) l)
  | JObj fs =>
      Hobj fs ((fix go (fs : list (string * json)) : Forall (fun kv => P kv.2) fs :=
                  match fs with
                  | [] => @List.Forall_nil _ _
                  | kv :: fs' =>
                      @List.Forall_cons _ (fun kv => P kv.2) kv fs'
                        (json_nested_ind kv.2) (go fs')
                  end) fs)
  end.

End json_induction.

Lemma print_array v l rest :
  Wire.print (JArr (v :: l)) rest = String "[" (Wire.print v (Wire.items_tail l rest)).
Proof.
  cbn [Wire.print]. do 2 f_equal.
  induction l as [|x l IH]; [done|]. cbn [Wire.items_tail]. by rewrite IH.
Qed.

Lemma print_object k v fs rest :
  Wire.print (JObj ((k, v) :: fs)) rest =
    String "{" (Wire.quote k (String ":" (Wire.print v (Wire.members_tail fs rest)))).
Proof.
  cbn [Wire.print]. do 4 f_equal.
  induction fs as [|[k' x] fs IH]; [done|]. cbn [Wire.members_tail]. by rewrite IH.
Qed.

Lemma parse_value_array fuel X :
  Wire.parse_value (S fuel) (String "[" X) =
    match Wire.token "]" X with
    | Some r' => Some (JArr [], r')
    | None =>
        match Wire.parse_items fuel X with
        | Some (l, r') => Some (JArr l, r')
        | None => None
        end
    end.
Proof. reflexivity. Qed.

Lemma parse_value_object fuel X :
  Wire.parse_value (S fuel) (String "{" X) =
    match Wire.token "}" X with
    | Some r' => Some (JObj [], r')
    | None =>
        match Wire.parse_members fuel X with
        | Some (l, r') => Some (JObj l, r')
        | None => None
        end
    end.
Proof. reflexivity. Qed.

Lemma parse_items_unfold fuel X :
  Wire.parse_items (S fuel) X =
    match Wire.parse_value fuel X with
    | Some (v, r) =>
        match Wire.token "," r with
        | Some r' =>
            match Wire.parse_items fuel r' with
            | Some (l, r'') => Some (v :: l, r'')
            | None => None
            end
        | None =>
            match Wire.token "]" r with
            | Some r' => Some ([v], r')
            | None => None
            end
        end
    | None => None
    end.
Proof. reflexivity. Qed.

Lemma parse_members_unfold fuel X :
  Wire.parse_members (S fuel) X =
    match Wire.token Wire.quote_char X with
    | Some r =>
        match Wire.parse_chars r with
        | Some (k, r1) =>
            match Wire.token ":" r1 with
            | Some r2 =>
                match Wire.parse_value fuel r2 with
                | Some (v, r3) =>
                    match Wire.token "," r3 with
                    | Some r4 =>
                        match Wire.parse_members fuel r4 with
                        | Some (l, r5) => Some ((k, v) :: l, r5)
                        | None => None
                        end
                    | None =>
                        match Wire.token "}" r3 with
                        | Some r4 => Some ([(k, v)], r4)
                        | None => None
                        end
                    end
                | None => None
                end
            | None => None
            end
        | None => None
        end
    | None => None
    end.
Proof. reflexivity. Qed.

(** The text of [v], whatever follows it, is longer than what follows,
    and is read back as [v] with enough fuel. *)
Definition reads (v : json) : Prop :=
  forall rest,
    (len rest < len (Wire.print v rest))%nat /\
    forall fuel,
      digit_free rest ->
      (2 * len (Wire.print v rest) <= fuel)%nat ->
      Wire.parse_value fuel (Wire.print v rest) = Some (v, rest).

Lemma items_reads l :
  Forall reads l ->
  forall v, reads v ->
  forall rest,
    (len rest < len (Wire.items_tail l rest))%nat /\
    forall fuel,
      (2 * len (Wire.print v (Wire.items_tail l rest)) + 1 <= fuel)%nat ->
      Wire.parse_items fuel (Wire.print v (Wire.items_tail l rest)) = Some (v :: l, rest).
Proof.
  induction 1 as [|x l Hx Hl IH]; intros v Hv rest.
  - cbn [Wire.items_tail]. split; [len_lia|].
    intros [|fuel] Hfuel; [len_lia|].
    rewrite parse_items_unfold.
    destruct (Hv (String "]" rest)) as [_ Hread]. rewrite Hread; [done|done|len_lia].
  - cbn [Wire.items_tail].
    destruct (IH x Hx rest) as [Hlen Hitems].
    destruct (Hx (Wire.items_tail l rest)) as [Hxlen _].
    split; [len_lia|].
    intros [|fuel] Hfuel; [len_lia|].
    rewrite parse_items_unfold.
    destruct (Hv (String "," (Wire.print x (Wire.items_tail l rest)))) as [Hvlen Hread].
    rewrite Hread; [|done|len_lia].
    rewrite token_here by done. rewrite Hitems; [done|].
    len_lia.
Qed.

Lemma members_reads fs :
  Forall (fun kv => reads kv.2) fs ->
  forall k v, reads v ->
  forall rest,
    (len rest < len (Wire.members_tail fs rest))%nat /\
    forall fuel,
      (2 * len (Wire.quote k (String ":" (Wire.print v (Wire.members_tail fs rest)))) + 1
       <= fuel)%nat ->
      Wire.parse_members fuel
        (Wire.quote k (String ":" (Wire.print v (Wire.members_tail fs rest))))
      = Some ((k, v) :: fs, rest).
Proof.
  induction 1 as [|[k' x] fs Hx Hfs IH]; intros k v Hv rest.
  - cbn [Wire.members_tail]. split; [len_lia|].
    intros [|fuel] Hfuel; [len_lia|].
    rewrite parse_members_unfold. unfold Wire.quote at 1.
    rewrite token_here by done. rewrite escape_parse. rewrite token_here by done.
    destruct (Hv (String "}" rest)) as [_ Hread].
    pose proof (quote_len k (String ":" (Wire.print v (String "}" rest)))) as Hq.
    rewrite Hread; [done|done|]. len_lia.
  - cbn [Wire.members_tail]. simpl in Hx.
    destruct (IH k' x Hx rest) as [Hlen Hmembers].
    destruct (Hx (Wire.members_tail fs rest)) as [Hxlen _].
    set (T := Wire.members_tail fs rest) in *.
    pose proof (quote_len k' (String ":" (Wire.print x T))) as Hq'.
    split; [len_lia|].
    intros [|fuel] Hfuel; [len_lia|].
    rewrite parse_members_unfold. unfold Wire.quote at 1.
    rewrite token_here by done. rewrite escape_parse. rewrite token_here by done.
    set (Y := String "," (Wire.quote k' (String ":" (Wire.print x T)))) in *.
    destruct (Hv Y) as [Hvlen Hread].
    pose proof (quote_len k (String ":" (Wire.print v Y))) as Hq.
    rewrite Hread; [|done|len_lia].
    unfold Y. rewrite token_here by done. rewrite Hmembers; [done|].
    unfold Y in *. len_lia.
Qed.

Lemma print_reads v : reads v.
Proof.
  induction v as [|b|z|s|l IH|fs IH] using json_nested_ind; intros rest.
  - cbn [Wire.print]. split; [rewrite len_app; simpl; lia|].
    intros [|fuel] _ Hfuel; [rewrite len_app in Hfuel; simpl in Hfuel; lia | reflexivity].
  - destruct b; cbn [Wire.print]; (split; [rewrite len_app; simpl; lia|]);
      (intros [|fuel] _ Hfuel; [rewrite len_app in Hfuel; simpl in Hfuel; lia | reflexivity]).
  - cbn [Wire.print].
    destruct (of_Z_head z rest) as (c & r & Heq & Hc).
    destruct (of_Z_head z "") as (c0 & r0 & Heq0 & _).
    assert (1 <= len (Str.of_Z z))%nat as Hz.
    { pose proof (len_app (Str.of_Z z) "") as Hl. rewrite Heq0 in Hl.
      len_lia. }
    split; [rewrite len_app; lia|].
    intros [|fuel] Hrest Hfuel; [rewrite len_app in Hfuel; lia|].
    rewrite Heq, parse_value_number by done. rewrite <- Heq.
    by apply parse_number_print.
  - cbn [Wire.print]. pose proof (quote_len s rest). split; [lia|].
    intros [|fuel] _ Hfuel; [len_lia|].
    unfold Wire.quote.
    change (Wire.parse_value (S fuel) (String Wire.quote_char ?X))
      with (match Wire.parse_chars X with
            | Some (x, r') => Some (JStr x, r')
            | None => None
            end).
    by rewrite escape_parse.
  - destruct l as [|v l].
    + cbn [Wire.print]. split; [len_lia|]. by intros [|fuel] _ Hfuel; [len_lia|].
    + rewrite print_array. apply Forall_cons_1 in IH as [Hv Hl].
      destruct (items_reads l Hl v Hv rest) as [Hlen Hitems].
      destruct (Hv (Wire.items_tail l rest)) as [Hvlen _].
      split; [len_lia|].
      intros [|fuel] _ Hfuel; [len_lia|].
      rewrite parse_value_array.
      destruct (print_head v (Wire.items_tail l rest)) as (c & r & Heq & Hc).
      rewrite Heq at 1. rewrite token_other by done.
      rewrite Hitems; [done|]. len_lia.
  - destruct fs as [|[k v] fs].
    + cbn [Wire.print]. split; [len_lia|]. by intros [|fuel] _ Hfuel; [len_lia|].
    + rewrite print_object. apply Forall_cons_1 in IH as [Hv Hfs]. simpl in Hv.
      destruct (members_reads fs Hfs k v Hv rest) as [Hlen Hmembers].
      destruct (Hv (Wire.members_tail fs rest)) as [Hvlen _].
      pose proof (quote_len k (String ":" (Wire.print v (Wire.members_tail fs rest)))) as Hq.
      split; [len_lia|].
      intros [|fuel] _ Hfuel; [len_lia|].
      rewrite parse_value_object. unfold Wire.quote at 1.
      rewrite token_other by done. fold (Wire.quote k (String ":" (Wire.print v (Wire.members_tail fs rest)))).
      rewrite Hmembers; [done|]. len_lia.
Qed.

Theorem parse_stringify v : Wire.parse (Wire.stringify v) = Some v.
Proof.
  unfold Wire.parse, Wire.stringify.
  destruct (print_reads v "") as [_ Hread].
  rewrite Hread; [done|done|]. unfold len. lia.
Qed.

#[global] Instance wire_codec : JSON :=
  {| JSON_parse := Wire.parse;
     JSON_stringify := Wire.stringify;
     JSON_parse_stringify := parse_stringify |}.

(** ** The store *)

Lemma range_prefix {A} (l : list A) (n : Z) :
  1 <= n -> Redis.range l 0 (n - 1) = take (Z.to_nat n) l.
Proof.
  intros Hn. unfold Redis.range. cbv zeta.
  repeat match goal with
         | |- context [?a <? ?b] => destruct (Z.ltb_spec a b); try lia
         | |- context [?a <=? ?b] => destruct (Z.leb_spec a b); try lia
         end; simpl.
  all: try (destruct l; [by destruct (Z.to_nat n) | simpl in *; lia]).
  all: rewrite ?drop_0.
  - rewrite !take_ge; [done | lia | lia].
  - f_equal. lia.
Qed.

Lemma range_length {A} (l : list A) (n : Z) :
  1 <= n -> (length (Redis.range l 0 (n - 1)) <= Z.to_nat n)%nat.
Proof. intros Hn. rewrite range_prefix by done. rewrite length_take. lia. Qed.

(** With a cap of 0 the bounds are 0 and -1, the whole list: nothing is
    cut. The bounds of the history store need a cap of at least 1. *)
Lemma range_whole {A} (l : list A) : Redis.range l 0 (0 - 1) = l.
Proof.
  unfold Redis.range. cbv zeta. simpl (0 - 1). simpl (0 <? 0). simpl (-1 <? 0). cbv iota.
  destruct l as [|x l]; [done|].
  repeat match goal with
         | |- context [?a <? ?b] => destruct (Z.ltb_spec a b); try (simpl in *; lia)
         | |- context [?a <=? ?b] => destruct (Z.leb_spec a b); try (simpl in *; lia)
         end.
  cbv iota. simpl orb. cbv iota. rewrite drop_0. apply take_ge. lia.
Qed.

Lemma get_insert_eq now k e (d : gmap string Redis.entry) :
  Redis.get now k (<[k := e]> d) = if Redis.live now e then Some e else None.
Proof. unfold Redis.get. by rewrite lookup_insert_eq. Qed.

Lemma get_insert_ne now k k' e (d : gmap string Redis.entry) :
  k' <> k -> Redis.get now k (<[k' := e]> d) = Redis.get now k d.
Proof. intros Hne. unfold Redis.get. by rewrite lookup_insert_ne. Qed.

Lemma get_live now k (d : gmap string Redis.entry) e :
  Redis.get now k d = Some e -> d !! k = Some e /\ Redis.live now e = true.
Proof.
  unfold Redis.get. destruct (d !! k) as [e'|]; [|done].
  destruct (Redis.live now e') eqn:Hl; [|done]. by intros [= ->].
Qed.

(** A command on one key leaves the other keys alone. *)
Lemma incr_other now k (d : gmap string Redis.entry) k' :
  k' <> k -> (Redis.incr now k d).1 !! k' = d !! k'.
Proof.
  intros Hne. unfold Redis.incr.
  destruct (Redis.get now k d) as [[[n|l] e]|]; simpl; by rewrite ?lookup_insert_ne.
Qed.

Lemma expire_other now k secs (d : gmap string Redis.entry) k' :
  k' <> k -> (Redis.expire now k secs d).1 !! k' = d !! k'.
Proof.
  intros Hne. unfold Redis.expire.
  destruct (Redis.get now k d) as [e|]; [|done].
  destruct (secs <=? 0); simpl; by rewrite ?lookup_insert_ne, ?lookup_delete_ne.
Qed.

Lemma lPush_other now k v (d : gmap string Redis.entry) k' :
  k' <> k -> (Redis.lPush now k v d).1 !! k' = d !! k'.
Proof.
  intros Hne. unfold Redis.lPush.
  destruct (Redis.get now k d) as [[[n|l] e]|]; simpl; by rewrite ?lookup_insert_ne.
Qed.

Lemma lTrim_other now k a b (d : gmap string Redis.entry) k' :
  k' <> k -> (Redis.lTrim now k a b d).1 !! k' = d !! k'.
Proof.
  intros Hne. unfold Redis.lTrim.
  destruct (Redis.get now k d) as [[[n|l] e]|]; simpl; [done| |done].
  destruct (Redis.range l a b); simpl; by rewrite ?lookup_insert_ne, ?lookup_delete_ne.
Qed.

(** ** The history store *)

Section History.

Context (cfg : Config) {codec : JSON}.

Let N := HISTORY_SIZE cfg.
Let TTL := HISTORY_TTL_SECONDS cfg.

(** The wire form of a stored message. *)
Definition enc (m : ChatMessage.t) : string := JSON_stringify (ChatMessage.to_json m).

(** The list under a room's key as a command at time [now] sees it. *)
Definition stored (now : Z) (room : string) (w : World) : list string :=
  match Redis.get now (historyKey room) (redis w) with
  | Some (Redis.mk (Redis.List l) _) => l
  | _ => []
  end.

Definition holds_counter (now : Z) (k : string) (w : World) : Prop :=
  exists n e, Redis.get now k (redis w) = Some (Redis.mk (Redis.Int n) e).

Lemma enc_fmap (ms : list ChatMessage.t) :
  enc <$> ms = JSON_stringify <$> (ChatMessage.to_json <$> ms).
Proof. by rewrite <- list_fmap_compose. Qed.

Lemma parse_all_enc (vs : list json) w :
  parse_all (JSON_stringify <$> vs) w = (w, Ret vs).
Proof.
  induction vs as [|v vs IH]; [done|].
  rewrite fmap_cons. cbn [parse_all].
  unfold bind, parse. rewrite JSON_parse_stringify. unfold ret. by rewrite IH.
Qed.

Lemma parse_all_state raw w w' r : parse_all raw w = (w', r) -> w' = w.
Proof.
  revert r. induction raw as [|s raw IH]; simpl; intros r.
  - by intros [= <- _].
  - unfold bind, parse. destruct (JSON_parse s); unfold ret, throw.
    + destruct (parse_all raw w) as [w1 [vs|e]] eqn:Hp.
      * intros [= <- _]. by eapply IH.
      * intros [= <- _]. by eapply IH.
    + by intros [= <- _].
Qed.


(** A failing entry fails the whole list. *)
Lemma parse_all_bad raw w :
  (exists s, s ∈ raw /\ JSON_parse s = None) ->
  parse_all raw w = (w, Throw SyntaxError).
Proof.
  intros (s & Hin & Hs). induction raw as [|s' raw IH]; [by apply elem_of_nil in Hin|].
  simpl. unfold bind, parse.
  destruct (JSON_parse s') as [v|] eqn:Hs'; unfold ret, throw; [|done].
  apply elem_of_cons in Hin as [->|Hin]; [congruence|].
  by rewrite (IH Hin).
Qed.

(** What [loadHistory] does, in terms of the store's reply. *)
Lemma loadHistory_unfold now room w :
  loadHistory cfg now room w =
    match Redis.lRange now (historyKey room) 0 (N - 1) (redis w) with
    | Ret raw =>
        match parse_all raw w with
        | (w', Ret vs) => (w', Ret (reverse vs))
        | (w', Throw e) => (w', Throw e)
        end
    | Throw e => (w, Throw e)
    end.
Proof.
  unfold loadHistory, bind, lRange, on_redis, ret. fold N.
  destruct w as [d p c i l n]; simpl.
  destruct (Redis.lRange now (historyKey room) 0 (N - 1) d); [|done].
  unfold set_redis; simpl. by destruct (parse_all _ _) as [? [?|?]].
Qed.

Lemma loadHistory_state now room w w' r :
  loadHistory cfg now room w = (w', r) -> w' = w.
Proof.
  rewrite loadHistory_unfold.
  destruct (Redis.lRange _ _ _ _ _) as [raw|e]; [|by intros [= <- _]].
  destruct (parse_all raw w) as [w1 [vs|e]] eqn:Hp; intros [= <- _];
    by eapply parse_all_state.
Qed.


(** A sequence of appends, each with its clock reading and room. *)
Definition pushAll (ps : list (Z * string * ChatMessage.t)) : M unit :=
  forEach (fun p => pushHistory cfg p.1.1 p.1.2 p.2) ps.

(** The messages appended to one room, in the order of the appends. *)
Fixpoint appended (room : string) (ps : list (Z * string * ChatMessage.t))
  : list ChatMessage.t :=
  match ps with
  | [] => []
  | (_, r, m) :: ps' =>
      if String.eqb r room then m :: appended room ps' else appended room ps'
  end.

Lemma appended_app room ps qs :
  appended room (ps ++ qs) = appended room ps ++ appended room qs.
Proof.
  induction ps as [|[[t r] m] ps IH]; simpl; [done|].
  destruct (String.eqb r room); simpl; by rewrite IH.
Qed.

(** No history key holds a counter. *)
Definition lists_only (w : World) : Prop :=
  forall r n e, redis w !! historyKey r <> Some (Redis.mk (Redis.Int n) e).

(** The history keys after the appends [ps] to the store of [w0], all
    made within one time to live after [lo]: the key of a room without
    appends is as it was; the list of a room with appends is the capped,
    latest-first wire form of what was appended, followed by what the
    first append found, and outlives the window. *)
Definition history_from (w0 : World) (lo : Z) (ps : list (Z * string * ChatMessage.t))
    (w : World) : Prop :=
  forall r,
    match appended r ps with
    | [] => redis w !! historyKey r = redis w0 !! historyKey r
    | _ :: _ =>
        exists found e,
          redis w !! historyKey r
          = Some (Redis.mk (Redis.List
                    (take (Z.to_nat N) ((enc <$> reverse (appended r ps)) ++ found)))
                    (Some e)) /\
          lo + TTL * 1000 <= e /\
          ((forall t, stored t r w0 = []) -> found = [])
    end.




Lemma history_from_load w0 lo ps now room w :
  1 <= N ->
  lists_only w0 ->
  now < lo + TTL * 1000 ->
  history_from w0 lo ps w ->
  (Z.to_nat N <= length (appended room ps))%nat \/ (forall t, stored t room w0 = []) ->
  loadHistory cfg now room w =
    (w, Ret (ChatMessage.to_json <$>
             drop (length (appended room ps) - Z.to_nat N) (appended room ps))).
Proof.
  intros HN Hty Hnow Hinv Hcase. rewrite loadHistory_unfold.
  unfold Redis.lRange, Redis.get. specialize (Hinv room).
  destruct (appended room ps) as [|m0 ms] eqn:Hps.
  - destruct Hcase as [Hlen|Hnone]; [simpl in Hlen; lia|].
    specialize (Hnone now). unfold stored, Redis.get in Hnone. rewrite Hinv.
    destruct (redis w0 !! historyKey room) as [[[n|l] e]|] eqn:Hl; [| |done].
    + by apply Hty in Hl.
    + destruct (Redis.live now _); [|done]. simpl in Hnone. subst l.
      fold N. rewrite range_prefix by done. by rewrite take_nil.
  - destruct Hinv as (found & e & -> & He & Hfound).
    set (msgs := m0 :: ms) in *.
    assert (Redis.live now (Redis.mk (Redis.List
              (take (Z.to_nat N) ((enc <$> reverse msgs) ++ found))) (Some e)) = true)
      as -> by (unfold Redis.live; simpl; lia).
    rewrite range_prefix by done. rewrite take_take, Nat.min_id.
    assert (take (Z.to_nat N) ((enc <$> reverse msgs) ++ found)
            = take (Z.to_nat N) (enc <$> reverse msgs)) as ->.
    { destruct Hcase as [Hlen|Hnone].
      - apply take_app_le. by rewrite length_fmap, length_reverse.
      - by rewrite (Hfound Hnone), app_nil_r. }
    rewrite enc_fmap, <- fmap_take. rewrite parse_all_enc.
    by rewrite fmap_reverse, take_reverse, reverse_involutive, length_fmap, fmap_drop.
Qed.

Lemma loadHistory_absent now room w :
  Redis.get now (historyKey room) (redis w) = None ->
  loadHistory cfg now room w = (w, Ret []).
Proof.
  intros Hget. rewrite loadHistory_unfold. unfold Redis.lRange. by rewrite Hget.
Qed.



(** C7, on the code: an entry that does not parse, among the entries
    within the cap, makes [loadHistory] throw [SyntaxError]; no message
    of the room is answered, whatever the other entries are. *)
Theorem loadHistory_throws_on_unparsable_entry
    (now : Z) (room : string) (w : World) (l : list string) (e : option Z) (bad : string) :
  1 <= HISTORY_SIZE cfg ->
  Redis.get now (historyKey room) (redis w) = Some (Redis.mk (Redis.List l) e) ->
  bad ∈ take (Z.to_nat (HISTORY_SIZE cfg)) l ->
  JSON_parse bad = None ->
  loadHistory cfg now room w = (w, Throw SyntaxError).
Proof.
  intros HN Hget Hin Hbad. rewrite loadHistory_unfold. unfold Redis.lRange.
  rewrite Hget. rewrite range_prefix by done.
  rewrite parse_all_bad; [done|]. by exists bad.
Qed.

End History.

(** ** The relay *)

Section Relay.

Context (cfg : Config) {codec : JSON}.

(** A socket after one pass of the fan-out loop over it. *)
Definition delivered (w : World) (room data : string) (s : nat) (sock : WebSocket)
  : WebSocket :=
  if is_member w s room && bool_decide (readyState sock = OPEN)
  then mkSocket OPEN (sent sock ++ [data])
  else sock.

Lemma set_wss_clients_id w : set_wss_clients (fun _ => wss_clients w) w = w.
Proof. by destruct w. Qed.

Lemma deliver_spec room payload s w :
  deliver room payload s w =
    (set_wss_clients
       (fun m => match m !! s with
                 | Some sock => <[s := delivered w room (stringify_event payload) s sock]> m
                 | None => m
                 end) w,
     Ret tt).
Proof.
  unfold deliver, delivered, is_member, is_open, send.
  destruct w as [d p m c li n]; unfold set_wss_clients; simpl.
  destruct (c !! s) as [info|] eqn:Hc; destruct (m !! s) as [[st out]|] eqn:Hm; simpl;
    rewrite ?andb_false_r; try done.
  - destruct (bool_decide (room ∈ rooms info)); simpl.
    + destruct st; simpl; rewrite ?Hm; simpl; try done;
        by rewrite insert_id.
    + by rewrite insert_id.
  - by rewrite insert_id.
Qed.

Lemma forEach_deliver room payload (l : list nat) : forall w,
  NoDup l ->
  exists m',
    forEach (deliver room payload) l w = (set_wss_clients (fun _ => m') w, Ret tt) /\
    forall s,
      m' !! s =
        if bool_decide (s ∈ l)
        then delivered w room (stringify_event payload) s <$> wss_clients w !! s
        else wss_clients w !! s.
Proof.
  induction l as [|x l IH]; intros w Hnd.
  - exists (wss_clients w). simpl. unfold ret. rewrite set_wss_clients_id.
    by split.
  - apply NoDup_cons in Hnd as [Hx Hnd].
    simpl. unfold bind. rewrite deliver_spec.
    set (w1 := set_wss_clients _ w).
    destruct (IH w1 Hnd) as (m' & Hrun & Hm').
    exists m'. split.
    { rewrite Hrun. by destruct w. }
    intros s. rewrite Hm'.
    assert (forall s' sock, delivered w1 room (stringify_event payload) s' sock
                            = delivered w room (stringify_event payload) s' sock) as Hd.
    { intros s' sock. by destruct w. }
    destruct (decide (s = x)) as [->|Hne].
    + rewrite bool_decide_eq_false_2 by done.
      rewrite bool_decide_eq_true_2 by (apply elem_of_cons; by left).
      unfold w1; destruct w as [d p m c li n]; simpl.
      destruct (m !! x) as [sock|] eqn:Hm; simpl; [|by rewrite Hm].
      by rewrite lookup_insert_eq.
    + assert (wss_clients w1 !! s = wss_clients w !! s) as ->.
      { unfold w1; destruct w as [d p m c li n]; simpl.
        destruct (m !! x); [by rewrite lookup_insert_ne|done]. }
      destruct (decide (s ∈ l)) as [Hin|Hin].
      * rewrite !bool_decide_eq_true_2; [|apply elem_of_cons; by right|done].
        destruct (wss_clients w !! s); simpl; [|done]. by rewrite Hd.
      * rewrite !bool_decide_eq_false_2; [done| |done].
        intros [?|?]%elem_of_cons; done.
Qed.

Lemma prefix_substring p : forall s,
  String.prefix p s = true -> s = p +:+ Str.substring (String.length p) s.
Proof.
  induction p as [|a p IH]; intros s; [done|].
  destruct s as [|b s]; simpl; [done|].
  destruct (Ascii.ascii_dec a b) as [->|]; [|done].
  intros Hp. rewrite str_app_cons. f_equal. by apply IH.
Qed.

Lemma matches_pattern_channel ch :
  matches_pattern ch = true -> ch = channelFor (roomOf ch).
Proof. apply prefix_substring. Qed.

(** C4. A payload that decodes, received on a channel [chat:<room>]:
    the subscriber hands the broadcast event that carries the decoded
    message to each socket of [wss.clients] whose session has [room]
    among its rooms and whose state is OPEN, once, after what the
    socket was sent before. Every other socket is left as it was, and
    so are the sessions, the store and the log of publications. *)
Theorem relay_reaches_open_members
    (w : World) (ch message : string) (v : json) :
  matches_pattern ch = true ->
  JSON_parse message = Some v ->
  let room := roomOf ch in
  let data := stringify_event (EvBroadcast v) in
  ch = CHANNEL_PREFIX +:+ room /\
  exists w',
    step cfg (BusMessage ch message) w = (w', Ret tt) /\
    redis w' = redis w /\ published w' = published w /\
    clients w' = clients w /\ listening w' = listening w /\
    forall s,
      wss_clients w' !! s =
        match wss_clients w !! s, clients w !! s with
        | Some sock, Some info =>
            if bool_decide (room ∈ rooms info) && bool_decide (readyState sock = OPEN)
            then Some (mkSocket OPEN (sent sock ++ [data]))
            else Some sock
        | Some sock, None => Some sock
        | None, _ => None
        end.
Proof.
  intros Hch Hv room data. split; [by apply matches_pattern_channel|].
  unfold step. rewrite Hch. unfold onBusMessage, bind, parse. rewrite Hv. unfold ret.
  destruct (forEach_deliver room (EvBroadcast v) (map fst (map_to_list (wss_clients w))) w)
    as (m' & Hrun & Hm'); [apply NoDup_fst_map_to_list|].
  eexists. split; [exact Hrun|].
  destruct w as [d p m c li n]; simpl in *. repeat split.
  intros s. rewrite Hm'. unfold delivered, is_member. simpl.
  destruct (m !! s) as [sock|] eqn:Hs; simpl.
  - rewrite bool_decide_eq_true_2.
    + destruct (c !! s) as [info|]; simpl; [|done].
      by destruct (bool_decide (room ∈ rooms info) && bool_decide (readyState sock = OPEN)).
    + apply list_elem_of_fmap. exists (s, sock). split; [done|].
      by apply elem_of_map_to_list.
  - by destruct (bool_decide _).
Qed.

(** C6, on the code: a payload that is not JSON makes the subscriber's
    listener throw [SyntaxError] before the fan-out; nothing catches
    it, the run ends there, and the bus messages after it are neither
    handled nor delivered. *)
Theorem relay_throws_on_undecodable_payload
    (w : World) (ch message : string) (later : list event) :
  matches_pattern ch = true ->
  JSON_parse message = None ->
  onBusMessage message ch w = (w, Throw SyntaxError) /\
  run cfg (BusMessage ch message :: later) w = (w, Throw SyntaxError).
Proof.
  intros Hch Hbad.
  assert (onBusMessage message ch w = (w, Throw SyntaxError)) as Hthrow.
  { unfold onBusMessage, bind, parse. by rewrite Hbad. }
  split; [done|].
  unfold run. simpl. unfold bind, step. by rewrite Hch, Hthrow.
Qed.

End Relay.

(** ** What a computation leaves alone *)

(** [m] takes a state only to states related to it by [R], whether it
    returns or throws. *)
Definition respects {A} (R : World -> World -> Prop) (m : M A) : Prop :=
  forall w w' r, m w = (w', r) -> R w w'.

(** The states agree on the observation [f]. *)
Definition same {B} (f : World -> B) : World -> World -> Prop :=
  fun w w' => f w' = f w.

#[global] Instance same_refl {B} (f : World -> B) : Reflexive (same f).
Proof. by intros w. Qed.

#[global] Instance same_trans {B} (f : World -> B) : Transitive (same f).
Proof. intros w1 w2 w3 H12 H23. unfold same in *. congruence. Qed.

Lemma respects_ret {A} R `{!Reflexive R} (a : A) : respects R (ret a).
Proof. intros w w' r [= <- _]. reflexivity. Qed.

Lemma respects_throw {A} R `{!Reflexive R} e : respects R (@throw A e).
Proof. intros w w' r [= <- _]. reflexivity. Qed.

Lemma respects_bind {A B} R `{!Transitive R} (m : M A) (k : A -> M B) :
  respects R m -> (forall a, respects R (k a)) -> respects R (bind m k).
Proof.
  intros Hm Hk w w' r. unfold bind.
  destruct (m w) as [w1 [a|e]] eqn:Hmw.
  - intros Hkw. etrans; [by eapply Hm | by eapply Hk].
  - intros [= <- _]. by eapply Hm.
Qed.

Lemma respects_forEach {A} R `{!Reflexive R} `{!Transitive R} (f : A -> M unit) xs :
  (forall x, respects R (f x)) -> respects R (forEach f xs).
Proof.
  intros Hf. induction xs as [|x xs IH]; simpl.
  - by apply respects_ret.
  - apply respects_bind; [done..|]. by intros _.
Qed.

(** Commands on the store touch the store only, and one key of it. *)
Lemma on_redis_same {A B} (f : World -> B) (c : gmap string Redis.entry -> gmap string Redis.entry * res A) :
  (forall d w, f (set_redis (fun _ => d) w) = f w) ->
  respects (same f) (on_redis c).
Proof.
  intros Hf w w' r. unfold on_redis. destruct (c (redis w)) as [d r'].
  intros [= <- _]. apply Hf.
Qed.

Lemma on_redis_key {A} k (c : gmap string Redis.entry -> gmap string Redis.entry * res A) :
  (forall d, (c d).1 !! k = d !! k) ->
  respects (same (fun w => redis w !! k)) (on_redis c).
Proof.
  intros Hc w w' r. unfold on_redis. specialize (Hc (redis w)).
  destruct (c (redis w)) as [d r']. intros [= <- _]. unfold same. by destruct w.
Qed.

Lemma send_same {B} (f : World -> B) s data :
  (forall g w, f (set_wss_clients g w) = f w) ->
  respects (same f) (send s data).
Proof.
  intros Hf w w' r. unfold send.
  destruct (wss_clients w !! s) as [[[] out]|]; intros [= <- _]; unfold same; by rewrite ?Hf.
Qed.

Lemma publish_same {B} (f : World -> B) ch msg :
  (forall g w, f (set_published g w) = f w) ->
  respects (same f) (publish ch msg).
Proof. intros Hf w w' r [= <- _]. apply Hf. Qed.

Section Footprint.

Context (cfg : Config) {codec : JSON}.

Lemma parse_same {B} (f : World -> B) s : respects (same f) (parse s).
Proof. unfold parse. destruct (JSON_parse s); [apply respects_ret | apply respects_throw]; apply _. Qed.

Lemma loadHistory_same {B} (f : World -> B) now room :
  respects (same f) (loadHistory cfg now room).
Proof. intros w w' r Hl. apply loadHistory_state in Hl. by subst. Qed.

(** [pushHistory] writes under the room's history key and nowhere else. *)
Lemma pushHistory_key k now room msg :
  k <> historyKey room ->
  respects (same (fun w => redis w !! k)) (pushHistory cfg now room msg).
Proof.
  intros Hk. unfold pushHistory.
  repeat (apply respects_bind; [apply _| |intros ?]); try (apply respects_ret; apply _).
  - apply on_redis_key. intros d. by apply lPush_other.
  - apply on_redis_key. intros d. by apply lTrim_other.
  - apply on_redis_key. intros d. by apply expire_other.
Qed.

Lemma pushHistory_same {B} (f : World -> B) now room msg :
  (forall d w, f (set_redis (fun _ => d) w) = f w) ->
  respects (same f) (pushHistory cfg now room msg).
Proof.
  intros Hf. unfold pushHistory.
  repeat (apply respects_bind; [apply _| |intros ?]); try (apply respects_ret; apply _);
    by apply on_redis_same.
Qed.

Lemma join_same {B} (f : World -> B) s room :
  (forall g w, f (set_clients g w) = f w) ->
  respects (same f) (join s room).
Proof.
  intros Hf w w' r. unfold join.
  destruct (clients w !! s) as [info|]; [|by intros [= <- _]].
  destruct (bool_decide _); intros [= <- _]; unfold same; by rewrite ?Hf.
Qed.

(** The frame after the rate check: the store changes under history
    keys only. *)
Lemma process_key k s data now uuid :
  (forall room, k <> historyKey room) ->
  respects (same (fun w => redis w !! k)) (process cfg s data now uuid).
Proof.
  intros Hk. unfold process.
  destruct (JSON_parse data) as [payload|].
  - destruct (safeParse payload) as [[room text username]|].
    + apply respects_bind; [apply _ | by apply join_same | intros _].
      apply respects_bind; [apply _ | by apply pushHistory_key | intros _].
      apply respects_bind; [apply _ | by apply publish_same | intros _].
      apply respects_ret; apply _.
    + apply respects_bind; [apply _| |intros ?]; [|apply respects_ret; apply _].
      by apply send_same.
  - apply respects_bind; [apply _| |intros ?]; [|apply respects_ret; apply _].
    by apply send_same.
Qed.

End Footprint.

(** ** The rate limiter *)

(** The counter of an address in the bucket of [now], as a command at
    time [now] sees it; a key that is absent counts for 0. *)
Definition counter (now : Z) (a : string) (w : World) : Z :=
  match Redis.get now (rateKey a now) (redis w) with
  | Some (Redis.mk (Redis.Int n) _) => n
  | _ => 0
  end.

Definition holds_list (now : Z) (k : string) (w : World) : Prop :=
  exists l e, Redis.get now k (redis w) = Some (Redis.mk (Redis.List l) e).

(** The store after the first two commands of the ["message"] handler:
    the counter is one up, and expires 60 s from now if it is now 1. *)
Definition tick (now : Z) (k : string) (d : gmap string Redis.entry)
  : gmap string Redis.entry :=
  match Redis.get now k d with
  | Some (Redis.mk (Redis.Int n) e) =>
      <[k := Redis.mk (Redis.Int (n + 1)) (if n + 1 =? 1 then Some (now + 60 * 1000) else e)]> d
  | _ => <[k := Redis.mk (Redis.Int 1) (Some (now + 60 * 1000))]> d
  end.

Definition rate_notice : ServerEvent := EvSystem "Rate limit exceeded. Try again soon.".

Lemma tick_other now k d k' : k' <> k -> tick now k d !! k' = d !! k'.
Proof.
  intros Hne. unfold tick.
  destruct (Redis.get now k d) as [[[n|l] e]|]; by rewrite lookup_insert_ne.
Qed.

Lemma send_open s data w sock :
  wss_clients w !! s = Some sock -> readyState sock = OPEN ->
  send s data w =
    (set_wss_clients (insert s (mkSocket OPEN (sent sock ++ [data]))) w, Ret tt).
Proof. intros Hs Ho. unfold send. by rewrite Hs, Ho. Qed.

Section RateLimiter.

Context (cfg : Config) {codec : JSON}.

Let L := RATE_LIMIT_PER_MIN cfg.

(** The handler is the rate check followed, for a frame within the
    limit, by the rest of the handler on the store with the counter
    already stepped. *)
Lemma onMessage_unfold s a data now uuid w :
  ~ holds_list now (rateKey a now) w ->
  onMessage cfg s a data now uuid w =
    (if L <? counter now a w + 1
     then (_ <- send s (stringify_event rate_notice) ; ret RateLimited)
     else process cfg s data now uuid)
      (set_redis (tick now (rateKey a now)) w).
Proof.
  intros Hty. unfold onMessage, counter, tick, holds_list in *. fold L.
  unfold bind at 1. unfold incr, on_redis, Redis.incr.
  destruct w as [d p m c li n]; unfold set_redis; simpl in *.
  destruct (Redis.get now (rateKey a now) d) as [[[x|l] e]|] eqn:Hget.
  - apply get_live in Hget as [_ Hlive].
    unfold bind at 1. unfold set_redis; simpl.
    destruct (Z.eqb_spec (x + 1) 1) as [H1|H1].
    + unfold expire, on_redis, Redis.expire; simpl. rewrite get_insert_eq.
      change (Redis.live now (Redis.mk (Redis.Int (x + 1)) e))
        with (Redis.live now (Redis.mk (Redis.Int x) e)). rewrite Hlive. simpl.
      unfold set_redis; simpl. by rewrite insert_insert_eq.
    + done.
  - exfalso. apply Hty. eauto.
  - unfold bind at 1. unfold set_redis; simpl.
    unfold expire, on_redis, Redis.expire; simpl. rewrite get_insert_eq. simpl.
    unfold set_redis; simpl. by rewrite insert_insert_eq.
Qed.

Lemma counter_tick now a w :
  ~ holds_list now (rateKey a now) w ->
  counter now a (set_redis (tick now (rateKey a now)) w) = counter now a w + 1.
Proof.
  intros Hty. unfold counter, tick, holds_list in *.
  destruct w as [d p m c li n]; unfold set_redis; simpl in *.
  destruct (Redis.get now (rateKey a now) d) as [[[x|l] e]|] eqn:Hget.
  - apply get_live in Hget as [_ Hlive]. rewrite get_insert_eq.
    destruct (Z.eqb_spec (x + 1) 1) as [H1|H1].
    + unfold Redis.live; simpl.
      by destruct (Z.leb_spec now (now + 60 * 1000)); [|lia].
    + change (Redis.live now (Redis.mk (Redis.Int (x + 1)) e))
        with (Redis.live now (Redis.mk (Redis.Int x) e)). by rewrite Hlive.
  - exfalso. apply Hty. eauto.
  - rewrite get_insert_eq. unfold Redis.live; simpl.
    by destruct (Z.leb_spec now (now + 60 * 1000)); [|lia].
Qed.

(** *** The counters along a run *)

(** The value stored under the rate key of address [a] for the bucket
    of [t], expired or not. *)
Definition raw_count (a : string) (t : Z) (d : gmap string Redis.entry) : Z :=
  match d !! rateKey a t with
  | Some (Redis.mk (Redis.Int n) _) => n
  | _ => 0
  end.

(** Every rate key holds a positive counter that outlives its bucket. *)
Definition rate_ok (d : gmap string Redis.entry) : Prop :=
  forall a t,
    match d !! rateKey a t with
    | None => True
    | Some (Redis.mk (Redis.Int n) (Some x)) =>
        1 <= n /\ (minuteBucket t + 1) * 60000 <= x
    | Some _ => False
    end.

Lemma bucket_bounds now :
  minuteBucket now * 60000 <= now < (minuteBucket now + 1) * 60000.
Proof.
  unfold minuteBucket.
  pose proof (Z.mul_div_le now 60000). pose proof (Z.mul_succ_div_gt now 60000). lia.
Qed.

Lemma rateKey_bucket a t t' : minuteBucket t = minuteBucket t' -> rateKey a t = rateKey a t'.
Proof. unfold rateKey. by intros ->. Qed.

Lemma rate_ok_get d a now :
  rate_ok d -> Redis.get now (rateKey a now) d = d !! rateKey a now.
Proof.
  intros Hok. specialize (Hok a now). unfold Redis.get.
  destruct (d !! rateKey a now) as [[[n|l] [x|]]|]; try done.
  destruct Hok as [_ Hx]. pose proof (bucket_bounds now).
  unfold Redis.live; simpl. by destruct (Z.leb_spec now x); [|lia].
Qed.

Lemma rate_ok_no_list w a now : rate_ok (redis w) -> ~ holds_list now (rateKey a now) w.
Proof.
  intros Hok (l & e & Hget). rewrite rate_ok_get in Hget by done.
  specialize (Hok a now). by rewrite Hget in Hok.
Qed.

Lemma rate_ok_counter w a now :
  rate_ok (redis w) -> counter now a w = raw_count a now (redis w).
Proof. intros Hok. unfold counter, raw_count. by rewrite rate_ok_get. Qed.

Lemma tick_rate_ok d a now : rate_ok d -> rate_ok (tick now (rateKey a now) d).
Proof.
  intros Hok a' t'.
  destruct (decide (rateKey a' t' = rateKey a now)) as [Heq|Hne].
  - rewrite Heq. apply rateKey_inj in Heq as [-> Hb].
    pose proof (bucket_bounds now). unfold tick. rewrite rate_ok_get by done.
    specialize (Hok a now).
    destruct (d !! rateKey a now) as [[[n|l] [x|]]|]; try done;
      rewrite lookup_insert_eq; rewrite Hb.
    + destruct Hok as [Hn Hx]. destruct (Z.eqb_spec (n + 1) 1); lia.
    + lia.
  - rewrite tick_other by done. apply Hok.
Qed.

Lemma tick_raw_count d a now a' t' :
  rate_ok d ->
  raw_count a' t' (tick now (rateKey a now) d) =
    raw_count a' t' d
    + (if bool_decide (a = a' /\ minuteBucket now = minuteBucket t') then 1 else 0).
Proof.
  intros Hok. unfold raw_count.
  destruct (decide (rateKey a' t' = rateKey a now)) as [Heq|Hne].
  - rewrite Heq. apply rateKey_inj in Heq as [-> Hb].
    rewrite bool_decide_eq_true_2 by done.
    unfold tick. rewrite rate_ok_get by done. specialize (Hok a now).
    destruct (d !! rateKey a now) as [[[n|l] [x|]]|]; try done;
      by rewrite lookup_insert_eq.
  - rewrite tick_other by done.
    rewrite bool_decide_eq_false_2; [lia|].
    intros [-> Hb]. apply Hne. by apply rateKey_bucket.
Qed.

(** The rate keys of two states agree. *)
Definition rate_keys_same (w w' : World) : Prop :=
  forall a t, redis w' !! rateKey a t = redis w !! rateKey a t.

Lemma rate_keys_same_ok w w' :
  rate_keys_same w w' -> rate_ok (redis w) -> rate_ok (redis w').
Proof. intros Hs Hok a t. rewrite Hs. apply Hok. Qed.

Lemma rate_keys_same_count w w' a t :
  rate_keys_same w w' -> raw_count a t (redis w') = raw_count a t (redis w).
Proof. intros Hs. unfold raw_count. by rewrite Hs. Qed.

(** Only frames write to the store. *)
Lemma deliver_same_redis room payload s : respects (same redis) (deliver room payload s).
Proof. intros w w' r. rewrite deliver_spec. by intros [= <- _]. Qed.

Lemma onBusMessage_same_redis message ch : respects (same redis) (onBusMessage message ch).
Proof.
  unfold onBusMessage. apply respects_bind; [apply _ | apply parse_same | intros v].
  intros w w' r. apply respects_forEach; try apply _. apply deliver_same_redis.
Qed.

Lemma onConnection_same_redis s f ra now :
  respects (same redis) (onConnection cfg s f ra now).
Proof.
  unfold onConnection.
  apply respects_bind; [apply _ | by intros w w' r [= <- _] | intros _].
  apply respects_bind; [apply _ | apply loadHistory_same | intros h].
  apply respects_bind; [apply _ | by apply send_same | intros _].
  apply respects_bind; [apply _ | by apply send_same | intros _].
  by intros w w' r [= <- _].
Qed.

Lemma step_same_redis ev :
  (forall s data now uuid, ev <> Frame s data now uuid) ->
  respects (same redis) (step cfg ev).
Proof.
  intros Hev. destruct ev as [f ra now|s data now uuid|s|s|ch message]; simpl.
  - apply respects_bind; [apply _ | by intros w w' r [= <- _] | intros s].
    apply onConnection_same_redis.
  - by edestruct Hev.
  - intros w w' r. unfold closing.
    destruct (wss_clients w !! s) as [[[] out]|]; by intros [= <- _].
  - intros w w' r. unfold closed, bind, onClose.
    destruct (bool_decide _); by intros [= <- _].
  - destruct (matches_pattern ch); [apply onBusMessage_same_redis|].
    apply respects_ret; apply _.
Qed.

(** A frame steps the counter of its address and bucket, and writes
    under history keys besides. *)
Lemma onMessage_rate_keys s a data now uuid w w' r k :
  rate_ok (redis w) ->
  (forall room, k <> historyKey room) ->
  onMessage cfg s a data now uuid w = (w', r) ->
  redis w' !! k = tick now (rateKey a now) (redis w) !! k.
Proof.
  intros Hok Hk. rewrite onMessage_unfold by by apply rate_ok_no_list.
  set (w1 := set_redis _ w).
  change (tick now (rateKey a now) (redis w)) with (redis w1).
  destruct (L <? counter now a w + 1).
  - intros Hrun.
    assert (same redis w1 w') as ->; [|done].
    revert Hrun. apply respects_bind; [apply _ | by apply send_same | intros _].
    apply respects_ret; apply _.
  - by apply (process_key cfg k s data now uuid Hk).
Qed.

Lemma step_rate ev w w' r :
  rate_ok (redis w) ->
  step cfg ev w = (w', r) ->
  rate_ok (redis w') /\
  forall a t, raw_count a t (redis w') = raw_count a t (redis w) + hit a (minuteBucket t) w ev.
Proof.
  intros Hok Hstep.
  assert (same redis w w' -> (forall a b, hit a b w ev = 0) ->
          rate_ok (redis w') /\
          forall a t, raw_count a t (redis w')
                      = raw_count a t (redis w) + hit a (minuteBucket t) w ev) as Hquiet.
  { intros Hsame Hz. split.
    - intros a t. rewrite Hsame. apply Hok.
    - intros a t. rewrite Hz. unfold raw_count. rewrite Hsame. lia. }
  destruct ev as [f ra now|s data now uuid|s|s|ch message];
    try (apply Hquiet; [eapply step_same_redis; [|exact Hstep]; done | done]).
  simpl in Hstep. destruct (frame_target w s) as [info|] eqn:Hinfo.
  - destruct (onMessage cfg s (ip info) data now uuid w) as [w1 r1] eqn:Hmsg.
    assert (w' = w1) as ->.
    { unfold bind in Hstep. rewrite Hmsg in Hstep. unfold ret in Hstep.
      destruct r1; by injection Hstep as <-. }
    assert (forall a t, redis w1 !! rateKey a t
                        = tick now (rateKey (ip info) now) (redis w) !! rateKey a t) as Hk.
    { intros a t. eapply onMessage_rate_keys; [done| |done].
      intros room. apply rateKey_historyKey. }
    split.
    + intros a t. rewrite Hk. by apply tick_rate_ok.
    + intros a t. unfold raw_count at 1. rewrite Hk.
      fold (raw_count a t (tick now (rateKey (ip info) now) (redis w))).
      rewrite tick_raw_count by done. simpl. by rewrite Hinfo.
  - apply Hquiet.
    + by injection Hstep as <-.
    + intros a b. simpl. by rewrite Hinfo.
Qed.

(** Along a run, a counter counts the frames of its address and bucket. *)
Lemma run_rate evs : forall w w',
  rate_ok (redis w) ->
  run cfg evs w = (w', Ret tt) ->
  rate_ok (redis w') /\
  forall a t,
    raw_count a t (redis w') = raw_count a t (redis w) + frames_from cfg a (minuteBucket t) w evs.
Proof.
  induction evs as [|ev evs IH]; intros w w' Hok Hrun.
  - injection Hrun as <-. split; [done|]. intros a t. simpl. lia.
  - unfold run in Hrun. simpl in Hrun. unfold bind in Hrun.
    destruct (step cfg ev w) as [w1 [[]|e]] eqn:Hstep; [|done].
    destruct (step_rate ev w w1 _ Hok Hstep) as [Hok1 Hc1].
    destruct (IH w1 w' Hok1 Hrun) as [Hok' Hc'].
    split; [done|]. intros a t. rewrite Hc', Hc1. simpl. rewrite Hstep. lia.
Qed.

Lemma rate_ok_init : rate_ok (redis init).
Proof. intros a t. simpl. by rewrite lookup_empty. Qed.

Lemma frame_target_open w s info :
  frame_target w s = Some info ->
  exists sock, wss_clients w !! s = Some sock /\ readyState sock = OPEN.
Proof.
  unfold frame_target, is_open.
  destruct (bool_decide (s ∈ listening w)); [|done]. simpl.
  destruct (wss_clients w !! s) as [sock|]; [|done].
  destruct (bool_decide (readyState sock = OPEN)) eqn:Ho; [|done].
  apply bool_decide_eq_true in Ho. eauto.
Qed.

Lemma reject_open s w sock :
  wss_clients w !! s = Some sock -> readyState sock = OPEN ->
  (_ <- send s (stringify_event rate_notice) ; ret RateLimited) w =
    (set_wss_clients
       (insert s (mkSocket OPEN (sent sock ++ [stringify_event rate_notice]))) w,
     Ret RateLimited).
Proof. intros Hs Ho. unfold bind. by rewrite (send_open _ _ _ sock). Qed.

(** C1. After a run from start-up, take a frame that reaches the
    handler of a socket at address [a] while the clock is [now]; let it
    be the [k]-th frame of [a] in the minute bucket of [now] that the
    run has seen. The counter it reads is [k]. If [k] is at most the
    limit, the frame passes the rate check and goes on to parsing, with
    a counter at most the limit. If [k] exceeds the limit - first so at
    limit + 1 - the sender is sent the rate notice and the handler
    returns there. The first frame of a bucket reads 1, and passes for
    a limit of at least 1. *)
Theorem rate_limit_per_bucket
    (evs : list event) (w : World) (s : nat) (info : ClientInfo)
    (data : string) (now : Z) (uuid : string) :
  run cfg evs init = (w, Ret tt) ->
  frame_target w s = Some info ->
  let a := ip info in
  let limit := RATE_LIMIT_PER_MIN cfg in
  let k := frames_from cfg a (minuteBucket now) init evs + 1 in
  let w1 := set_redis (tick now (rateKey a now)) w in
  counter now a w1 = k /\
  (k <= limit ->
     onMessage cfg s a data now uuid w = process cfg s data now uuid w1) /\
  (limit < k ->
     exists sock,
       wss_clients w !! s = Some sock /\
       onMessage cfg s a data now uuid w =
         (set_wss_clients
            (insert s (mkSocket OPEN (sent sock ++ [stringify_event rate_notice]))) w1,
          Ret RateLimited)) /\
  (k = 1 -> 1 <= limit ->
     counter now a w1 = 1 /\
     onMessage cfg s a data now uuid w = process cfg s data now uuid w1).
Proof.
  intros Hrun Htarget a limit k w1.
  destruct (run_rate evs init w rate_ok_init Hrun) as [Hok Hcount].
  pose proof (rate_ok_no_list w a now Hok) as Hty.
  assert (counter now a w + 1 = k) as Hk.
  { rewrite rate_ok_counter by done. rewrite Hcount. unfold raw_count. simpl.
    by rewrite lookup_empty. }
  assert (counter now a w1 = k) as Hk1 by (unfold w1; by rewrite counter_tick).
  assert (k <= limit ->
          onMessage cfg s a data now uuid w = process cfg s data now uuid w1) as Hpass.
  { intros Hle. rewrite onMessage_unfold by done. rewrite Hk.
    by destruct (Z.ltb_spec L k); [unfold L, limit in *; lia|]. }
  split; [done|]. split; [done|]. split.
  - intros Hgt. destruct (frame_target_open w s info Htarget) as (sock & Hs & Ho).
    exists sock. split; [done|].
    rewrite onMessage_unfold by done. rewrite Hk.
    destruct (Z.ltb_spec L k); [|unfold L, limit in *; lia]. by apply reject_open.
  - intros H1 HL. split; [congruence|]. apply Hpass. lia.
Qed.

(** C10. A frame that reaches the handler steps the counter of its
    address and bucket by one whatever it holds and however the handler
    ends: the handler is the step of the counter followed by the rate
    check and, only then, by parsing and validation on the stepped
    store. So the counter equals the number of frames seen, valid or
    not, and once that number has reached the limit every further frame
    of the address in the bucket is turned down, a valid one too. *)
Theorem rate_counted_before_validation
    (evs : list event) (w : World) (s : nat) (info : ClientInfo) (now : Z) (uuid : string) :
  run cfg evs init = (w, Ret tt) ->
  frame_target w s = Some info ->
  let a := ip info in
  let limit := RATE_LIMIT_PER_MIN cfg in
  let w1 := set_redis (tick now (rateKey a now)) w in
  counter now a w = frames_from cfg a (minuteBucket now) init evs /\
  (forall data,
      onMessage cfg s a data now uuid w =
        (if limit <? counter now a w + 1
         then (_ <- send s (stringify_event rate_notice) ; ret RateLimited)
         else process cfg s data now uuid) w1) /\
  (forall data w' r,
      onMessage cfg s a data now uuid w = (w', r) ->
      counter now a w' = counter now a w + 1) /\
  (forall data,
      limit <= frames_from cfg a (minuteBucket now) init evs ->
      exists w', onMessage cfg s a data now uuid w = (w', Ret RateLimited)).
Proof.
  intros Hrun Htarget a limit w1.
  destruct (run_rate evs init w rate_ok_init Hrun) as [Hok Hcount].
  pose proof (rate_ok_no_list w a now Hok) as Hty.
  assert (counter now a w = frames_from cfg a (minuteBucket now) init evs) as Hc.
  { rewrite rate_ok_counter by done. rewrite Hcount. unfold raw_count. simpl.
    by rewrite lookup_empty. }
  split; [done|]. split; [|split].
  - intros data. by apply onMessage_unfold.
  - intros data w' r Hmsg.
    rewrite <- (counter_tick now a w) by done.
    unfold counter, Redis.get.
    erewrite (onMessage_rate_keys s a data now uuid w w' r); [done|done| |done].
    intros room. apply rateKey_historyKey.
  - intros data Hfull. destruct (frame_target_open w s info Htarget) as (sock & Hs & Ho).
    eexists. rewrite onMessage_unfold by done. rewrite Hc.
    destruct (Z.ltb_spec L (frames_from cfg a (minuteBucket now) init evs + 1));
      [|unfold L, limit in *; lia].
    by apply reject_open.
Qed.

End RateLimiter.

(** ** Frames that are turned down, frames that are accepted *)

(** The text of the notice for each way of turning a frame down. *)
Definition notice_of (o : outcome) : string :=
  match o with
  | RateLimited => "Rate limit exceeded. Try again soon."
  | InvalidJSON => "Invalid JSON"
  | InvalidShape => "Invalid message shape"
  | Accepted _ => ""
  end.

Section Frames.

Context (cfg : Config) {codec : JSON}.

(** Whether, and why, a frame is turned down when the counter of its
    address stands at [c] before it. *)
Definition rejection (c : Z) (data : string) : option outcome :=
  if RATE_LIMIT_PER_MIN cfg <? c + 1 then Some RateLimited
  else match JSON_parse data with
       | None => Some InvalidJSON
       | Some payload =>
           match safeParse payload with
           | None => Some InvalidShape
           | Some _ => None
           end
       end.

(** C5, as the code has it. A frame that is turned down - by the rate
    check, as not being JSON, or by the schema - on an open socket:
    the handler returns normally; nothing is appended to any history and
    nothing is published; the store changes under the rate key of the
    sender's address and bucket only, whose counter is stepped; the
    socket of the sender is sent one system notice that names the
    failure and stays open; no other socket is sent anything, and the
    sessions are as before. *)
Theorem rejected_frame_effects
    (w : World) (s : nat) (sock : WebSocket) (a data : string) (now : Z) (uuid : string)
    (out : outcome) :
  wss_clients w !! s = Some sock ->
  readyState sock = OPEN ->
  ~ holds_list now (rateKey a now) w ->
  rejection (counter now a w) data = Some out ->
  let d1 := tick now (rateKey a now) (redis w) in
  let notice := stringify_event (EvSystem (notice_of out)) in
  onMessage cfg s a data now uuid w =
    (mkWorld d1 (published w)
             (<[s := mkSocket OPEN (sent sock ++ [notice])]> (wss_clients w))
             (clients w) (listening w) (next_ws w),
     Ret out) /\
  (forall k, k <> rateKey a now -> d1 !! k = redis w !! k) /\
  (forall room, d1 !! historyKey room = redis w !! historyKey room) /\
  counter now a (set_redis (fun _ => d1) w) = counter now a w + 1.
Proof.
  intros Hs Ho Hty Hrej d1 notice.
  split; [|split; [|split]].
  - rewrite onMessage_unfold by done. unfold rejection in Hrej.
    set (w1 := set_redis _ w).
    assert (wss_clients w1 !! s = Some sock) as Hs1 by done.
    destruct (RATE_LIMIT_PER_MIN cfg <? counter now a w + 1).
    + injection Hrej as <-. unfold bind. rewrite (send_open _ _ _ sock) by done.
      by destruct w.
    + unfold process. destruct (JSON_parse data) as [payload|].
      * destruct (safeParse payload) as [cm|]; [done|]. injection Hrej as <-.
        unfold bind. rewrite (send_open _ _ _ sock) by done. by destruct w.
      * injection Hrej as <-.
        unfold bind. rewrite (send_open _ _ _ sock) by done. by destruct w.
  - intros k Hk. by apply tick_other.
  - intros room. apply tick_other. intros Heq. symmetry in Heq.
    by apply rateKey_historyKey in Heq.
  - by apply counter_tick.
Qed.

(** *** The message built from an accepted frame *)

Lemma trimEnd_length s : (String.length (Str.trimEnd s) <= String.length s)%nat.
Proof.
  induction s as [|c s IH]; simpl; [done|].
  destruct (Str.trimEnd s) as [|c' r]; [destruct (Str.is_space c)|]; simpl in *; lia.
Qed.

Lemma trimStart_length s : (String.length (Str.trimStart s) <= String.length s)%nat.
Proof.
  induction s as [|c s IH]; simpl; [done|].
  destruct (Str.is_space c); simpl; lia.
Qed.

Lemma trim_length s : Str.length (Str.trim s) <= Str.length s.
Proof.
  unfold Str.length, Str.trim.
  pose proof (trimEnd_length (Str.trimStart s)). pose proof (trimStart_length s). lia.
Qed.

Lemma trim_spaces s : Str.all_chars Str.is_space s = true -> Str.trim s = "".
Proof.
  unfold Str.trim. induction s as [|c s IH]; simpl; [done|].
  intros [Hc Hs]%andb_prop. rewrite Hc. by apply IH.
Qed.

Lemma str_min_max_bounds lo hi v s :
  str_min_max lo hi v = Some s -> v = Some (JStr s) /\ lo <= Str.length s <= hi.
Proof.
  unfold str_min_max, str_min. destruct v as [[| | |s'| |]|]; try done.
  destruct (Z.leb_spec lo (Str.length s')); [|done].
  destruct (Z.leb_spec (Str.length s') hi); [|done].
  intros [= <-]. split; [done|lia].
Qed.

Lemma safeParse_bounds payload cm :
  safeParse payload = Some cm ->
  1 <= Str.length (ClientMessage.text cm) <= 2000 /\
  1 <= Str.length (ClientMessage.username cm) <= 40.
Proof.
  unfold safeParse. destruct payload as [| | | | |fields]; try done.
  destruct (json_get "type" fields) as [[| | |tag| |]|]; try done.
  destruct (String.eqb tag "message"); [|done].
  destruct (str_min 1 (json_get "room" fields)) as [room|]; [|done].
  destruct (str_min_max 1 2000 (json_get "text" fields)) as [text|] eqn:Ht; [|done].
  destruct (str_min_max 1 40 (json_get "username" fields)) as [username|] eqn:Hu; [|done].
  intros [= <-]. simpl.
  apply str_min_max_bounds in Ht as [_ Ht]. by apply str_min_max_bounds in Hu as [_ Hu].
Qed.

(** What the handler builds from a frame that passes validation: the
    drawn identifier, the clock reading, and the text and user name of
    the frame with the white space at both ends removed, which leaves
    at most 2000 and at most 40 characters. *)
Lemma accepted_message s data now uuid w w' payload cm msg :
  JSON_parse data = Some payload ->
  safeParse payload = Some cm ->
  process cfg s data now uuid w = (w', Ret (Accepted msg)) ->
  msg = ChatMessage.mk uuid (ClientMessage.room cm)
          (Str.trim (ClientMessage.text cm)) (Str.trim (ClientMessage.username cm)) now /\
  Str.length (ChatMessage.text msg) <= 2000 /\
  Str.length (ChatMessage.username msg) <= 40.
Proof.
  intros Hp Hs. unfold process. rewrite Hp, Hs. destruct cm as [room text username].
  unfold bind, ret.
  destruct (join s room w) as [w1 [[]|e1]]; [|done].
  destruct (pushHistory cfg now room _ w1) as [w2 [[]|e2]]; [|done].
  destruct (publish _ _ w2) as [w3 [[]|e3]]; [|done].
  intros [= _ <-]. split; [done|]. simpl.
  apply safeParse_bounds in Hs as [Ht Hu]. simpl in *.
  pose proof (trim_length text). pose proof (trim_length username). lia.
Qed.

End Frames.

(** ** Sessions *)

Lemma respects_weaken {A} (R R' : World -> World -> Prop) (m : M A) :
  (forall w w', R w w' -> R' w w') -> respects R m -> respects R' m.
Proof. intros HR Hm w w' r Hrun. apply HR. by eapply Hm. Qed.

Section Sessions.

Context (cfg : Config) {codec : JSON}.

(** *** On connect *)

(** The session of a new socket is in [clients] from the first step of
    the handler on, however the handler ends. What the socket is sent
    is stated further down, for the handler in its two parts. *)
Lemma onConnection_clients s f ra now w w' r :
  onConnection cfg s f ra now w = (w', r) ->
  clients w' = <[s := mkInfo s {[ DEFAULT_ROOM cfg ]} (client_ip f ra)]> (clients w) /\
  next_ws w' = next_ws w.
Proof.
  unfold onConnection. unfold bind at 1.
  set (w1 := set_clients _ w). intros Hrun.
  assert (same (fun w => (clients w, next_ws w)) w1 w') as Hsame.
  { revert Hrun.
    apply respects_bind; [apply _ | apply loadHistory_same | intros h].
    apply respects_bind; [apply _ | by apply send_same | intros _].
    apply respects_bind; [apply _ | by apply send_same | intros _].
    by intros w2 w3 r3 [= <- _]. }
  by injection Hsame as -> ->.
Qed.

(** *** Rooms *)

(** Every session has the default room, and sockets are named below
    [next_ws]. *)
Definition sess_ok (w : World) : Prop :=
  forall s info,
    clients w !! s = Some info -> DEFAULT_ROOM cfg ∈ rooms info /\ (s < next_ws w)%nat.

(** From [w] to [w'] no socket name is given up, a session that is gone
    stays gone, and a session that is kept has kept its rooms. *)
Definition sess_grow (w w' : World) : Prop :=
  (next_ws w <= next_ws w')%nat /\
  (forall s, (s < next_ws w)%nat -> clients w !! s = None -> clients w' !! s = None) /\
  (forall s info info',
      clients w !! s = Some info -> clients w' !! s = Some info' ->
      rooms info ⊆ rooms info').

Lemma sess_grow_refl w : sess_grow w w.
Proof.
  split; [done|]. split; [done|].
  intros s info info' H1 H2. by assert (info = info') as -> by congruence.
Qed.

Lemma sess_grow_trans w1 w2 w3 :
  sess_ok w1 -> sess_grow w1 w2 -> sess_grow w2 w3 -> sess_grow w1 w3.
Proof.
  intros Hok1 (Hn12 & Hgone12 & Hkeep12) (Hn23 & Hgone23 & Hkeep23).
  split; [lia|]. split.
  - intros s Hs Hnone. apply Hgone23; [lia|]. by apply Hgone12.
  - intros s info info' H1 H3.
    destruct (clients w2 !! s) as [info2|] eqn:H2.
    + etrans; [by eapply Hkeep12 | by eapply Hkeep23].
    + destruct (Hok1 s info H1) as [_ Hlt].
      rewrite Hgone23 in H3; [done|lia|done].
Qed.

(** What every handler but the one of ["close"] does to the sessions:
    the invariant is kept, rooms are kept, and no session is lost. *)
Definition sess_step (w w' : World) : Prop :=
  sess_ok w ->
  sess_ok w' /\ sess_grow w w' /\
  (forall s, is_Some (clients w !! s) -> is_Some (clients w' !! s)).

#[local] Instance sess_step_refl : Reflexive sess_step.
Proof. intros w Hok. split; [done|]. split; [apply sess_grow_refl|done]. Qed.

#[local] Instance sess_step_trans : Transitive sess_step.
Proof.
  intros w1 w2 w3 H12 H23 Hok1.
  destruct (H12 Hok1) as (Hok2 & Hg12 & Hk12).
  destruct (H23 Hok2) as (Hok3 & Hg23 & Hk23).
  split; [done|]. split; [by eapply sess_grow_trans|]. auto.
Qed.

Lemma same_sess_step w w' :
  same (fun w => (clients w, next_ws w)) w w' -> sess_step w w'.
Proof.
  intros [= Hc Hn] Hok. split; [|split].
  - intros s info. rewrite Hc, Hn. apply Hok.
  - split; [lia|]. split.
    + intros s _. by rewrite Hc.
    + intros s info info'. rewrite Hc. intros H1 H2.
      by assert (info = info') as -> by congruence.
  - intros s. by rewrite Hc.
Qed.

Lemma join_sess_step s room : respects sess_step (join s room).
Proof.
  intros w w' r. unfold join.
  destruct (clients w !! s) as [info|] eqn:Hs; [|by intros [= <- _]].
  destruct (bool_decide (room ∈ rooms info)); intros [= <- _]; [done|].
  intros Hok. split; [|split].
  - intros s' info'. simpl. destruct (decide (s' = s)) as [->|Hne].
    + rewrite lookup_insert_eq. intros [= <-]. simpl.
      destruct (Hok s info Hs) as [Hd Hlt]. split; [set_solver|done].
    + rewrite lookup_insert_ne by done. apply Hok.
  - split; [done|]. split.
    + intros s' _. simpl. destruct (decide (s' = s)) as [->|Hne]; [congruence|].
      by rewrite lookup_insert_ne.
    + intros s' i i'. simpl. destruct (decide (s' = s)) as [->|Hne].
      * rewrite lookup_insert_eq, Hs. intros [= <-] [= <-]. simpl. set_solver.
      * rewrite lookup_insert_ne by done. intros H1 H2.
        by assert (i = i') as -> by congruence.
  - intros s'. simpl. destruct (decide (s' = s)) as [->|Hne].
    + by rewrite lookup_insert_eq.
    + by rewrite lookup_insert_ne.
Qed.

Lemma quiet_sess_step {A} (m : M A) :
  respects (same (fun w => (clients w, next_ws w))) m -> respects sess_step m.
Proof. apply respects_weaken, same_sess_step. Qed.

Lemma onMessage_sess_step s a data now uuid :
  respects sess_step (onMessage cfg s a data now uuid).
Proof.
  unfold onMessage.
  apply respects_bind; [apply _ | apply quiet_sess_step; by apply on_redis_same | intros c].
  apply respects_bind; [apply _ | | intros _].
  { destruct (c =? 1); apply quiet_sess_step;
      [by apply on_redis_same | apply respects_ret; apply _]. }
  destruct (RATE_LIMIT_PER_MIN cfg <? c).
  { apply respects_bind; [apply _ | apply quiet_sess_step; by apply send_same | intros _].
    apply respects_ret; apply _. }
  unfold process. destruct (JSON_parse data) as [payload|].
  - destruct (safeParse payload) as [[room text username]|].
    + apply respects_bind; [apply _ | apply join_sess_step | intros _].
      apply respects_bind;
        [apply _ | apply quiet_sess_step; by apply pushHistory_same | intros _].
      apply respects_bind;
        [apply _ | apply quiet_sess_step; by apply publish_same | intros _].
      apply respects_ret; apply _.
    + apply respects_bind; [apply _ | apply quiet_sess_step; by apply send_same | intros _].
      apply respects_ret; apply _.
  - apply respects_bind; [apply _ | apply quiet_sess_step; by apply send_same | intros _].
    apply respects_ret; apply _.
Qed.

Lemma onBusMessage_quiet message ch :
  respects (same (fun w => (clients w, next_ws w))) (onBusMessage message ch).
Proof.
  unfold onBusMessage. apply respects_bind; [apply _ | apply parse_same | intros v].
  intros w w' r. apply respects_forEach; try apply _.
  intros s w1 w2 r2. rewrite deliver_spec. by intros [= <- _].
Qed.

(** One event: the invariant is kept, rooms are kept, and only the
    closing of its socket ends a session. *)
Lemma step_sessions ev w w' r :
  sess_ok w ->
  step cfg ev w = (w', r) ->
  sess_ok w' /\ sess_grow w w' /\
  (forall s info, clients w !! s = Some info -> clients w' !! s = None -> ev = Close s).
Proof.
  intros Hok Hstep.
  assert (sess_step w w' ->
          sess_ok w' /\ sess_grow w w' /\
          (forall s info, clients w !! s = Some info -> clients w' !! s = None -> ev = Close s))
    as Hkept.
  { intros Hss. destruct (Hss Hok) as (Hok' & Hgrow & Hsome). split; [done|]. split; [done|].
    intros s info H1 H2. destruct (Hsome s) as [i Hi]; [by eexists|congruence]. }
  destruct ev as [f ra now|s data now uuid|s|s|ch message]; simpl in Hstep.
  - unfold bind at 1 in Hstep. unfold accept in Hstep.
    apply onConnection_clients in Hstep as [Hc Hn]. simpl in *.
    assert (clients w !! next_ws w = None) as Hfresh.
    { destruct (clients w !! next_ws w) as [i|] eqn:Hi; [|done].
      destruct (Hok _ _ Hi). lia. }
    split; [|split; [split; [|split]|]].
    + intros s info. rewrite Hc, Hn. destruct (decide (s = next_ws w)) as [->|Hne].
      * rewrite lookup_insert_eq. intros [= <-]. simpl. split; [set_solver|lia].
      * rewrite lookup_insert_ne by done. intros Hi. destruct (Hok _ _ Hi). split; [done|lia].
    + lia.
    + intros s Hlt Hnone. rewrite Hc. rewrite lookup_insert_ne by lia. done.
    + intros s info info' H1. rewrite Hc.
      rewrite lookup_insert_ne by (intros <-; congruence).
      intros H2. by assert (info = info') as -> by congruence.
    + intros s info H1. rewrite Hc.
      rewrite lookup_insert_ne by (intros <-; congruence). congruence.
  - destruct (frame_target w s) as [info|].
    + apply Hkept. revert Hstep.
      apply respects_bind; [apply _ | apply onMessage_sess_step | intros _].
      apply respects_ret; apply _.
    + injection Hstep as <-. apply Hkept. reflexivity.
  - assert (same (fun w => (clients w, next_ws w)) w w') as Hsame.
    { unfold closing in Hstep.
      destruct (wss_clients w !! s) as [[[] out]|]; by injection Hstep as <-. }
    apply Hkept. by apply same_sess_step.
  - unfold closed, bind, onClose in Hstep.
    assert (next_ws w' = next_ws w /\
            (clients w' = clients w \/ clients w' = delete s (clients w))) as [Hn Hc].
    { destruct (bool_decide (s ∈ listening w)); injection Hstep as <-; simpl; auto. }
    destruct Hc as [Hc|Hc].
    { apply Hkept. apply same_sess_step. unfold same. by rewrite Hc, Hn. }
    split; [|split; [split; [|split]|]].
    + intros s' info. rewrite Hc, Hn. intros Hi.
      apply lookup_delete_Some in Hi as [_ Hi]. by apply Hok.
    + lia.
    + intros s' _ Hnone. rewrite Hc. apply lookup_delete_None. by right.
    + intros s' info info' H1. rewrite Hc. intros [_ H2]%lookup_delete_Some.
      by assert (info = info') as -> by congruence.
    + intros s' info H1. rewrite Hc. intros [->|H2]%lookup_delete_None; [done|congruence].
  - assert (same (fun w => (clients w, next_ws w)) w w') as Hsame.
    { destruct (matches_pattern ch); [by eapply onBusMessage_quiet|].
      by injection Hstep as <-. }
    apply Hkept. by apply same_sess_step.
Qed.

Lemma sess_ok_init : sess_ok init.
Proof. intros s info. simpl. by rewrite lookup_empty. Qed.

Lemma run_sessions evs : forall w w' r,
  sess_ok w ->
  run cfg evs w = (w', r) ->
  sess_ok w' /\ sess_grow w w' /\
  (forall s info, clients w !! s = Some info -> clients w' !! s = None -> Close s ∈ evs).
Proof.
  induction evs as [|ev evs IH]; intros w w' r Hok Hrun.
  - injection Hrun as <- _. split; [done|]. split; [apply sess_grow_refl|]. congruence.
  - unfold run in Hrun. simpl in Hrun. unfold bind in Hrun.
    destruct (step cfg ev w) as [w1 r1] eqn:Hstep.
    destruct (step_sessions ev w w1 r1 Hok Hstep) as (Hok1 & Hg1 & Hc1).
    destruct r1 as [[]|e].
    + destruct (IH w1 w' r Hok1 Hrun) as (Hok' & Hg' & Hc').
      split; [done|]. split; [by eapply sess_grow_trans|].
      intros s info H1 H2. apply elem_of_cons.
      destruct (clients w1 !! s) as [i1|] eqn:Hi1.
      * right. by eapply Hc'.
      * left. symmetry. by eapply Hc1.
    + injection Hrun as <- _. split; [done|]. split; [done|].
      intros s info H1 H2. apply elem_of_cons. left. symmetry. by eapply Hc1.
Qed.

(** C9. In every state [w] that a run from start-up reaches, and in
    every state [w'] that any further events lead to, every session has
    the default room among its rooms; a session of [w] that is still
    there in [w'] has all the rooms it had; and a session of [w] is
    gone in [w'] only if the closing of its socket is among the events
    in between. *)
Theorem rooms_keep_default_and_grow
    (evs evs' : list event) (w w' : World) (r : res unit) :
  run cfg evs init = (w, Ret tt) ->
  run cfg evs' w = (w', r) ->
  (forall s info, clients w !! s = Some info -> DEFAULT_ROOM cfg ∈ rooms info) /\
  (forall s info', clients w' !! s = Some info' -> DEFAULT_ROOM cfg ∈ rooms info') /\
  (forall s info info',
      clients w !! s = Some info -> clients w' !! s = Some info' ->
      rooms info ⊆ rooms info') /\
  (forall s info,
      clients w !! s = Some info -> clients w' !! s = None -> Close s ∈ evs').
Proof.
  intros Hrun Hrun'.
  destruct (run_sessions evs init w _ sess_ok_init Hrun) as (Hok & _ & _).
  destruct (run_sessions evs' w w' r Hok Hrun') as (Hok' & (_ & _ & Hkeep) & Hgone).
  split; [|split; [|split]].
  - intros s info Hi. by destruct (Hok s info Hi).
  - intros s info Hi. by destruct (Hok' s info Hi).
  - done.
  - done.
Qed.

End Sessions.

(** * Further properties

    What the program does beyond the statements above: the names of
    keys and channels, the schema, the state of the store and of the
    log of publications along every run, the way from a frame to the
    sockets and to the history, the settings at their edges, the list
    of rooms, and the end of sockets and sessions; then new connections
    and closed sockets when other handlers run while a connection
    handler waits. *)

(** ** The store and the log along a run *)

(** The payloads published on the channel of [room], oldest first. *)
Definition publications (room : string) (log : list (string * string)) : list string :=
  omap (fun cm : string * string =>
          if bool_decide (cm.1 = channelFor room) then Some cm.2 else None) log.

(** No socket of [wss.clients] is still CONNECTING. *)
Definition no_connecting (w : World) : Prop :=
  forall s sock, wss_clients w !! s = Some sock -> readyState sock <> CONNECTING.

(** [P] is kept from one state to the other. *)
Definition keeps (P : World -> Prop) : World -> World -> Prop :=
  fun w w' => P w -> P w'.

#[global] Instance keeps_refl P : Reflexive (keeps P).
Proof. intros w H. exact H. Qed.

#[global] Instance keeps_trans P : Transitive (keeps P).
Proof. intros w1 w2 w3 H12 H23 H1. apply H23, H12, H1. Qed.

Lemma range_from_0_prefix {A} (l : list A) (stop : Z) :
  Redis.range l 0 stop `prefix_of` l.
Proof.
  unfold Redis.range. cbv zeta. simpl (0 <? 0). cbv iota.
  destruct (_ || _); [apply prefix_nil|].
  rewrite drop_0. apply prefix_take.
Qed.

Lemma publications_app room log log' :
  publications room (log ++ log') = publications room log ++ publications room log'.
Proof. unfold publications. by rewrite omap_app. Qed.

Lemma publications_cons room ch v log :
  publications room ((ch, v) :: log) =
    (if bool_decide (ch = channelFor room) then [v] else []) ++ publications room log.
Proof. unfold publications. simpl. by destruct (bool_decide _). Qed.

Lemma channelFor_inj r r' : channelFor r = channelFor r' -> r = r'.
Proof. unfold channelFor, CHANNEL_PREFIX. intros H. str_norm. by injection H. Qed.

Lemma matches_channelFor room : matches_pattern (channelFor room) = true.
Proof.
  unfold matches_pattern, channelFor, CHANNEL_PREFIX. str_norm. simpl. by destruct room.
Qed.

Lemma publications_snoc room log r v :
  publications room (log ++ [(channelFor r, v)]) =
    publications room log ++ (if bool_decide (r = room) then [v] else []).
Proof.
  rewrite publications_app. f_equal. unfold publications. simpl.
  destruct (decide (r = room)) as [->|Hne].
  - by rewrite !bool_decide_eq_true_2.
  - rewrite !bool_decide_eq_false_2; [done|done|].
    intros Heq. by apply channelFor_inj in Heq.
Qed.

(** *** Trimming *)

Lemma trimEnd_idem s : Str.trimEnd (Str.trimEnd s) = Str.trimEnd s.
Proof.
  induction s as [|c s IH]; simpl; [done|].
  destruct (Str.trimEnd s) as [|c' r] eqn:Hr.
  - destruct (Str.is_space c) eqn:Hc; simpl; [done|]. by rewrite Hc.
  - simpl in *. by rewrite IH.
Qed.

(** A string that does not begin with white space. *)
Definition starts_clean (s : string) : Prop :=
  match s with
  | EmptyString => True
  | String c _ => Str.is_space c = false
  end.

Lemma trimStart_clean s : starts_clean (Str.trimStart s).
Proof.
  induction s as [|c s IH]; simpl; [done|].
  destruct (Str.is_space c) eqn:Hc; [done|]. simpl. done.
Qed.

Lemma trimStart_id s : starts_clean s -> Str.trimStart s = s.
Proof. destruct s as [|c s]; simpl; [done|]. by intros ->. Qed.

Lemma trimEnd_clean s : starts_clean s -> starts_clean (Str.trimEnd s).
Proof.
  destruct s as [|c s]; simpl; [done|]. intros Hc.
  destruct (Str.trimEnd s); simpl; by rewrite ?Hc.
Qed.

Lemma trim_idem s : Str.trim (Str.trim s) = Str.trim s.
Proof.
  unfold Str.trim.
  rewrite (trimStart_id (Str.trimEnd _)) by apply trimEnd_clean, trimStart_clean.
  apply trimEnd_idem.
Qed.

(** A string that does not end with white space. *)
Fixpoint ends_clean (s : string) : Prop :=
  match s with
  | EmptyString => True
  | String c EmptyString => Str.is_space c = false
  | String _ s' => ends_clean s'
  end.

Lemma trimEnd_ends_clean s : ends_clean (Str.trimEnd s).
Proof.
  induction s as [|c s IH]; simpl; [done|].
  destruct (Str.trimEnd s) as [|c' r] eqn:Hr.
  - by destruct (Str.is_space c) eqn:Hc.
  - done.
Qed.

Lemma safeParse_room payload cm :
  safeParse payload = Some cm -> 1 <= Str.length (ClientMessage.room cm).
Proof.
  unfold safeParse. destruct payload as [| | | | |fields]; try done.
  destruct (json_get "type" fields) as [[| | |tag| |]|]; try done.
  destruct (String.eqb tag "message"); [|done].
  destruct (str_min 1 (json_get "room" fields)) as [room|] eqn:Hr; [|done].
  destruct (str_min_max 1 2000 (json_get "text" fields)) as [text|]; [|done].
  destruct (str_min_max 1 40 (json_get "username" fields)) as [username|]; [|done].
  intros [= <-]. simpl. unfold str_min in Hr.
  destruct (json_get "room" fields) as [[| | |s'| |]|]; try done.
  destruct (Z.leb_spec 1 (Str.length s')); [|done]. by injection Hr as <-.
Qed.

(** *** The keys of a pattern *)

(** A character that stands for itself in a pattern. *)
Definition plain (c : ascii) : bool :=
  negb ((N_of_ascii c =? 42)%N || (N_of_ascii c =? 63)%N || (N_of_ascii c =? 92)%N).

Lemma glob_star s : Redis.glob "*" s = true.
Proof. induction s as [|c s IH]; [done|]. simpl in *. by rewrite IH. Qed.

Lemma glob_plain c p s :
  plain c = true ->
  Redis.glob (String c p) s =
    match s with
    | EmptyString => false
    | String x s' => Ascii.eqb c x && Redis.glob p s'
    end.
Proof.
  unfold plain. intros Hc. apply negb_true_iff in Hc.
  apply orb_false_iff in Hc as [Hc H3]. apply orb_false_iff in Hc as [H1 H2].
  simpl. by rewrite H1, H2, H3.
Qed.

(** A pattern made of plain characters and a final [*] matches the
    names that begin with those characters. *)
Lemma glob_prefix p : forall s,
  Str.all_chars plain p = true ->
  Redis.glob (p +:+ "*") s = String.prefix p s.
Proof.
  induction p as [|c p IH]; intros s Hp.
  - rewrite str_app_nil, glob_star. by destruct s.
  - simpl in Hp. apply andb_prop in Hp as [Hc Hp].
    rewrite str_app_cons, glob_plain by done.
    destruct s as [|x s]; [done|]. simpl.
    destruct (Ascii.eqb_spec c x) as [->|Hne].
    + destruct (ascii_dec x x); [|done]. by apply IH.
    + by destruct (ascii_dec c x).
Qed.

Lemma omap_fst_sublist {A B} (p : A * B -> bool) (l : list (A * B)) :
  omap (fun ab => if p ab then Some ab.1 else None) l `sublist_of` l.*1.
Proof.
  induction l as [|ab l IH]; simpl; [done|].
  destruct (p ab); by constructor.
Qed.

Lemma keys_NoDup now pattern (d : gmap string Redis.entry) : NoDup (Redis.keys now pattern d).
Proof.
  unfold Redis.keys. apply (sublist_NoDup _ (map_to_list d).*1).
  - apply NoDup_fst_map_to_list.
  - apply (omap_fst_sublist (fun ke => Redis.live now ke.2 && Redis.glob pattern ke.1)).
Qed.

Lemma elem_of_keys now pattern (d : gmap string Redis.entry) k :
  k ∈ Redis.keys now pattern d <->
  is_Some (Redis.get now k d) /\ Redis.glob pattern k = true.
Proof.
  unfold Redis.keys, Redis.get. rewrite list_elem_of_omap. split.
  - intros ([k' e] & Hin & Hk). apply elem_of_map_to_list in Hin. simpl in Hk.
    destruct (Redis.live now e) eqn:Hl; [|done]. simpl in Hk.
    destruct (Redis.glob pattern k') eqn:Hg; [|done]. injection Hk as ->.
    rewrite Hin, Hl. split; [by eexists|done].
  - intros [[e He] Hg]. destruct (d !! k) as [e'|] eqn:Hk; [|done].
    destruct (Redis.live now e') eqn:Hl; [|done].
    exists (k, e'). split; [by apply elem_of_map_to_list|]. simpl. by rewrite Hl, Hg.
Qed.

(** The rooms of the keys that hold a history at time [now]. *)
Definition history_rooms (now : Z) (d : gmap string Redis.entry) : list string :=
  Str.substring (String.length HISTORY_PREFIX) <$> Redis.keys now (HISTORY_PREFIX +:+ "*") d.

Lemma prefix_historyKey r : String.prefix HISTORY_PREFIX (historyKey r) = true.
Proof. unfold historyKey, HISTORY_PREFIX. str_norm. simpl. by destruct r. Qed.

Lemma history_prefix_match k :
  Redis.glob (HISTORY_PREFIX +:+ "*") k = true <->
  k = historyKey (Str.substring (String.length HISTORY_PREFIX) k).
Proof.
  rewrite glob_prefix by done. split.
  - apply prefix_substring.
  - intros Hk. rewrite Hk. apply prefix_historyKey.
Qed.

Lemma elem_of_history_rooms now d r :
  r ∈ history_rooms now d <-> is_Some (Redis.get now (historyKey r) d).
Proof.
  unfold history_rooms. rewrite list_elem_of_fmap. split.
  - intros (k & -> & Hk). apply elem_of_keys in Hk as [Hget Hg].
    apply history_prefix_match in Hg. by rewrite <- Hg.
  - intros Hget. exists (historyKey r). split; [done|].
    apply elem_of_keys. split; [done|]. by apply history_prefix_match.
Qed.

Lemma history_rooms_NoDup now d : NoDup (history_rooms now d).
Proof.
  unfold history_rooms. apply NoDup_fmap_2_strong; [|apply keys_NoDup].
  intros k k' Hk Hk' Heq.
  apply elem_of_keys in Hk as [_ Hk]. apply elem_of_keys in Hk' as [_ Hk'].
  apply history_prefix_match in Hk, Hk'. rewrite Hk, Hk'. by rewrite Heq.
Qed.

Lemma getRooms_unfold `{JSON} now w :
  getRooms now w =
    (w, Ret (history_rooms now (redis w),
             JSON_stringify (JObj [("rooms", JArr (JStr <$> history_rooms now (redis w)))]))).
Proof. unfold getRooms, bind, keys, on_redis, ret, history_rooms. by destruct w. Qed.

Section Reachable.

Context (cfg : Config) {codec : JSON}.

Let N := HISTORY_SIZE cfg.
Let TTL := HISTORY_TTL_SECONDS cfg.
Let L := RATE_LIMIT_PER_MIN cfg.

(** What holds of every message that the ["message"] handler builds. *)
Definition message_ok (m : ChatMessage.t) : Prop :=
  1 <= Str.length (ChatMessage.room m) /\
  Str.length (ChatMessage.text m) <= 2000 /\
  Str.length (ChatMessage.username m) <= 40 /\
  Str.trim (ChatMessage.text m) = ChatMessage.text m /\
  Str.trim (ChatMessage.username m) = ChatMessage.username m.

Definition publication_ok (cm : string * string) : Prop :=
  exists m, cm = (channelFor (ChatMessage.room m), enc m) /\ message_ok m.

(** Every rate key holds a positive counter that expires in the minute
    after its bucket. *)
Definition rate_keys_ok (d : gmap string Redis.entry) : Prop :=
  forall a t,
    match d !! rateKey a t with
    | None => True
    | Some (Redis.mk (Redis.Int n) (Some x)) =>
        1 <= n /\ (minuteBucket t + 1) * 60000 <= x < (minuteBucket t + 2) * 60000
    | Some _ => False
    end.

(** Every history key holds a list that is not empty, has a time of
    expiry, and is made of the latest publications on the channel of
    its room, latest first. *)
Definition history_keys_ok (w : World) : Prop :=
  forall r,
    match redis w !! historyKey r with
    | None => True
    | Some (Redis.mk (Redis.List l) (Some x)) =>
        l <> [] /\ l `prefix_of` reverse (publications r (published w)) /\
        (1 <= N -> (length l <= Z.to_nat N)%nat)
    | Some _ => False
    end.

Definition known_keys (d : gmap string Redis.entry) : Prop :=
  forall k, is_Some (d !! k) ->
    (exists a t, k = rateKey a t) \/ (exists r, k = historyKey r).

Record consistent (w : World) : Prop := mk_consistent {
  consistent_rate : rate_keys_ok (redis w);
  consistent_history : history_keys_ok w;
  consistent_keys : known_keys (redis w);
  consistent_log : Forall publication_ok (published w);
  consistent_sockets : no_connecting w
}.

Lemma consistent_init : consistent init.
Proof.
  split.
  - intros a t. simpl. by rewrite lookup_empty.
  - intros r. simpl. by rewrite lookup_empty.
  - intros k [e He]. simpl in He. by rewrite lookup_empty in He.
  - constructor.
  - intros s sock. simpl. by rewrite lookup_empty.
Qed.

Lemma rate_keys_ok_weaken d : rate_keys_ok d -> rate_ok d.
Proof.
  intros H a t. specialize (H a t).
  destruct (d !! rateKey a t) as [[[n|l] [x|]]|]; try done. lia.
Qed.

Lemma tick_rate_keys_ok d a now : rate_keys_ok d -> rate_keys_ok (tick now (rateKey a now) d).
Proof.
  intros Hok a' t'.
  destruct (decide (rateKey a' t' = rateKey a now)) as [Heq|Hne].
  - rewrite Heq. apply rateKey_inj in Heq as [-> Hb].
    pose proof (bucket_bounds cfg now). unfold tick.
    rewrite (rate_ok_get cfg) by by apply rate_keys_ok_weaken.
    specialize (Hok a now).
    destruct (d !! rateKey a now) as [[[n|l] [x|]]|]; try done;
      rewrite lookup_insert_eq; rewrite Hb.
    + destruct Hok as [Hn Hx]. destruct (Z.eqb_spec (n + 1) 1); lia.
    + lia.
  - rewrite tick_other by done. apply Hok.
Qed.

(** A state that differs in sessions and handlers only. *)
Lemma consistent_same w w' :
  redis w' = redis w -> published w' = published w -> no_connecting w' ->
  consistent w -> consistent w'.
Proof.
  intros Hd Hp Hs [H1 H2 H3 H4 H5]. split.
  - by rewrite Hd.
  - intros r. specialize (H2 r). by rewrite Hd, Hp.
  - by rewrite Hd.
  - by rewrite Hp.
  - done.
Qed.

Lemma consistent_tick w a now : consistent w -> consistent (set_redis (tick now (rateKey a now)) w).
Proof.
  intros [H1 H2 H3 H4 H5]. split; simpl.
  - by apply tick_rate_keys_ok.
  - intros r. simpl. rewrite tick_other; [apply H2|].
    intros Heq. symmetry in Heq. by apply rateKey_historyKey in Heq.
  - intros k Hk. simpl in Hk.
    destruct (decide (k = rateKey a now)) as [->|Hne]; [left; eauto|].
    rewrite tick_other in Hk by done. by apply H3.
  - done.
  - done.
Qed.

(** [send] returns unless the socket is CONNECTING. *)
Lemma send_returns s data w :
  no_connecting w ->
  exists w', send s data w = (w', Ret tt) /\
    redis w' = redis w /\ published w' = published w /\ clients w' = clients w /\
    listening w' = listening w /\ next_ws w' = next_ws w /\ no_connecting w'.
Proof.
  intros Hnc. unfold send.
  destruct (wss_clients w !! s) as [[st out]|] eqn:Hs; [|by exists w].
  pose proof (Hnc s _ Hs) as Hst. simpl in *.
  destruct st; [done| |by exists w..].
  eexists. split; [done|]. repeat split; try done.
  intros s' sock'. simpl. destruct (decide (s' = s)) as [->|Hne].
  - rewrite lookup_insert_eq. by intros [= <-].
  - rewrite lookup_insert_ne by done. apply Hnc.
Qed.

(** The sessions after the lazy join of [room] by socket [s]. *)
Definition joined (s : nat) (room : string) (c : gmap nat ClientInfo) : gmap nat ClientInfo :=
  match c !! s with
  | Some info => <[s := mkInfo (ws info) ({[ room ]} ∪ rooms info) (ip info)]> c
  | None => c
  end.

Lemma join_joined s room w : join s room w = (set_clients (joined s room) w, Ret tt).
Proof.
  unfold join, joined. destruct w as [d p m c li n]; unfold set_clients; simpl.
  destruct (c !! s) as [[x rs a]|] eqn:Hs; [|done]. simpl.
  destruct (decide (room ∈ rs)) as [Hin|Hin].
  - rewrite bool_decide_eq_true_2 by done.
    assert ({[ room ]} ∪ rs = rs) as ->
      by by apply subseteq_union_1_L, singleton_subseteq_l.
    by rewrite insert_id.
  - by rewrite bool_decide_eq_false_2.
Qed.

(** Write or remove the entry of a key. *)
Definition put (k : string) (o : option Redis.entry) (d : gmap string Redis.entry)
  : gmap string Redis.entry :=
  match o with
  | Some e => <[k := e]> d
  | None => delete k d
  end.

Lemma put_eq k o d : put k o d !! k = o.
Proof. destruct o; simpl; by rewrite ?lookup_insert_eq, ?lookup_delete_eq. Qed.

Lemma put_ne k o d k' : k' <> k -> put k o d !! k' = d !! k'.
Proof. intros Hne. destruct o; simpl; by rewrite ?lookup_insert_ne, ?lookup_delete_ne. Qed.

Lemma put_insert k o e d : put k o (<[k := e]> d) = put k o d.
Proof. destruct o; simpl; by rewrite ?insert_insert_eq, ?delete_insert_eq. Qed.

(** What an append leaves under the key of a room whose list, with the
    new entry in front, is [l]: the entries of ranks 0 to
    [HISTORY_SIZE - 1] with a fresh time to live, or nothing if no entry
    is left or the time to live is not positive. *)
Definition history_after (now : Z) (l : list string) : option Redis.entry :=
  match Redis.range l 0 (N - 1) with
  | [] => None
  | l' =>
      if TTL <=? 0 then None
      else Some (Redis.mk (Redis.List l') (Some (now + TTL * 1000)))
  end.

(** The store after LTRIM and EXPIRE on a key that holds a list. *)
Lemma trim_expire now key l e (d : gmap string Redis.entry) :
  d !! key = Some (Redis.mk (Redis.List l) e) ->
  Redis.live now (Redis.mk (Redis.List l) e) = true ->
  exists d2 b,
    Redis.lTrim now key 0 (N - 1) d = (d2, Ret tt) /\
    Redis.expire now key TTL d2 = (put key (history_after now l) d, Ret b).
Proof.
  intros Hk Hlive.
  assert (Redis.get now key d = Some (Redis.mk (Redis.List l) e)) as Hget.
  { unfold Redis.get. by rewrite Hk, Hlive. }
  unfold Redis.lTrim, history_after. rewrite Hget.
  destruct (Redis.range l 0 (N - 1)) as [|y ys] eqn:Hr.
  - eexists _, _. split; [done|].
    unfold Redis.expire, Redis.get. by rewrite lookup_delete_eq.
  - eexists _, _. split; [done|].
    unfold Redis.expire. rewrite get_insert_eq.
    change (Redis.live now (Redis.mk (Redis.List (y :: ys)) e))
      with (Redis.live now (Redis.mk (Redis.List l) e)). rewrite Hlive.
    destruct (TTL <=? 0); simpl.
    + by rewrite delete_insert_eq.
    + by rewrite insert_insert_eq.
Qed.

(** One append, whatever the settings: it returns, and it writes under
    the key of the room only. *)
Lemma pushHistory_any now room msg w :
  ~ holds_counter now (historyKey room) w ->
  pushHistory cfg now room msg w =
    (set_redis (put (historyKey room) (history_after now (enc msg :: stored now room w))) w,
     Ret tt).
Proof.
  intros Hty.
  unfold pushHistory, bind, lPush, lTrim, expire, on_redis, ret, stored, holds_counter in *.
  fold N TTL (enc msg).
  destruct w as [d p c i li n]; unfold set_redis; simpl in *.
  unfold Redis.lPush.
  destruct (Redis.get now (historyKey room) d) as [[[m|xs] e]|] eqn:Hget.
  - exfalso. apply Hty. eauto.
  - apply get_live in Hget as [_ Hlive]. simpl.
    destruct (trim_expire now (historyKey room) (enc msg :: xs) e
                (<[historyKey room := Redis.mk (Redis.List (enc msg :: xs)) e]> d))
      as (d2 & b & Ht & He); [by rewrite lookup_insert_eq|done|].
    rewrite Ht. simpl. rewrite He. simpl. by rewrite put_insert.
  - simpl.
    destruct (trim_expire now (historyKey room) [enc msg] None
                (<[historyKey room := Redis.mk (Redis.List [enc msg]) None]> d))
      as (d2 & b & Ht & He); [by rewrite lookup_insert_eq|done|].
    rewrite Ht. simpl. rewrite He. simpl. by rewrite put_insert.
Qed.

(** What is left is cut from the front of the list. *)
Lemma history_after_Some now l e :
  history_after now l = Some e ->
  exists l', e = Redis.mk (Redis.List l') (Some (now + TTL * 1000)) /\
             l' <> [] /\ l' `prefix_of` l /\ 0 < TTL /\
             (1 <= N -> (length l' <= Z.to_nat N)%nat).
Proof.
  unfold history_after.
  pose proof (range_from_0_prefix l (N - 1)) as Hpre.
  pose proof (range_length l N) as Hlen.
  destruct (Redis.range l 0 (N - 1)) as [|y ys]; [done|].
  destruct (Z.leb_spec TTL 0); [done|]. intros [= <-]. by eexists.
Qed.

Lemma history_after_cap now l :
  1 <= N -> 0 < TTL -> l <> [] ->
  history_after now l
  = Some (Redis.mk (Redis.List (take (Z.to_nat N) l)) (Some (now + TTL * 1000))).
Proof.
  intros HN HT Hl. unfold history_after. rewrite range_prefix by done.
  destruct (Z.leb_spec TTL 0); [lia|].
  destruct l as [|x l]; [done|].
  assert (exists k, Z.to_nat N = S k) as [k ->] by (exists (Z.to_nat (N - 1)); lia).
  done.
Qed.

(** The message that the handler builds from a frame that passed
    validation as [cm]. *)
Definition message_of (cm : ClientMessage.t) (now : Z) (uuid : string) : ChatMessage.t :=
  ChatMessage.mk uuid (ClientMessage.room cm) (Str.trim (ClientMessage.text cm))
                 (Str.trim (ClientMessage.username cm)) now.

(** The state after the handler has accepted a frame of socket [s], at
    address [a], and built [msg] from it. *)
Definition accepted_state (s : nat) (a : string) (now : Z) (msg : ChatMessage.t) (w : World)
  : World :=
  let room := ChatMessage.room msg in
  mkWorld (put (historyKey room) (history_after now (enc msg :: stored now room w))
               (tick now (rateKey a now) (redis w)))
          (published w ++ [(channelFor room, enc msg)])
          (wss_clients w)
          (joined s room (clients w))
          (listening w) (next_ws w).

Lemma get_tick_history now a room d :
  Redis.get now (historyKey room) (tick now (rateKey a now) d)
  = Redis.get now (historyKey room) d.
Proof.
  unfold Redis.get. rewrite tick_other; [done|].
  intros Heq. symmetry in Heq. by apply rateKey_historyKey in Heq.
Qed.

Lemma onMessage_accepts s a data now uuid w payload cm :
  rate_ok (redis w) ->
  ~ holds_counter now (historyKey (ClientMessage.room cm)) w ->
  counter now a w + 1 <= L ->
  JSON_parse data = Some payload ->
  safeParse payload = Some cm ->
  onMessage cfg s a data now uuid w =
    (accepted_state s a now (message_of cm now uuid) w, Ret (Accepted (message_of cm now uuid))).
Proof.
  intros Hrate Hty Hc Hp Hs.
  rewrite onMessage_unfold by by apply (rate_ok_no_list cfg).
  destruct (Z.ltb_spec (RATE_LIMIT_PER_MIN cfg) (counter now a w + 1));
    [unfold L in *; lia|].
  unfold process. rewrite Hp, Hs. destruct cm as [room text username]. simpl in *.
  unfold bind at 1. rewrite join_joined.
  unfold bind at 1. rewrite pushHistory_any.
  - unfold bind, publish, ret, accepted_state, message_of, stored. simpl.
    rewrite get_tick_history. by destruct w.
  - intros (n & e & Hget). apply Hty. exists n, e. simpl in Hget.
    by rewrite get_tick_history in Hget.
Qed.

Lemma message_of_ok payload cm now uuid :
  safeParse payload = Some cm -> message_ok (message_of cm now uuid).
Proof.
  intros Hs. pose proof (safeParse_room _ _ Hs) as Hr.
  apply safeParse_bounds in Hs as [Ht Hu].
  pose proof (trim_length (ClientMessage.text cm)).
  pose proof (trim_length (ClientMessage.username cm)).
  unfold message_ok, message_of. simpl.
  repeat split; try lia; apply trim_idem.
Qed.

(** A list under a history key is visible or not; what is visible is a
    prefix of the latest publications too. *)
Lemma stored_prefix now r w :
  history_keys_ok w -> stored now r w `prefix_of` reverse (publications r (published w)).
Proof.
  intros H. specialize (H r). unfold stored, Redis.get.
  destruct (redis w !! historyKey r) as [[[n|l] [x|]]|]; try done; try apply prefix_nil.
  destruct (Redis.live now _); [|apply prefix_nil]. by destruct H as (_ & H & _).
Qed.

Lemma consistent_no_counter now r w : history_keys_ok w -> ~ holds_counter now (historyKey r) w.
Proof.
  intros H (n & e & Hget). apply get_live in Hget as [Hk _].
  specialize (H r). rewrite Hk in H. by destruct e.
Qed.

Lemma consistent_accepted s a now msg w :
  consistent w -> message_ok msg -> consistent (accepted_state s a now msg w).
Proof.
  intros Hinv Hmsg. pose proof Hinv as [H1 H2 H3 H4 H5].
  set (room := ChatMessage.room msg).
  split; unfold accepted_state; fold room; simpl.
  - intros a' t'. rewrite put_ne by apply rateKey_historyKey.
    by apply tick_rate_keys_ok.
  - intros r. simpl. rewrite publications_snoc.
    destruct (decide (room = r)) as [<-|Hne].
    + rewrite put_eq. rewrite bool_decide_eq_true_2 by done.
      destruct (history_after now (enc msg :: stored now room w)) as [e|] eqn:Ha; [|done].
      apply history_after_Some in Ha as (l' & -> & Hl' & Hpre & _ & Hlen).
      split; [done|]. split; [|done].
      rewrite reverse_snoc. etrans; [exact Hpre|].
      apply prefix_cons. by apply stored_prefix.
    + rewrite put_ne by (intros Heq; by apply historyKey_inj in Heq).
      rewrite tick_other
        by (intros Heq; symmetry in Heq; by apply rateKey_historyKey in Heq).
      rewrite bool_decide_eq_false_2 by done. rewrite app_nil_r. apply H2.
  - intros k Hk.
    destruct (decide (k = historyKey room)) as [->|Hne]; [right; eauto|].
    rewrite put_ne in Hk by done.
    destruct (decide (k = rateKey a now)) as [->|Hne']; [left; eauto|].
    rewrite tick_other in Hk by done. by apply H3.
  - apply Forall_app. split; [done|]. constructor; [|done]. by exists msg.
  - done.
Qed.

(** The ["message"] handler in a state of the invariant: it returns,
    the invariant holds again, and the state it leaves is the one of an
    accepted frame or differs in the counter and the sockets only. *)
Lemma onMessage_consistent s a data now uuid w :
  consistent w ->
  exists w' out,
    onMessage cfg s a data now uuid w = (w', Ret out) /\
    consistent w' /\
    rejection cfg (counter now a w) data
      = match out with Accepted _ => None | _ => Some out end /\
    match out with
    | Accepted msg =>
        (exists payload cm,
            JSON_parse data = Some payload /\ safeParse payload = Some cm /\
            msg = message_of cm now uuid) /\
        w' = accepted_state s a now msg w
    | _ =>
        redis w' = tick now (rateKey a now) (redis w) /\
        published w' = published w /\ clients w' = clients w /\
        listening w' = listening w /\ next_ws w' = next_ws w
    end.
Proof.
  intros Hinv. pose proof Hinv as [H1 H2 H3 H4 H5].
  pose proof (rate_keys_ok_weaken _ H1) as Hrate.
  pose proof (consistent_tick w a now Hinv) as Hinv1.
  unfold rejection.
  destruct (Z.ltb_spec (RATE_LIMIT_PER_MIN cfg) (counter now a w + 1)) as [Hlt|Hle].
  { rewrite onMessage_unfold by by apply (rate_ok_no_list cfg).
    destruct (Z.ltb_spec (RATE_LIMIT_PER_MIN cfg) (counter now a w + 1)); [|lia].
    destruct (send_returns s (stringify_event rate_notice) _ (consistent_sockets _ Hinv1))
      as (w' & Hsend & Hd & Hp & Hc & Hl & Hn & Hs).
    exists w', RateLimited. unfold bind. rewrite Hsend. split; [done|].
    split; [exact (consistent_same _ w' Hd Hp Hs Hinv1)|]. by rewrite Hd, Hp, Hc, Hl, Hn. }
  destruct (JSON_parse data) as [payload|] eqn:Hp.
  - destruct (safeParse payload) as [cm|] eqn:Hs.
    + exists (accepted_state s a now (message_of cm now uuid) w),
             (Accepted (message_of cm now uuid)).
      split; [eapply onMessage_accepts; eauto using consistent_no_counter|].
      split; [apply consistent_accepted; [done|by eapply message_of_ok]|].
      split; [done|]. split; [|done]. by exists payload, cm.
    + rewrite onMessage_unfold by by apply (rate_ok_no_list cfg).
      destruct (Z.ltb_spec (RATE_LIMIT_PER_MIN cfg) (counter now a w + 1)); [lia|].
      unfold process. rewrite Hp, Hs.
      destruct (send_returns s (stringify_event (EvSystem "Invalid message shape")) _
                  (consistent_sockets _ Hinv1))
        as (w' & Hsend & Hd & Hpb & Hc & Hl & Hn & Hsk).
      exists w', InvalidShape. unfold bind. rewrite Hsend. split; [done|].
      split; [exact (consistent_same _ w' Hd Hpb Hsk Hinv1)|]. by rewrite Hd, Hpb, Hc, Hl, Hn.
  - rewrite onMessage_unfold by by apply (rate_ok_no_list cfg).
    destruct (Z.ltb_spec (RATE_LIMIT_PER_MIN cfg) (counter now a w + 1)); [lia|].
    unfold process. rewrite Hp.
    destruct (send_returns s (stringify_event (EvSystem "Invalid JSON")) _
                (consistent_sockets _ Hinv1))
      as (w' & Hsend & Hd & Hpb & Hc & Hl & Hn & Hsk).
    exists w', InvalidJSON. unfold bind. rewrite Hsend. split; [done|].
    split; [exact (consistent_same _ w' Hd Hpb Hsk Hinv1)|]. by rewrite Hd, Hpb, Hc, Hl, Hn.
Qed.

(** What was published on the channel of a room encodes messages of
    that room. *)
Lemma publications_messages r log :
  Forall publication_ok log ->
  exists ms,
    publications r log = enc <$> ms /\
    Forall (fun m => ChatMessage.room m = r /\ message_ok m) ms.
Proof.
  induction 1 as [|[ch v] log (m & Heq & Hm) _ (ms & IHeq & IHms)].
  - by exists [].
  - injection Heq as -> ->. rewrite publications_cons.
    destruct (decide (channelFor (ChatMessage.room m) = channelFor r)) as [Heq|Hne].
    + rewrite bool_decide_eq_true_2 by done. apply channelFor_inj in Heq.
      exists (m :: ms). rewrite IHeq. split; [done|]. by constructor.
    + rewrite bool_decide_eq_false_2 by done. by exists ms.
Qed.

Lemma prefix_fmap_inv {A B} (f : A -> B) l ms :
  l `prefix_of` (f <$> ms) -> exists ms', l = f <$> ms' /\ ms' `prefix_of` ms.
Proof.
  intros [k Hk]. apply fmap_app_inv in Hk as (l1 & l2 & -> & -> & ->).
  exists l1. split; [done|]. by exists l2.
Qed.

Lemma Forall_prefix {A} (P : A -> Prop) l l' :
  l `prefix_of` l' -> Forall P l' -> Forall P l.
Proof. intros [k ->] H. by apply Forall_app in H as [H _]. Qed.

(** The entries under a history key encode well-formed messages of
    the room. *)
Lemma consistent_stored r w l x :
  consistent w ->
  redis w !! historyKey r = Some (Redis.mk (Redis.List l) x) ->
  exists ms, l = enc <$> ms /\ ms <> [] /\
             Forall (fun m => ChatMessage.room m = r /\ message_ok m) ms.
Proof.
  intros [_ H2 _ H4 _] Hk. specialize (H2 r). rewrite Hk in H2.
  destruct x as [x|]; [|done]. destruct H2 as (Hne & Hpre & _).
  destruct (publications_messages r _ H4) as (ms & Heq & Hms).
  rewrite Heq, <- fmap_reverse in Hpre.
  apply prefix_fmap_inv in Hpre as (ms' & -> & Hpre).
  exists ms'. split; [done|]. split; [by intros ->|].
  eapply Forall_prefix; [done|]. by apply Forall_reverse.
Qed.

(** [loadHistory] in a state of the invariant: it returns, and answers
    messages of the room. *)
Lemma loadHistory_returns now room w :
  consistent w ->
  exists ms,
    loadHistory cfg now room w = (w, Ret (ChatMessage.to_json <$> ms)) /\
    Forall (fun m => ChatMessage.room m = room /\ message_ok m) ms /\
    enc <$> reverse ms = Redis.range (stored now room w) 0 (N - 1).
Proof.
  intros Hinv. rewrite loadHistory_unfold. unfold Redis.lRange, stored. fold N.
  destruct (Redis.get now (historyKey room) (redis w)) as [[[n|l] e]|] eqn:Hget.
  - exfalso. eapply (consistent_no_counter now room w); [by destruct Hinv|]. by exists n, e.
  - apply get_live in Hget as [Hk _].
    destruct (consistent_stored room w l e Hinv Hk) as (ms & -> & _ & Hms).
    pose proof (range_from_0_prefix (enc <$> ms) (N - 1)) as Hpre.
    apply prefix_fmap_inv in Hpre as (ms' & Heq & Hpre). rewrite Heq.
    exists (reverse ms'). rewrite enc_fmap, parse_all_enc.
    rewrite fmap_reverse, reverse_involutive. split; [done|]. split; [|by rewrite enc_fmap].
    apply Forall_reverse. by eapply Forall_prefix.
  - exists []. split; [done|]. split; [done|].
    unfold Redis.range. cbv zeta. simpl. by rewrite orb_true_r.
Qed.

Lemma accept_consistent w :
  consistent w ->
  consistent (accept w).1 /\
  wss_clients (accept w).1 !! next_ws w = Some (mkSocket OPEN []).
Proof.
  intros Hinv. unfold accept. simpl. split; [|by rewrite lookup_insert_eq].
  apply (consistent_same w); [done..| |done].
  intros s sock. simpl. destruct (decide (s = next_ws w)) as [->|Hne].
  - rewrite lookup_insert_eq. by intros [= <-].
  - rewrite lookup_insert_ne by done. by apply consistent_sockets.
Qed.

Lemma onConnection_consistent s f ra now w :
  consistent w ->
  exists w',
    onConnection cfg s f ra now w = (w', Ret tt) /\ consistent w' /\
    clients w' = <[s := mkInfo s {[ DEFAULT_ROOM cfg ]} (client_ip f ra)]> (clients w) /\
    listening w' = {[ s ]} ∪ listening w /\ next_ws w' = next_ws w.
Proof.
  intros Hinv. unfold onConnection. unfold bind at 1.
  set (w1 := set_clients _ w).
  assert (consistent w1) as Hinv1 by (apply (consistent_same w); [done..|by destruct Hinv|done]).
  destruct (loadHistory_returns now (DEFAULT_ROOM cfg) w1 Hinv1) as (ms & Hload & _).
  unfold bind at 1. rewrite Hload.
  destruct (send_returns s (stringify_event (EvHistory (DEFAULT_ROOM cfg)
                                               (ChatMessage.to_json <$> ms))) w1
              (consistent_sockets _ Hinv1)) as (w2 & Hs2 & Hd2 & Hp2 & Hc2 & Hl2 & Hn2 & Hk2).
  unfold bind at 1. rewrite Hs2.
  pose proof (consistent_same w1 w2 Hd2 Hp2 Hk2 Hinv1) as Hinv2.
  destruct (send_returns s (stringify_event (welcome cfg)) w2 Hk2)
    as (w3 & Hs3 & Hd3 & Hp3 & Hc3 & Hl3 & Hn3 & Hk3).
  unfold bind at 1. rewrite Hs3.
  pose proof (consistent_same w2 w3 Hd3 Hp3 Hk3 Hinv2) as Hinv3.
  eexists. split; [done|]. split; [by apply (consistent_same w3)|]. simpl.
  by rewrite Hc3, Hc2, Hl3, Hl2, Hn3, Hn2.
Qed.

(** The fan-out returns, and leaves no socket CONNECTING. *)
Lemma fanout_consistent room payload w :
  consistent w ->
  exists w',
    forEach (deliver room payload) (map fst (map_to_list (wss_clients w))) w = (w', Ret tt) /\
    consistent w'.
Proof.
  intros Hinv.
  destruct (forEach_deliver room payload (map fst (map_to_list (wss_clients w))) w)
    as (m' & Hrun & Hm'); [apply NoDup_fst_map_to_list|].
  eexists. split; [exact Hrun|]. apply (consistent_same w); [by destruct w..| |done].
  intros s sock. destruct w as [d p m c li n]. simpl in *. rewrite Hm'.
  pose proof (consistent_sockets _ Hinv s) as Hs. simpl in Hs.
  destruct (bool_decide _); [|apply Hs].
  destruct (m !! s) as [sock0|]; [|done]. simpl. intros [= <-].
  unfold delivered. destruct (_ && _); [done|by apply Hs].
Qed.

(** One event in a state of the invariant: the invariant holds after
    it, and only the subscriber's listener can throw, on a payload that
    does not decode. *)
Lemma step_consistent ev w :
  consistent w ->
  exists w' r,
    step cfg ev w = (w', r) /\ consistent w' /\
    (r = Ret tt \/
     r = Throw SyntaxError /\ w' = w /\
     exists ch m, ev = BusMessage ch m /\ matches_pattern ch = true /\ JSON_parse m = None).
Proof.
  intros Hinv. destruct ev as [f ra now|s data now uuid|s|s|ch message]; simpl.
  - unfold bind at 1. destruct (accept_consistent w Hinv) as [Hinv1 _].
    destruct (accept w) as [w1 r1] eqn:Ha. unfold accept in Ha. injection Ha as <- <-.
    destruct (onConnection_consistent (next_ws w) f ra now _ Hinv1) as (w' & Hrun & Hinv' & _).
    exists w', (Ret tt). split; [exact Hrun|]. split; [done|by left].
  - destruct (frame_target w s) as [info|].
    + destruct (onMessage_consistent s (ip info) data now uuid w Hinv)
        as (w' & out & Hrun & Hinv' & _).
      exists w', (Ret tt). unfold bind. rewrite Hrun. split; [done|]. split; [done|by left].
    + exists w, (Ret tt). split; [done|]. split; [done|by left].
  - unfold closing.
    destruct (wss_clients w !! s) as [[[] out]|] eqn:Hs;
      try (exists w, (Ret tt); split; [done|]; split; [done|by left]).
    eexists _, (Ret tt). split; [done|]. split; [|by left].
    apply (consistent_same w); [done..| |done].
    intros s' sock'. simpl. destruct (decide (s' = s)) as [->|Hne].
    * rewrite lookup_insert_eq. by intros [= <-].
    * rewrite lookup_insert_ne by done. by apply consistent_sockets.
  - unfold closed, bind, onClose.
    assert (no_connecting (set_wss_clients (delete s) w)) as Hnc.
    { intros s' sock'. simpl. intros [_ Hs]%lookup_delete_Some. by eapply consistent_sockets. }
    destruct (bool_decide (s ∈ listening w)).
    + eexists _, (Ret tt). split; [done|]. split; [|by left].
      by apply (consistent_same w).
    + eexists _, (Ret tt). split; [done|]. split; [|by left].
      by apply (consistent_same w).
  - destruct (matches_pattern ch) eqn:Hch.
    + unfold onBusMessage, bind, parse.
      destruct (JSON_parse message) as [v|] eqn:Hv.
      * unfold ret.
        destruct (fanout_consistent (roomOf ch) (EvBroadcast v) w Hinv)
          as (w' & Hrun & Hinv').
        exists w', (Ret tt). split; [exact Hrun|]. split; [done|by left].
      * exists w, (Throw SyntaxError). split; [done|]. split; [done|].
        right. split; [done|]. split; [done|]. by exists ch, message.
    + exists w, (Ret tt). split; [done|]. split; [done|by left].
Qed.

(** A run from a state of the invariant. *)
Lemma run_consistent evs : forall w,
  consistent w ->
  exists w' r,
    run cfg evs w = (w', r) /\ consistent w' /\
    (r = Ret tt \/
     r = Throw SyntaxError /\
     exists ch m, BusMessage ch m ∈ evs /\ matches_pattern ch = true /\ JSON_parse m = None).
Proof.
  induction evs as [|ev evs IH]; intros w Hinv.
  - exists w, (Ret tt). split; [done|]. split; [done|by left].
  - destruct (step_consistent ev w Hinv) as (w1 & r1 & Hstep & Hinv1 & Hr1).
    unfold run. simpl. unfold bind. rewrite Hstep.
    destruct Hr1 as [->|(-> & _ & ch & m & -> & Hch & Hm)].
    + destruct (IH w1 Hinv1) as (w' & r & Hrun & Hinv' & Hr).
      exists w', r. split; [exact Hrun|]. split; [done|].
      destruct Hr as [->|(-> & ch & m & Hin & Hch & Hm)]; [by left|].
      right. split; [done|]. exists ch, m. split; [|done]. apply elem_of_cons. by right.
    + exists w1, (Throw SyntaxError). split; [done|]. split; [done|].
      right. split; [done|]. exists ch, m. split; [|done]. apply elem_of_cons. by left.
Qed.

(** Every state that a run from start-up reaches, or stops in. *)
Lemma reachable_consistent evs : consistent (run cfg evs init).1.
Proof.
  destruct (run_consistent evs init consistent_init) as (w' & r & Hrun & Hinv & _). by rewrite Hrun.
Qed.

Lemma trimmed_clean s : Str.trim s = s -> starts_clean s /\ ends_clean s.
Proof.
  intros <-. unfold Str.trim. split.
  - apply trimEnd_clean, trimStart_clean.
  - apply trimEnd_ends_clean.
Qed.

(** X3. Whatever the events and the settings, every key of the store is
    a rate key or a history key, and has a time of expiry. A rate key
    holds a counter of at least 1. A history key holds a list that is
    not empty, of at most [HISTORY_SIZE] entries when that is at least
    1, each the wire form of a message of the key's room. *)
Theorem store_keys_typed_and_expiring (evs : list event) (k : string) :
  match redis (run cfg evs init).1 !! k with
  | None => True
  | Some e =>
      is_Some (Redis.expireAt e) /\
      ((exists a t n, k = rateKey a t /\ Redis.val e = Redis.Int n /\ 1 <= n) \/
       (exists r ms,
           k = historyKey r /\ Redis.val e = Redis.List (enc <$> ms) /\ ms <> [] /\
           Forall (fun m => ChatMessage.room m = r) ms /\
           (1 <= HISTORY_SIZE cfg -> (length ms <= Z.to_nat (HISTORY_SIZE cfg))%nat)))
  end.
Proof.
  pose proof (reachable_consistent evs) as Hinv. set (w := (run cfg evs init).1) in *.
  destruct (redis w !! k) as [e|] eqn:Hk; [|done].
  destruct (consistent_keys w Hinv k) as [(a & t & ->)|(r & ->)]; [by eexists|..].
  - pose proof (consistent_rate w Hinv a t) as Hr. rewrite Hk in Hr.
    destruct e as [[n|l] [x|]]; try done. split; [by eexists|].
    left. exists a, t, n. by destruct Hr.
  - pose proof (consistent_history w Hinv r) as Hh. rewrite Hk in Hh.
    destruct e as [[n|l] [x|]]; try done. split; [by eexists|].
    destruct (consistent_stored r w l (Some x) Hinv Hk) as (ms & -> & Hne & Hms).
    right. exists r, ms. split; [done|]. split; [done|]. split; [done|]. split.
    + eapply Forall_impl; [exact Hms|]. by intros m [? _].
    + destruct Hh as (_ & _ & Hlen). intros HN. specialize (Hlen HN).
      by rewrite length_fmap in Hlen.
Qed.

(** X5. A run from start-up stops with an exception only in the
    subscriber's listener, on a bus message that does not decode: it
    then stops with [SyntaxError], and such a message is among the
    events. No other handler throws, whatever the frames hold, and
    whatever the order of the events. *)
Theorem run_throws_only_on_undecodable_bus_payload (evs : list event) :
  match (run cfg evs init).2 with
  | Ret _ => True
  | Throw e =>
      e = SyntaxError /\
      exists ch m, BusMessage ch m ∈ evs /\ matches_pattern ch = true /\ JSON_parse m = None
  end.
Proof.
  destruct (run_consistent evs init consistent_init) as (w' & r & Hrun & _ & Hr).
  rewrite Hrun. simpl.
  destruct Hr as [->|(-> & Hbad)]; [done|]. by split.
Qed.

(** X6. Whatever was published, in any run from start-up, went to the
    channel of the room of a message and is the wire form of that
    message; the subscriber's pattern matches the channel, the room it
    decodes from the channel is the room of the message, and the
    payload decodes to the message. The room is not empty, the text
    and the user name have at most 2000 and 40 characters and no white
    space at either end. *)
Theorem publications_well_formed (evs : list event) (ch payload : string) :
  (ch, payload) ∈ published (run cfg evs init).1 ->
  exists m,
    ch = channelFor (ChatMessage.room m) /\ payload = enc m /\
    matches_pattern ch = true /\ roomOf ch = ChatMessage.room m /\
    JSON_parse payload = Some (ChatMessage.to_json m) /\
    1 <= Str.length (ChatMessage.room m) /\
    Str.length (ChatMessage.text m) <= 2000 /\
    Str.length (ChatMessage.username m) <= 40 /\
    starts_clean (ChatMessage.text m) /\ ends_clean (ChatMessage.text m) /\
    starts_clean (ChatMessage.username m) /\ ends_clean (ChatMessage.username m).
Proof.
  intros Hin. pose proof (consistent_log _ (reachable_consistent evs)) as Hlog.
  rewrite Forall_forall in Hlog. destruct (Hlog _ Hin) as (m & [= -> ->] & Hm).
  destruct Hm as (Hr & Ht & Hu & Htt & Huu).
  apply trimmed_clean in Htt as [? ?]. apply trimmed_clean in Huu as [? ?].
  exists m. split; [done|]. split; [done|]. split; [apply matches_channelFor|].
  split; [reflexivity|]. split; [apply JSON_parse_stringify|]. by repeat split.
Qed.

(** X7. In every state of a run from start-up, the list that a room's
    key holds is made of the latest publications on the room's channel,
    the latest first, without gaps; so [loadHistory] returns, whatever
    the time, and answers a final stretch of what was published to the
    room, in the order of publication. *)
Theorem history_mirrors_publications (evs : list event) (now : Z) (room : string) :
  let w := (run cfg evs init).1 in
  stored now room w `prefix_of` reverse (publications room (published w)) /\
  exists ms,
    loadHistory cfg now room w = (w, Ret (ChatMessage.to_json <$> ms)) /\
    (enc <$> ms) `suffix_of` publications room (published w) /\
    Forall (fun m => ChatMessage.room m = room) ms /\
    (1 <= HISTORY_SIZE cfg -> (length ms <= Z.to_nat (HISTORY_SIZE cfg))%nat).
Proof.
  intros w. pose proof (reachable_consistent evs) as Hinv. fold w in Hinv.
  pose proof (stored_prefix now room w (consistent_history w Hinv)) as Hpre.
  split; [done|].
  destruct (loadHistory_returns now room w Hinv) as (ms & Hload & Hms & Hraw).
  exists ms. split; [done|]. split; [|split].
  - apply suffix_prefix_reverse. rewrite <- fmap_reverse, Hraw.
    etrans; [apply range_from_0_prefix|done].
  - eapply Forall_impl; [exact Hms|]. by intros m [? _].
  - intros HN. pose proof (range_length (stored now room w) _ HN) as Hlen.
    fold N in Hlen. rewrite <- Hraw in Hlen.
    by rewrite length_fmap, length_reverse in Hlen.
Qed.

(** X4. A rate key is gone from the store once the clock has reached
    the end of the minute after its bucket: no counter outlives its
    bucket by more than a minute. While the bucket lasts, the key is
    there if it was written. *)
Theorem rate_counters_expire (evs : list event) (a : string) (t now : Z) :
  let d := redis (run cfg evs init).1 in
  ((minuteBucket t + 2) * 60000 <= now -> Redis.get now (rateKey a t) d = None) /\
  (minuteBucket now = minuteBucket t -> Redis.get now (rateKey a t) d = d !! rateKey a t).
Proof.
  intros d. pose proof (consistent_rate _ (reachable_consistent evs) a t) as Hr. fold d in Hr.
  pose proof (bucket_bounds cfg now) as Hb.
  unfold Redis.get. destruct (d !! rateKey a t) as [[[n|l] [x|]]|]; try done.
  unfold Redis.live. simpl. split.
  - intros Hnow. by destruct (Z.leb_spec now x); [lia|].
  - intros Heq. rewrite Heq in Hb. by destruct (Z.leb_spec now x); [|lia].
Qed.

(** Only frames publish. *)
Lemma step_same_published ev :
  (forall s data now uuid, ev <> Frame s data now uuid) ->
  respects (same published) (step cfg ev).
Proof.
  intros Hev. destruct ev as [f ra now|s data now uuid|s|s|ch message]; simpl.
  - apply respects_bind; [apply _ | by intros w w' r [= <- _] | intros s].
    unfold onConnection.
    apply respects_bind; [apply _ | by intros w1 w2 r2 [= <- _] | intros _].
    apply respects_bind; [apply _ | apply loadHistory_same | intros h].
    apply respects_bind; [apply _ | by apply send_same | intros _].
    apply respects_bind; [apply _ | by apply send_same | intros _].
    by intros w1 w2 r2 [= <- _].
  - by edestruct Hev.
  - intros w w' r. unfold closing.
    destruct (wss_clients w !! s) as [[[] out]|]; by intros [= <- _].
  - intros w w' r. unfold closed, bind, onClose.
    destruct (bool_decide _); by intros [= <- _].
  - destruct (matches_pattern ch); [|apply respects_ret; apply _].
    unfold onBusMessage.
    apply respects_bind; [apply _ | apply parse_same | intros v].
    intros w1 w2 r2. apply respects_forEach; try apply _.
    intros x w3 w4 r4. rewrite deliver_spec. by intros [= <- _].
Qed.

(** What one event does to the store and the log, in a state of the
    invariant: nothing, unless it is a frame that reaches a handler. *)
Lemma step_cases ev w w' r :
  consistent w ->
  step cfg ev w = (w', r) ->
  (redis w' = redis w /\ published w' = published w) \/
  exists s info data now uuid out,
    ev = Frame s data now uuid /\ frame_target w s = Some info /\
    onMessage cfg s (ip info) data now uuid w = (w', Ret out) /\
    rejection cfg (counter now (ip info) w) data
      = match out with Accepted _ => None | _ => Some out end /\
    match out with
    | Accepted msg => message_ok msg /\ w' = accepted_state s (ip info) now msg w
    | _ => redis w' = tick now (rateKey (ip info) now) (redis w) /\
           published w' = published w
    end.
Proof.
  intros Hinv Hstep.
  assert ((forall s data now uuid, ev <> Frame s data now uuid) ->
          redis w' = redis w /\ published w' = published w) as Hquiet.
  { intros Hev. split.
    - by eapply (step_same_redis cfg ev Hev).
    - by eapply (step_same_published ev Hev). }
  destruct ev as [f ra now|s data now uuid|s|s|ch message];
    try (left; by apply Hquiet).
  simpl in Hstep. destruct (frame_target w s) as [info|] eqn:Ht.
  - right. destruct (onMessage_consistent s (ip info) data now uuid w Hinv)
      as (w1 & out & Hrun & _ & Hrej & Hout).
    unfold bind in Hstep. rewrite Hrun in Hstep. injection Hstep as <- <-.
    exists s, info, data, now, uuid, out. split; [done|]. split; [done|].
    split; [done|]. split; [done|].
    destruct out as [| | |msg]; try (by destruct Hout as (? & ? & _)).
    destruct Hout as [(payload & cm & _ & Hs & ->) ->]. split; [|done].
    by eapply message_of_ok.
  - left. by injection Hstep as <- _.
Qed.

(** Induction along the runs from start-up. *)
Lemma reachable_ind (P : World -> Prop) :
  P init ->
  (forall ev w w' r, consistent w -> P w -> step cfg ev w = (w', r) -> P w') ->
  forall evs, P (run cfg evs init).1.
Proof.
  intros H0 Hstep evs.
  assert (forall w, consistent w -> P w -> P (run cfg evs w).1) as Hrun;
    [|apply Hrun; [apply consistent_init|done]].
  induction evs as [|ev evs IH]; intros w Hinv HP; [done|].
  unfold run. simpl. unfold bind.
  destruct (step_consistent ev w Hinv) as (w1 & r1 & Hs & Hinv1 & _).
  rewrite Hs. pose proof (Hstep ev w w1 r1 Hinv HP Hs) as HP1.
  destruct r1 as [[]|e]; [|done]. by apply IH.
Qed.

Lemma counter_nonneg now a w : rate_ok (redis w) -> 0 <= counter now a w.
Proof.
  intros Hr. rewrite (rate_ok_counter cfg) by done. unfold raw_count.
  specialize (Hr a now). destruct (redis w !! rateKey a now) as [[[n|l] [x|]]|]; try done; lia.
Qed.

(** X13. With a limit that is not positive no frame is ever accepted:
    whatever the events, nothing is published and no history is kept. *)
Theorem nonpositive_limit_accepts_nothing (evs : list event) :
  RATE_LIMIT_PER_MIN cfg <= 0 ->
  published (run cfg evs init).1 = [] /\
  forall room, redis (run cfg evs init).1 !! historyKey room = None.
Proof.
  intros HL.
  assert (published (run cfg evs init).1 = []) as Hp.
  { apply (reachable_ind (fun w => published w = [])); [done|].
    intros ev w w' r Hinv Hw Hstep.
    destruct (step_cases ev w w' r Hinv Hstep)
      as [[_ ->]|(s & info & data & now & uuid & out & _ & _ & _ & Hrej & Hout)]; [done|].
    unfold rejection in Hrej.
    pose proof (counter_nonneg now (ip info) w (rate_keys_ok_weaken _ (consistent_rate _ Hinv))).
    destruct (Z.ltb_spec (RATE_LIMIT_PER_MIN cfg) (counter now (ip info) w + 1)); [|lia].
    destruct out; try done. by destruct Hout as [_ ->]. }
  split; [done|]. intros room.
  pose proof (consistent_history _ (reachable_consistent evs) room) as Hh. rewrite Hp in Hh.
  destruct (redis _ !! historyKey room) as [[[n|l] [x|]]|]; try done.
  destruct Hh as (Hne & Hpre & _). by apply prefix_nil_inv in Hpre.
Qed.

Lemma history_after_nonpositive_ttl now l : TTL <= 0 -> history_after now l = None.
Proof.
  intros HT. unfold history_after. destruct (Redis.range _ _ _); [done|].
  by destruct (Z.leb_spec TTL 0); [|lia].
Qed.

(** X12. With a time to live that is not positive every append removes
    the list it has just written: whatever the events, the store holds
    no history, and [loadHistory] answers the empty sequence. Messages
    are published all the same: a frame within the limit that passes
    validation is published on the channel of its room, and leaves no
    history either. *)
Theorem nonpositive_ttl_keeps_no_history (evs : list event) :
  HISTORY_TTL_SECONDS cfg <= 0 ->
  let w := (run cfg evs init).1 in
  (forall room, redis w !! historyKey room = None) /\
  (forall now room, loadHistory cfg now room w = (w, Ret [])) /\
  (forall s info data now uuid payload cm,
      frame_target w s = Some info ->
      counter now (ip info) w + 1 <= RATE_LIMIT_PER_MIN cfg ->
      JSON_parse data = Some payload ->
      safeParse payload = Some cm ->
      let room := ClientMessage.room cm in
      let msg := ChatMessage.mk uuid room (Str.trim (ClientMessage.text cm))
                                (Str.trim (ClientMessage.username cm)) now in
      exists w1,
        step cfg (Frame s data now uuid) w = (w1, Ret tt) /\
        published w1 = published w ++ [(channelFor room, enc msg)] /\
        (forall room', redis w1 !! historyKey room' = None)).
Proof.
  intros HT w.
  assert (forall (w0 : World) s a now msg room,
            (forall room, redis w0 !! historyKey room = None) ->
            redis (accepted_state s a now msg w0) !! historyKey room = None) as Hacc.
  { intros w0 s a now msg room Hinv. unfold accepted_state. simpl.
    rewrite history_after_nonpositive_ttl by done. simpl.
    destruct (decide (historyKey room = historyKey (ChatMessage.room msg))) as [->|Hne].
    - by rewrite lookup_delete_eq.
    - rewrite lookup_delete_ne by done. rewrite tick_other; [done|].
      intros Heq. symmetry in Heq. by apply rateKey_historyKey in Heq. }
  assert (forall room, redis w !! historyKey room = None) as Hnone.
  { apply (reachable_ind (fun w => forall room, redis w !! historyKey room = None)); [done|].
    intros ev w0 w' r Hinv Hw Hstep room.
    destruct (step_cases ev w0 w' r Hinv Hstep)
      as [[-> _]|(s & info & data & now & uuid & out & _ & _ & _ & _ & Hout)]; [done|].
    destruct out as [| | |msg]; try (destruct Hout as [_ ->]; by apply Hacc).
    all: destruct Hout as [-> _]; rewrite tick_other; [done|];
      intros Heq; symmetry in Heq; by apply rateKey_historyKey in Heq. }
  split; [done|]. split.
  { intros now room. apply loadHistory_absent. unfold Redis.get. by rewrite Hnone. }
  intros s info data now uuid payload cm Ht Hc Hp Hs room msg.
  pose proof (reachable_consistent evs) as Hinv. fold w in Hinv.
  pose proof (onMessage_accepts s (ip info) data now uuid w payload cm
                (rate_keys_ok_weaken _ (consistent_rate _ Hinv))
                (consistent_no_counter now _ w (consistent_history _ Hinv)) Hc Hp Hs) as Hrun.
  change (message_of cm now uuid) with msg in Hrun.
  exists (accepted_state s (ip info) now msg w). split; [|split].
  - simpl. rewrite Ht. unfold bind. by rewrite Hrun.
  - done.
  - intros room'. by apply Hacc.
Qed.

(** *** From a frame to the sockets, the history and the list of rooms *)

(** The subscriber, on a payload that decodes. *)
Lemma relay_returns w ch message v :
  matches_pattern ch = true ->
  JSON_parse message = Some v ->
  exists w',
    step cfg (BusMessage ch message) w = (w', Ret tt) /\
    forall s,
      wss_clients w' !! s
      = delivered w (roomOf ch) (stringify_event (EvBroadcast v)) s <$> wss_clients w !! s.
Proof.
  intros Hch Hv. simpl. rewrite Hch. unfold onBusMessage, bind, parse. rewrite Hv. unfold ret.
  destruct (forEach_deliver (roomOf ch) (EvBroadcast v) (map fst (map_to_list (wss_clients w))) w)
    as (m' & Hrun & Hm'); [apply NoDup_fst_map_to_list|].
  eexists. split; [exact Hrun|]. intros s. destruct w as [d p m c li n]. simpl in *.
  rewrite Hm'. destruct (m !! s) as [sock|] eqn:Hs; simpl.
  - rewrite bool_decide_eq_true_2; [done|].
    apply list_elem_of_fmap. exists (s, sock). split; [done|]. by apply elem_of_map_to_list.
  - by destruct (bool_decide _).
Qed.

Lemma frame_target_session w s info :
  frame_target w s = Some info -> clients w !! s = Some info.
Proof.
  unfold frame_target. by destruct (bool_decide (s ∈ listening w) && is_open w s).
Qed.

Lemma is_member_joined w w' s room s' :
  clients w' = joined s room (clients w) ->
  is_Some (clients w !! s) ->
  is_member w' s' room = bool_decide (s' = s) || is_member w s' room.
Proof.
  intros Hc [info Hi]. unfold is_member, joined in *. rewrite Hc, Hi.
  destruct (decide (s' = s)) as [->|Hne].
  - rewrite lookup_insert_eq. rewrite (bool_decide_eq_true_2 (s = s)) by done. simpl.
    apply bool_decide_eq_true_2, elem_of_union. left. by apply elem_of_singleton.
  - rewrite lookup_insert_ne by done. by rewrite (bool_decide_eq_false_2 (s' = s)).
Qed.

(** X8. A frame that a run from start-up has led to, that is within the
    limit and passes validation: the handler publishes the message it
    builds on the channel of the frame's room, with the identifier and
    the clock reading of the server, and makes the sender a member of
    that room; when the subscriber then receives that publication, the
    broadcast event with the message goes once to the sender and to
    every other open socket whose session had the room, and to no other
    socket. *)
Theorem accepted_frame_is_echoed
    (evs : list event) (s : nat) (info : ClientInfo) (data : string) (now : Z) (uuid : string)
    (payload : json) (cm : ClientMessage.t) :
  let w := (run cfg evs init).1 in
  frame_target w s = Some info ->
  counter now (ip info) w + 1 <= RATE_LIMIT_PER_MIN cfg ->
  JSON_parse data = Some payload ->
  safeParse payload = Some cm ->
  let room := ClientMessage.room cm in
  let msg := ChatMessage.mk uuid room (Str.trim (ClientMessage.text cm))
                            (Str.trim (ClientMessage.username cm)) now in
  let event := stringify_event (EvBroadcast (ChatMessage.to_json msg)) in
  exists w1 w2,
    step cfg (Frame s data now uuid) w = (w1, Ret tt) /\
    published w1 = published w ++ [(channelFor room, enc msg)] /\
    rooms <$> clients w1 !! s = Some ({[ room ]} ∪ rooms info) /\
    step cfg (BusMessage (channelFor room) (enc msg)) w1 = (w2, Ret tt) /\
    (exists sock, wss_clients w !! s = Some sock /\
                  wss_clients w2 !! s = Some (mkSocket OPEN (sent sock ++ [event]))) /\
    forall s',
      wss_clients w2 !! s' =
        (fun sock =>
           if (bool_decide (s' = s) || is_member w s' room)
              && bool_decide (readyState sock = OPEN)
           then mkSocket OPEN (sent sock ++ [event])
           else sock) <$> wss_clients w !! s'.
Proof.
  intros w Ht Hc Hp Hs room msg event.
  pose proof (reachable_consistent evs) as Hinv. fold w in Hinv.
  pose proof (frame_target_session w s info Ht) as Hi.
  destruct (frame_target_open w s info Ht) as (sock & Hsock & Hopen).
  pose proof (onMessage_accepts s (ip info) data now uuid w payload cm
                (rate_keys_ok_weaken _ (consistent_rate _ Hinv))
                (consistent_no_counter now _ w (consistent_history _ Hinv)) Hc Hp Hs) as Hrun.
  change (message_of cm now uuid) with msg in Hrun.
  set (w1 := accepted_state s (ip info) now msg w) in *.
  destruct (relay_returns w1 (channelFor room) (enc msg) (ChatMessage.to_json msg)
              (matches_channelFor room) (JSON_parse_stringify _)) as (w2 & Hrelay & Hsocks).
  assert (forall s',
             wss_clients w2 !! s' =
               (fun sock =>
                  if (bool_decide (s' = s) || is_member w s' room)
                     && bool_decide (readyState sock = OPEN)
                  then mkSocket OPEN (sent sock ++ [event])
                  else sock) <$> wss_clients w !! s') as Hall.
  { intros s'. rewrite Hsocks, roomOf_channelFor. unfold delivered.
    rewrite (is_member_joined w w1 s room s') by (done || by eexists). done. }
  exists w1, w2. split; [|split; [|split; [|split; [|split]]]].
  - simpl. rewrite Ht. unfold bind. by rewrite Hrun.
  - done.
  - unfold w1, accepted_state, joined. simpl. rewrite Hi. by rewrite lookup_insert_eq.
  - done.
  - exists sock. split; [done|]. rewrite Hall, Hsock. simpl.
    by rewrite !bool_decide_eq_true_2.
  - done.
Qed.

Lemma enc_inj m m' : enc m = enc m' -> m = m'.
Proof.
  intros Heq. pose proof (JSON_parse_stringify (ChatMessage.to_json m)) as H1.
  pose proof (JSON_parse_stringify (ChatMessage.to_json m')) as H2.
  unfold enc in Heq. rewrite Heq in H1. rewrite H1 in H2.
  destruct m, m'. by injection H2 as -> -> -> -> ->.
Qed.

Lemma enc_fmap_inj (l l' : list ChatMessage.t) : enc <$> l = enc <$> l' -> l = l'.
Proof. apply (list_fmap_eq_inj enc). intros m m'. apply enc_inj. Qed.

(** X9. A message that the handler has accepted at time [now], with a
    cap of at least one entry and a positive time to live: until
    [now] plus the time to live, [loadHistory] of its room answers a
    sequence whose last message it is, and [GET /rooms] lists the room;
    after that time, unless another message has come, [loadHistory]
    answers the empty sequence and the room is not listed. *)
Theorem accepted_message_kept_for_ttl
    (evs : list event) (s : nat) (info : ClientInfo) (data : string) (now : Z) (uuid : string)
    (payload : json) (cm : ClientMessage.t) (later : Z) :
  1 <= HISTORY_SIZE cfg ->
  0 < HISTORY_TTL_SECONDS cfg ->
  let w := (run cfg evs init).1 in
  frame_target w s = Some info ->
  counter now (ip info) w + 1 <= RATE_LIMIT_PER_MIN cfg ->
  JSON_parse data = Some payload ->
  safeParse payload = Some cm ->
  let room := ClientMessage.room cm in
  let msg := ChatMessage.mk uuid room (Str.trim (ClientMessage.text cm))
                            (Str.trim (ClientMessage.username cm)) now in
  let w1 := (step cfg (Frame s data now uuid) w).1 in
  (later <= now + HISTORY_TTL_SECONDS cfg * 1000 ->
     (exists older,
         loadHistory cfg later room w1 = (w1, Ret (older ++ [ChatMessage.to_json msg])) /\
         (length older < Z.to_nat (HISTORY_SIZE cfg))%nat) /\
     (exists rs body, getRooms later w1 = (w1, Ret (rs, body)) /\ room ∈ rs)) /\
  (now + HISTORY_TTL_SECONDS cfg * 1000 < later ->
     loadHistory cfg later room w1 = (w1, Ret []) /\
     (exists rs body, getRooms later w1 = (w1, Ret (rs, body)) /\ room ∉ rs)).
Proof.
  intros HN HT w Ht Hc Hp Hs room msg w1.
  pose proof (reachable_consistent evs) as Hinv. fold w in Hinv.
  pose proof (onMessage_accepts s (ip info) data now uuid w payload cm
                (rate_keys_ok_weaken _ (consistent_rate _ Hinv))
                (consistent_no_counter now _ w (consistent_history _ Hinv)) Hc Hp Hs) as Hrun.
  change (message_of cm now uuid) with msg in Hrun.
  assert (w1 = accepted_state s (ip info) now msg w) as Hw1.
  { unfold w1. simpl. rewrite Ht. unfold bind. by rewrite Hrun. }
  assert (consistent w1) as Hinv1.
  { rewrite Hw1. apply consistent_accepted; [done|]. by eapply (message_of_ok payload cm). }
  assert (redis w1 !! historyKey room
          = Some (Redis.mk (Redis.List (take (Z.to_nat (HISTORY_SIZE cfg))
                                             (enc msg :: stored now room w)))
                           (Some (now + HISTORY_TTL_SECONDS cfg * 1000)))) as Hkey.
  { rewrite Hw1. unfold accepted_state. simpl. rewrite put_eq.
    by apply history_after_cap. }
  assert (exists k, Z.to_nat (HISTORY_SIZE cfg) = S k) as [k Hk]
    by (exists (Z.to_nat (HISTORY_SIZE cfg - 1)); lia).
  split.
  - intros Hlater.
    assert (Redis.get later (historyKey room) (redis w1)
            = Some (Redis.mk (Redis.List (enc msg :: take k (stored now room w)))
                             (Some (now + HISTORY_TTL_SECONDS cfg * 1000)))) as Hget.
    { unfold Redis.get. rewrite Hkey, Hk. unfold Redis.live. simpl.
      by destruct (Z.leb_spec later (now + HISTORY_TTL_SECONDS cfg * 1000)); [|lia]. }
    split.
    + destruct (loadHistory_returns later room w1 Hinv1) as (ms & Hload & _ & Hraw).
      unfold stored in Hraw. rewrite Hget in Hraw.
      rewrite range_prefix in Hraw by done.
      assert ((length ms <= Z.to_nat (HISTORY_SIZE cfg))%nat) as Hlen.
      { apply (f_equal length) in Hraw.
        rewrite length_fmap, length_reverse, length_take in Hraw. unfold N in Hraw. lia. }
      unfold N in Hraw. rewrite Hk in Hraw. simpl in Hraw.
      destruct (reverse ms) as [|m0 ms0] eqn:Hrev; [done|].
      rewrite fmap_cons in Hraw. injection Hraw as Hm0 _. apply enc_inj in Hm0 as ->.
      assert (ms = reverse ms0 ++ [msg]) as ->.
      { rewrite <- (reverse_involutive ms), Hrev. by rewrite reverse_cons. }
      exists (ChatMessage.to_json <$> reverse ms0). rewrite Hload, fmap_app. split; [done|].
      rewrite length_fmap. rewrite length_app in Hlen. simpl in Hlen. lia.
    + rewrite getRooms_unfold. eexists _, _. split; [done|].
      apply elem_of_history_rooms. rewrite Hget. by eexists.
  - intros Hlater.
    assert (Redis.get later (historyKey room) (redis w1) = None) as Hget.
    { unfold Redis.get. rewrite Hkey. unfold Redis.live. simpl.
      by destruct (Z.leb_spec later (now + HISTORY_TTL_SECONDS cfg * 1000)); [lia|]. }
    split; [by apply loadHistory_absent|].
    rewrite getRooms_unfold. eexists _, _. split; [done|].
    rewrite elem_of_history_rooms, Hget. by intros [? ?].
Qed.

(** *** One room's history and the others *)

Lemma parse_all_result raw w w' : (parse_all raw w).2 = (parse_all raw w').2.
Proof.
  induction raw as [|x raw IH]; simpl; [done|].
  unfold bind, parse. destruct (JSON_parse x); unfold ret, throw; [|done].
  destruct (parse_all raw w) as [w1 [vs|e]], (parse_all raw w') as [w2 [vs'|e']];
    simpl in *; congruence.
Qed.

(** The answer of [loadHistory] depends on the room's key only. *)
Lemma loadHistory_key now room w w' :
  redis w' !! historyKey room = redis w !! historyKey room ->
  (loadHistory cfg now room w').2 = (loadHistory cfg now room w).2.
Proof.
  intros Hk. rewrite !loadHistory_unfold. unfold Redis.lRange, Redis.get. rewrite Hk.
  destruct (redis w !! historyKey room) as [[[n|l] e]|]; simpl; try done.
  - by destruct (Redis.live now _).
  - destruct (Redis.live now _); [|done].
    pose proof (parse_all_result (Redis.range l 0 (HISTORY_SIZE cfg - 1)) w w') as Hp.
    destruct (parse_all _ w) as [w1 [vs|e1]], (parse_all _ w') as [w2 [vs'|e2]];
      simpl in *; congruence.
Qed.

Lemma onMessage_other_history other s a data now uuid :
  (forall payload cm,
      JSON_parse data = Some payload -> safeParse payload = Some cm ->
      ClientMessage.room cm <> other) ->
  respects (same (fun w => redis w !! historyKey other)) (onMessage cfg s a data now uuid).
Proof.
  intros Hother. unfold onMessage.
  assert (historyKey other <> rateKey a now) as Hne.
  { intros Heq. symmetry in Heq. by apply rateKey_historyKey in Heq. }
  apply respects_bind; [apply _ | | intros c].
  { apply on_redis_key. intros d. by apply incr_other. }
  apply respects_bind; [apply _ | | intros _].
  { destruct (c =? 1); [|apply respects_ret; apply _].
    apply on_redis_key. intros d. by apply expire_other. }
  destruct (RATE_LIMIT_PER_MIN cfg <? c).
  { apply respects_bind; [apply _ | by apply send_same | intros _].
    apply respects_ret; apply _. }
  unfold process. destruct (JSON_parse data) as [payload|].
  - destruct (safeParse payload) as [[room text username]|] eqn:Hs.
    + apply respects_bind; [apply _ | by apply join_same | intros _].
      apply respects_bind; [apply _ | | intros _].
      { apply pushHistory_key. intros Heq. apply historyKey_inj in Heq.
        by apply (Hother payload (ClientMessage.mk room text username)). }
      apply respects_bind; [apply _ | by apply publish_same | intros _].
      apply respects_ret; apply _.
    + apply respects_bind; [apply _ | by apply send_same | intros _].
      apply respects_ret; apply _.
  - apply respects_bind; [apply _ | by apply send_same | intros _].
    apply respects_ret; apply _.
Qed.

(** X10. A frame changes the history of the room it names and of no
    other: in any state, whatever the frame holds and however the
    handler ends, the key of a room that the frame does not name holds
    what it held, and [loadHistory] of that room answers as before. *)
Theorem frame_leaves_other_histories
    (w w' : World) (s : nat) (a data : string) (now : Z) (uuid : string) (r : res outcome)
    (other : string) :
  onMessage cfg s a data now uuid w = (w', r) ->
  (forall payload cm,
      JSON_parse data = Some payload -> safeParse payload = Some cm ->
      ClientMessage.room cm <> other) ->
  redis w' !! historyKey other = redis w !! historyKey other /\
  forall t,
    stored t other w' = stored t other w /\
    (loadHistory cfg t other w').2 = (loadHistory cfg t other w).2.
Proof.
  intros Hrun Hother.
  pose proof (onMessage_other_history other s a data now uuid Hother w w' r Hrun) as Hk.
  unfold same in Hk. split; [done|]. intros t. split.
  - unfold stored, Redis.get. by rewrite Hk.
  - by apply loadHistory_key.
Qed.

(** *** A cap of zero *)

(** The history keys after the appends [ps], made within one time to
    live after [lo], when nothing is cut: every list is the wire form
    of all that was appended to its room, latest first. *)
Definition history_uncut (lo : Z) (ps : list (Z * string * ChatMessage.t)) (w : World) : Prop :=
  forall r,
    match redis w !! historyKey r with
    | None => appended r ps = []
    | Some (Redis.mk (Redis.List l) (Some e)) =>
        lo + TTL * 1000 <= e /\ l = enc <$> reverse (appended r ps)
    | Some _ => False
    end.

Lemma history_after_uncut now l :
  N = 0 -> 0 < TTL -> l <> [] ->
  history_after now l = Some (Redis.mk (Redis.List l) (Some (now + TTL * 1000))).
Proof.
  intros HN HT Hl. unfold history_after. rewrite HN, range_whole.
  destruct (Z.leb_spec TTL 0); [lia|]. by destruct l.
Qed.

Lemma history_uncut_push lo pre t r m w :
  N = 0 -> 0 < TTL ->
  lo <= t < lo + TTL * 1000 ->
  history_uncut lo pre w ->
  exists w', pushHistory cfg t r m w = (w', Ret tt) /\
             history_uncut lo (pre ++ [(t, r, m)]) w'.
Proof.
  intros HN HT Ht Hinv.
  assert (~ holds_counter t (historyKey r) w) as Hty.
  { intros (n & e & Hget). apply get_live in Hget as [Hl _].
    specialize (Hinv r). by rewrite Hl in Hinv. }
  eexists. split; [by apply pushHistory_any|].
  rewrite history_after_uncut by done.
  intros r'. simpl. rewrite appended_app. simpl.
  destruct (String.eqb_spec r r') as [<-|Hne].
  - rewrite lookup_insert_eq. split; [lia|].
    rewrite reverse_snoc, fmap_cons. f_equal.
    unfold stored, Redis.get. specialize (Hinv r).
    destruct (redis w !! historyKey r) as [[[n|l] [e|]]|] eqn:Hl; try done.
    + destruct Hinv as [He ->]. unfold Redis.live. simpl.
      by destruct (Z.leb_spec t e); [|lia].
    + by rewrite Hinv.
  - rewrite lookup_insert_ne by (intros Heq; by apply historyKey_inj in Heq).
    rewrite app_nil_r. apply Hinv.
Qed.

(** X11. With [HISTORY_SIZE] 0 the ranks kept are 0 to -1, which is the
    whole list: nothing is ever cut. After any appends made within one
    time to live, on a store without history, [loadHistory] answers all
    the messages appended to the room, oldest first, however many. *)
Theorem zero_cap_keeps_every_message
    (lo now : Z) (room : string) (ps : list (Z * string * ChatMessage.t)) (w : World) :
  HISTORY_SIZE cfg = 0 ->
  0 < HISTORY_TTL_SECONDS cfg ->
  (forall r, redis w !! historyKey r = None) ->
  (forall p, p ∈ ps -> lo <= p.1.1 < lo + HISTORY_TTL_SECONDS cfg * 1000) ->
  now < lo + HISTORY_TTL_SECONDS cfg * 1000 ->
  exists w',
    pushAll cfg ps w = (w', Ret tt) /\
    stored now room w' = enc <$> reverse (appended room ps) /\
    loadHistory cfg now room w' = (w', Ret (ChatMessage.to_json <$> appended room ps)).
Proof.
  intros HN HT Hempty Hps Hnow.
  assert (forall qs pre w0,
             (forall p, p ∈ qs -> lo <= p.1.1 < lo + TTL * 1000) ->
             history_uncut lo pre w0 ->
             exists w', pushAll cfg qs w0 = (w', Ret tt) /\ history_uncut lo (pre ++ qs) w')
    as Hall.
  { induction qs as [|[[t r] m] qs IH]; intros pre w0 Hqs Hinv.
    - exists w0. rewrite app_nil_r. by split.
    - destruct (history_uncut_push lo pre t r m w0 HN HT) as (w1 & Hpush & Hinv1); [|done|].
      { apply (Hqs (t, r, m)). apply elem_of_cons. by left. }
      destruct (IH (pre ++ [(t, r, m)]) w1) as (w' & Hrun & Hinv'); [|done|].
      { intros p Hp. apply Hqs. apply elem_of_cons. by right. }
      exists w'. split.
      + unfold pushAll. simpl. unfold bind. simpl in Hpush. by rewrite Hpush.
      + by rewrite <- app_assoc in Hinv'. }
  destruct (Hall ps [] w Hps) as (w' & Hrun & Hinv).
  { intros r. by rewrite Hempty. }
  exists w'. split; [done|]. specialize (Hinv room). simpl in Hinv.
  assert (stored now room w' = enc <$> reverse (appended room ps)) as Hst.
  { unfold stored, Redis.get.
    destruct (redis w' !! historyKey room) as [[[n|l] [e|]]|]; try done.
    - destruct Hinv as [He ->]. unfold Redis.live. simpl.
      by destruct (Z.leb_spec now e); [|unfold TTL in *; lia].
    - by rewrite Hinv. }
  split; [done|].
  rewrite loadHistory_unfold. unfold Redis.lRange. unfold stored in Hst.
  destruct (Redis.get now (historyKey room) (redis w')) as [[[n|l] e]|] eqn:Hget.
  - apply get_live in Hget as [Hk _]. rewrite Hk in Hinv. by destruct e.
  - rewrite Hst, HN, range_whole, enc_fmap, parse_all_enc.
    by rewrite fmap_reverse, reverse_involutive.
  - simpl. symmetry in Hst. apply fmap_nil_inv in Hst.
    rewrite <- (reverse_involutive (appended room ps)), Hst. done.
Qed.

(** *** The list of rooms *)

(** X14. [GET /rooms], in any state and at any time: the handler
    returns and leaves the state as it is; the rooms it lists are the
    rooms whose history key is there at that time, each once; the body
    is the object with these rooms under ["rooms"]. *)
Theorem rooms_lists_live_histories (w : World) (now : Z) :
  exists rs,
    getRooms now w = (w, Ret (rs, JSON_stringify (JObj [("rooms", JArr (JStr <$> rs))]))) /\
    NoDup rs /\
    forall room, room ∈ rs <-> is_Some (Redis.get now (historyKey room) (redis w)).
Proof.
  exists (history_rooms now (redis w)). split; [apply getRooms_unfold|].
  split; [apply history_rooms_NoDup|]. intros room. apply elem_of_history_rooms.
Qed.

(** X15. In a run from start-up, a room that [GET /rooms] lists is one
    that a message was published to: its name is not empty, and the
    log of publications has a message of that room on its channel. No
    room is listed before a frame for it has been accepted, the default
    room included; rate keys are never taken for rooms. *)
Theorem listed_rooms_were_published_to
    (evs : list event) (now : Z) (rs : list string) (body room : string) :
  let w := (run cfg evs init).1 in
  getRooms now w = (w, Ret (rs, body)) ->
  room ∈ rs ->
  1 <= Str.length room /\
  exists m, ChatMessage.room m = room /\ (channelFor room, enc m) ∈ published w.
Proof.
  intros w Hget Hin. pose proof (reachable_consistent evs) as Hinv. fold w in Hinv.
  rewrite getRooms_unfold in Hget. injection Hget as <- _.
  apply elem_of_history_rooms in Hin as [e He]. apply get_live in He as [Hk _].
  pose proof (consistent_history w Hinv room) as Hh. rewrite Hk in Hh.
  destruct e as [[n|l] [x|]]; try done. destruct Hh as (_ & Hpre & _).
  destruct (consistent_stored room w l (Some x) Hinv Hk) as (ms & -> & Hne & Hms).
  destruct ms as [|m ms]; [done|]. apply Forall_cons in Hms as [[Hroom Hok] _].
  split; [rewrite <- Hroom; by destruct Hok|].
  exists m. split; [done|].
  assert (enc m ∈ publications room (published w)) as Hpub.
  { apply elem_of_reverse. destruct Hpre as [k ->]. rewrite fmap_cons.
    apply elem_of_cons. by left. }
  unfold publications in Hpub. apply list_elem_of_omap in Hpub as ([ch v] & Hlog & Hv).
  simpl in Hv. destruct (decide (ch = channelFor room)) as [->|Hne'].
  - rewrite bool_decide_eq_true_2 in Hv by done. by injection Hv as ->.
  - by rewrite bool_decide_eq_false_2 in Hv.
Qed.

(** *** Sockets that are closing or closed *)

(** Socket [s] has been accepted and is not OPEN: it is closing, or it
    has left [wss.clients]. *)
Definition not_open (s : nat) (w : World) : Prop :=
  (s < next_ws w)%nat /\
  match wss_clients w !! s with
  | Some sock => readyState sock <> OPEN
  | None => True
  end.

(** From [w] to [w'] a socket that is not OPEN stays so, and is as it
    was or has left [wss.clients]. *)
Definition left_alone (s : nat) (w w' : World) : Prop :=
  not_open s w ->
  not_open s w' /\
  (wss_clients w' !! s = wss_clients w !! s \/ wss_clients w' !! s = None).

#[local] Instance left_alone_refl s : Reflexive (left_alone s).
Proof. intros w H. split; [done|by left]. Qed.

#[local] Instance left_alone_trans s : Transitive (left_alone s).
Proof.
  intros w1 w2 w3 H12 H23 H1.
  destruct (H12 H1) as [H2 Hs2]. destruct (H23 H2) as [H3 Hs3].
  split; [done|]. destruct Hs3 as [Hs3|Hs3]; [|by right].
  rewrite Hs3. exact Hs2.
Qed.

Lemma same_left_alone s w w' :
  same (fun w => (wss_clients w, next_ws w)) w w' -> left_alone s w w'.
Proof.
  intros [= Hm Hn] [Hlt Hs]. unfold not_open. rewrite Hm, Hn. split; [done|by left].
Qed.

Lemma quiet_left_alone {A} s (m : M A) :
  respects (same (fun w => (wss_clients w, next_ws w))) m -> respects (left_alone s) m.
Proof. apply respects_weaken, same_left_alone. Qed.

Lemma send_left_alone s s' data : respects (left_alone s) (send s' data).
Proof.
  intros w w' r. unfold send.
  destruct (wss_clients w !! s') as [[st out]|] eqn:Hs';
    [|intros [= <- _]; reflexivity].
  destruct st; simpl; intros [= <- _]; try reflexivity.
  intros [Hlt Hs]. destruct (decide (s = s')) as [->|Hne].
  - rewrite Hs' in Hs. by simpl in Hs.
  - unfold not_open. simpl. rewrite lookup_insert_ne by done. split; [done|by left].
Qed.

Lemma deliver_left_alone s room payload s' : respects (left_alone s) (deliver room payload s').
Proof.
  intros w w' r. rewrite deliver_spec. intros [= <- _] [Hlt Hs].
  unfold not_open. simpl. destruct (wss_clients w !! s') as [sock'|] eqn:Hs'; [|by split; [|left]].
  destruct (decide (s = s')) as [->|Hne].
  - rewrite Hs' in Hs. rewrite lookup_insert_eq. unfold delivered.
    rewrite (bool_decide_eq_false_2 (readyState sock' = OPEN)) by done.
    rewrite andb_false_r. rewrite Hs'. split; [done|by left].
  - rewrite lookup_insert_ne by done. split; [done|by left].
Qed.

Lemma onMessage_left_alone s s' a data now uuid :
  respects (left_alone s) (onMessage cfg s' a data now uuid).
Proof.
  unfold onMessage.
  apply respects_bind; [apply _ | apply quiet_left_alone; by apply on_redis_same | intros c].
  apply respects_bind; [apply _ | | intros _].
  { destruct (c =? 1); apply quiet_left_alone;
      [by apply on_redis_same | apply respects_ret; apply _]. }
  destruct (RATE_LIMIT_PER_MIN cfg <? c).
  { apply respects_bind; [apply _ | apply send_left_alone | intros _].
    apply respects_ret; apply _. }
  unfold process. destruct (JSON_parse data) as [payload|].
  - destruct (safeParse payload) as [[room text username]|].
    + apply respects_bind; [apply _ | apply quiet_left_alone; by apply join_same | intros _].
      apply respects_bind;
        [apply _ | apply quiet_left_alone; by apply pushHistory_same | intros _].
      apply respects_bind;
        [apply _ | apply quiet_left_alone; by apply publish_same | intros _].
      apply respects_ret; apply _.
    + apply respects_bind; [apply _ | apply send_left_alone | intros _].
      apply respects_ret; apply _.
  - apply respects_bind; [apply _ | apply send_left_alone | intros _].
    apply respects_ret; apply _.
Qed.

Lemma step_left_alone s ev : respects (left_alone s) (step cfg ev).
Proof.
  destruct ev as [f ra now|s' data now uuid|s'|s'|ch message]; simpl.
  - intros w w' r. unfold bind at 1. unfold accept.
    set (w1 := mkWorld _ _ _ _ _ _). intros Hrun Hno.
    assert (not_open s w1 /\ wss_clients w1 !! s = wss_clients w !! s) as [Hno1 Hs1].
    { destruct Hno as [Hlt Hs]. unfold not_open, w1. simpl.
      rewrite lookup_insert_ne by lia. split; [split; [lia|done]|done]. }
    assert (left_alone s w1 w') as Hla.
    { revert Hrun. unfold onConnection.
      apply respects_bind; [apply _ | | intros _].
      { apply quiet_left_alone. by intros w2 w3 r3 [= <- _]. }
      apply respects_bind; [apply _ | apply quiet_left_alone, loadHistory_same | intros h].
      apply respects_bind; [apply _ | apply send_left_alone | intros _].
      apply respects_bind; [apply _ | apply send_left_alone | intros _].
      apply quiet_left_alone. by intros w2 w3 r3 [= <- _]. }
    destruct (Hla Hno1) as [Hno' Hs']. split; [done|]. by rewrite <- Hs1.
  - intros w w' r. destruct (frame_target w s') as [info|];
      [|intros [= <- _]; reflexivity].
    apply respects_bind; [apply _ | apply onMessage_left_alone | intros _].
    apply respects_ret; apply _.
  - intros w w' r. unfold closing.
    destruct (wss_clients w !! s') as [[st out]|] eqn:Hs';
      [|intros [= <- _]; reflexivity].
    destruct st; intros [= <- _]; try reflexivity.
    intros [Hlt Hs]. destruct (decide (s = s')) as [->|Hne].
    + rewrite Hs' in Hs. by simpl in Hs.
    + unfold not_open. simpl. rewrite lookup_insert_ne by done. split; [done|by left].
  - intros w w' r. unfold closed, bind, onClose.
    assert (forall w2, wss_clients w2 = delete s' (wss_clients w) -> next_ws w2 = next_ws w ->
                       left_alone s w w2) as Hdel.
    { intros w2 Hm Hn [Hlt Hs]. unfold not_open. rewrite Hm, Hn.
      destruct (decide (s = s')) as [->|Hne].
      - rewrite lookup_delete_eq. split; [done|by right].
      - rewrite lookup_delete_ne by done. split; [done|by left]. }
    destruct (bool_decide _); intros [= <- _]; by apply Hdel.
  - destruct (matches_pattern ch); [|apply respects_ret; apply _].
    unfold onBusMessage.
    apply respects_bind; [apply _ | apply quiet_left_alone, parse_same | intros v].
    intros w1 w2 r2. apply respects_forEach; try apply _.
    intros x. apply deliver_left_alone.
Qed.

Lemma run_left_alone s evs : respects (left_alone s) (run cfg evs).
Proof. apply respects_forEach; try apply _. apply step_left_alone. Qed.

(** X16. A socket that is no longer OPEN - its closing handshake has
    started, or it is closed and has left [wss.clients] - is sent
    nothing more, whatever events follow and however the run ends: it
    is as it was, frames sent included, or it is gone. *)
Theorem socket_not_open_is_sent_nothing
    (w w' : World) (evs : list event) (r : res unit) (s : nat) :
  (s < next_ws w)%nat ->
  (forall sock, wss_clients w !! s = Some sock -> readyState sock <> OPEN) ->
  run cfg evs w = (w', r) ->
  (wss_clients w' !! s = wss_clients w !! s \/ wss_clients w' !! s = None) /\
  (forall sock, wss_clients w' !! s = Some sock -> readyState sock <> OPEN).
Proof.
  intros Hlt Hs Hrun.
  assert (not_open s w) as Hno.
  { split; [done|]. destruct (wss_clients w !! s) as [sock|]; [by apply Hs|done]. }
  destruct (run_left_alone s evs w w' r Hrun Hno) as [[_ Hno'] Hsame]. split; [done|].
  intros sock Hsock. by rewrite Hsock in Hno'.
Qed.

(** *** The address of a session *)

(** Socket [s] has been accepted, and its session, if it has one, is
    the session of socket [s] at address [a]. *)
Definition at_address (s : nat) (a : string) (w : World) : Prop :=
  (s < next_ws w)%nat /\
  match clients w !! s with
  | Some info => ws info = s /\ ip info = a
  | None => True
  end.

Lemma quiet_at_address {A} s a (m : M A) :
  respects (same (fun w => (clients w, next_ws w))) m -> respects (keeps (at_address s a)) m.
Proof.
  apply respects_weaken. intros w w' [= Hc Hn] H. unfold at_address. by rewrite Hc, Hn.
Qed.

Lemma join_at_address s a s' room : respects (keeps (at_address s a)) (join s' room).
Proof.
  intros w w' r. rewrite join_joined. intros [= <- _] [Hlt Hs].
  unfold at_address, joined. simpl. split; [done|].
  destruct (clients w !! s') as [info'|] eqn:Hs'; [|done].
  destruct (decide (s = s')) as [->|Hne].
  - rewrite lookup_insert_eq. simpl. by rewrite Hs' in Hs.
  - by rewrite lookup_insert_ne.
Qed.

Lemma onMessage_at_address s a s' a' data now uuid :
  respects (keeps (at_address s a)) (onMessage cfg s' a' data now uuid).
Proof.
  unfold onMessage.
  apply respects_bind; [apply _ | apply quiet_at_address; by apply on_redis_same | intros c].
  apply respects_bind; [apply _ | | intros _].
  { destruct (c =? 1); apply quiet_at_address;
      [by apply on_redis_same | apply respects_ret; apply _]. }
  destruct (RATE_LIMIT_PER_MIN cfg <? c).
  { apply respects_bind; [apply _ | apply quiet_at_address; by apply send_same | intros _].
    apply respects_ret; apply _. }
  unfold process. destruct (JSON_parse data) as [payload|].
  - destruct (safeParse payload) as [[room text username]|].
    + apply respects_bind; [apply _ | apply join_at_address | intros _].
      apply respects_bind;
        [apply _ | apply quiet_at_address; by apply pushHistory_same | intros _].
      apply respects_bind;
        [apply _ | apply quiet_at_address; by apply publish_same | intros _].
      apply respects_ret; apply _.
    + apply respects_bind; [apply _ | apply quiet_at_address; by apply send_same | intros _].
      apply respects_ret; apply _.
  - apply respects_bind; [apply _ | apply quiet_at_address; by apply send_same | intros _].
    apply respects_ret; apply _.
Qed.

Lemma step_at_address s a ev : respects (keeps (at_address s a)) (step cfg ev).
Proof.
  destruct ev as [f ra now|s' data now uuid|s'|s'|ch message]; simpl.
  - intros w w' r. unfold bind at 1. unfold accept. intros Hrun [Hlt Hs].
    apply onConnection_clients in Hrun as [Hc Hn]. simpl in *.
    unfold at_address. rewrite Hc, Hn. simpl. split; [lia|].
    by rewrite lookup_insert_ne by lia.
  - intros w w' r. destruct (frame_target w s') as [info|];
      [|intros [= <- _]; reflexivity].
    apply respects_bind; [apply _ | apply onMessage_at_address | intros _].
    apply respects_ret; apply _.
  - apply quiet_at_address. intros w w' r. unfold closing.
    destruct (wss_clients w !! s') as [[[] out]|]; by intros [= <- _].
  - intros w w' r. unfold closed, bind, onClose.
    destruct (bool_decide _); intros [= <- _] [Hlt Hs]; unfold at_address; simpl;
      (split; [done|]); [|done].
    destruct (decide (s = s')) as [->|Hne].
    + by rewrite lookup_delete_eq.
    + by rewrite lookup_delete_ne.
  - destruct (matches_pattern ch); [|apply respects_ret; apply _].
    apply quiet_at_address, onBusMessage_quiet.
Qed.

(** X18. The session of a connection carries the address decided when
    the connection was made - the [x-forwarded-for] header if the
    request has one, else the address of the socket, else ["unknown"] -
    and keeps it: whatever events follow, and however the run ends, the
    session of that socket, as long as there is one, is the session of
    that socket at that address. *)
Theorem session_address_is_fixed
    (evs evs' : list event) (f ra : option string) (now : Z) :
  let w := (run cfg evs init).1 in
  let s := next_ws w in
  let a := match f, ra with
           | Some h, _ => h
           | None, Some x => x
           | None, None => "unknown"%string
           end in
  let w1 := (step cfg (Connect f ra now) w).1 in
  clients w1 !! s = Some (mkInfo s {[ DEFAULT_ROOM cfg ]} a) /\
  forall info,
    clients (run cfg evs' w1).1 !! s = Some info -> ws info = s /\ ip info = a.
Proof.
  intros w s a w1.
  assert (clients w1 !! s = Some (mkInfo s {[ DEFAULT_ROOM cfg ]} a) /\
          next_ws w1 = S s) as [Hc Hn].
  { unfold w1. destruct (step cfg (Connect f ra now) w) as [w2 r2] eqn:Hstep.
    simpl in Hstep. unfold bind at 1 in Hstep. unfold accept in Hstep.
    apply onConnection_clients in Hstep as [Hc2 Hn2]. simpl in *. rewrite Hc2, Hn2. fold s.
    rewrite lookup_insert_eq. split; [|done]. unfold client_ip, a.
    by destruct f, ra. }
  split; [done|]. intros info Hi.
  assert (at_address s a w1) as Hat.
  { split; [lia|]. by rewrite Hc. }
  assert (respects (keeps (at_address s a)) (run cfg evs')) as Hrun.
  { apply respects_forEach; try apply _. apply step_at_address. }
  destruct (Hrun w1 (run cfg evs' w1).1 ((run cfg evs' w1).2)) as [_ Hat'];
    [apply surjective_pairing|done|].
  by rewrite Hi in Hat'.
Qed.

End Reachable.

(** ** The connection handler and the handlers that run while it waits

    The process of [perform] and [schedule]: what a new connection is
    sent, and what is left of a socket that closes. *)

Section Interleaving.

Context (cfg : Config) {codec : JSON}.

Let N := HISTORY_SIZE cfg.

(** The handler of [step] is the two parts with nothing in between,
    and a connection of [step] is an arrival that is resumed at
    once. *)
Lemma onConnection_parts s f ra now w :
  onConnection cfg s f ra now w =
    (_ <- onConnection_start cfg s f ra ;
     fun w1 =>
       onConnection_resume cfg s
         (Redis.lRange now (historyKey (DEFAULT_ROOM cfg)) 0 (HISTORY_SIZE cfg - 1) (redis w1))
         w1) w.
Proof.
  unfold onConnection, onConnection_start, onConnection_resume, bind at 1 5.
  set (w1 := set_clients _ w). unfold bind at 1. unfold loadHistory, bind at 1.
  unfold lRange, on_redis.
  assert (forall d : gmap string Redis.entry, d = redis w1 -> set_redis (fun _ => d) w1 = w1)
    as Hid by (intros d ->; by destruct w1).
  destruct (Redis.lRange _ _ _ _ _) as [raw|e]; rewrite Hid by done; [|done].
  unfold bind, ret. by destruct (parse_all raw w1) as [w2 [vs|e]].
Qed.

Lemma connect_is_arrive_then_resume f ra now p :
  schedule cfg [Arrive f ra now; Resume (next_ws (world p))] p =
    (mkProcess (step cfg (Connect f ra now) (world p)).1 (delete (next_ws (world p)) (awaiting p)),
     (step cfg (Connect f ra now) (world p)).2).
Proof.
  simpl. unfold bind at 1 2. unfold accept. simpl.
  rewrite lookup_insert_eq, delete_insert_eq, onConnection_parts.
  unfold bind, onConnection_start. simpl.
  by destruct (onConnection_resume cfg _ _ _) as [w2 [[]|e]].
Qed.

(** *** What the handlers leave alone, once more *)

(** What the sockets, the sessions and the handlers are. *)
Definition shape (w : World) : gmap nat WebSocket * gmap nat ClientInfo * gset nat * nat :=
  (wss_clients w, clients w, listening w, next_ws w).

Lemma quiet_respects {A} (R : World -> World -> Prop) (m : M A) :
  (forall w w', same shape w w' -> R w w') -> respects (same shape) m -> respects R m.
Proof. apply respects_weaken. Qed.

Lemma parse_all_respects R `{!Reflexive R} raw : respects R (parse_all raw).
Proof. intros w w' r Hp. apply parse_all_state in Hp as ->. reflexivity. Qed.

(** The ["message"] handler, by its parts. *)
Lemma onMessage_respects R `{!Reflexive R} `{!Transitive R} s a data now uuid :
  (forall w w', same shape w w' -> R w w') ->
  (forall t, respects R (send s (stringify_event (EvSystem t)))) ->
  (forall room, respects R (join s room)) ->
  respects R (onMessage cfg s a data now uuid).
Proof.
  intros Hq Hsend Hjoin. unfold onMessage.
  apply respects_bind; [apply _ | apply quiet_respects; [done|by apply on_redis_same] | intros c].
  apply respects_bind; [apply _ | | intros _].
  { destruct (c =? 1); [|apply respects_ret; apply _].
    apply quiet_respects; [done|by apply on_redis_same]. }
  destruct (RATE_LIMIT_PER_MIN cfg <? c).
  { apply respects_bind; [apply _ | apply Hsend | intros _]. apply respects_ret; apply _. }
  unfold process. destruct (JSON_parse data) as [payload|].
  - destruct (safeParse payload) as [[room text username]|].
    + apply respects_bind; [apply _ | apply Hjoin | intros _].
      apply respects_bind;
        [apply _ | apply quiet_respects; [done|by apply pushHistory_same] | intros _].
      apply respects_bind;
        [apply _ | apply quiet_respects; [done|by apply publish_same] | intros _].
      apply respects_ret; apply _.
    + apply respects_bind; [apply _ | apply Hsend | intros _]. apply respects_ret; apply _.
  - apply respects_bind; [apply _ | apply Hsend | intros _]. apply respects_ret; apply _.
Qed.

(** The subscriber, by its parts. *)
Lemma onBusMessage_respects R `{!Reflexive R} `{!Transitive R} message ch :
  (forall room v s, respects R (deliver room (EvBroadcast v) s)) ->
  respects R (onBusMessage message ch).
Proof.
  intros Hd. unfold onBusMessage.
  apply respects_bind; [apply _ | | intros v].
  { unfold parse. destruct (JSON_parse message); [apply respects_ret | apply respects_throw];
      apply _. }
  intros w w' r. by apply respects_forEach.
Qed.

(** The second part of the connection handler, by its parts. *)
Lemma onConnection_resume_respects R `{!Reflexive R} `{!Transitive R} s reply :
  (forall data, respects R (send s data)) ->
  (forall w, R w (set_listening (union {[ s ]}) w)) ->
  respects R (onConnection_resume cfg s reply).
Proof.
  intros Hsend Hl. destruct reply as [raw|e]; [|apply respects_throw; apply _]. simpl.
  apply respects_bind; [apply _ | by apply parse_all_respects | intros vs].
  apply respects_bind; [apply _ | apply Hsend | intros _].
  apply respects_bind; [apply _ | apply Hsend | intros _].
  intros w w' r [= <- _]. apply Hl.
Qed.

(** The handler of [step] for a connection, by its parts. *)
Lemma onConnection_respects R `{!Reflexive R} `{!Transitive R} s f ra now :
  (forall w, R w (set_clients (insert s (mkInfo s {[ DEFAULT_ROOM cfg ]} (client_ip f ra))) w)) ->
  (forall data, respects R (send s data)) ->
  (forall w, R w (set_listening (union {[ s ]}) w)) ->
  respects R (onConnection cfg s f ra now).
Proof.
  intros Hc Hsend Hl w w' r. rewrite onConnection_parts. revert w w' r.
  apply respects_bind; [apply _ | | intros _].
  { intros w w' r [= <- _]. apply Hc. }
  intros w w' r. by apply onConnection_resume_respects.
Qed.


(** *** Handlers and socket names *)

(** An event of [step] registers handlers for the socket that it
    accepts, and for no other. *)
Lemma step_listening ev w w' r :
  step cfg ev w = (w', r) ->
  (next_ws w' = next_ws w /\ listening w' ⊆ listening w) \/
  (next_ws w' = S (next_ws w) /\ listening w' ⊆ {[ next_ws w ]} ∪ listening w).
Proof.
  assert (forall w w', same (fun w => (listening w, next_ws w)) w w' ->
            next_ws w' = next_ws w /\ listening w' ⊆ listening w) as Hq.
  { intros w1 w2 [= Hl Hn]. by rewrite Hl, Hn. }
  destruct ev as [f ra now|s data now uuid|s|s|ch message]; simpl.
  - unfold bind at 1. unfold accept. set (w1 := mkWorld _ _ _ _ _ _). intros Hrun. right.
    set (R := fun x y : World =>
                next_ws y = next_ws x /\ listening y ⊆ {[ next_ws w ]} ∪ listening x).
    assert (Reflexive R) as Hrefl.
    { intros x. split; [done|]. apply union_subseteq_r. }
    assert (Transitive R) as Htrans.
    { intros x y z [Hn1 Hl1] [Hn2 Hl2]. split; [congruence|].
      etrans; [exact Hl2|]. apply union_least; [apply union_subseteq_l|done]. }
    assert (R w1 w') as [Hn Hl]; [|done].
    revert Hrun. apply onConnection_respects; [done|done| | |].
    + intros w2. split; [done|]. apply union_subseteq_r.
    + intros data w2 w3 r3 Hs.
      assert (same (fun w => (listening w, next_ws w)) w2 w3) as [= Hl3 Hn3]
        by by eapply send_same.
      split; [done|]. rewrite Hl3. apply union_subseteq_r.
    + intros w2. by split.
  - destruct (frame_target w s) as [info|]; [|intros [= <- _]; by left].
    intros Hrun. left. apply Hq. revert Hrun.
    apply respects_bind; [apply _ | | intros _; apply respects_ret; apply _].
    apply onMessage_respects; try apply _.
    + intros w1 w2 [= _ _ Hl Hn]. unfold same. by rewrite Hl, Hn.
    + intros t. by apply send_same.
    + intros room. by apply join_same.
  - unfold closing. intros Hrun. left.
    destruct (wss_clients w !! s) as [[[] out]|]; by injection Hrun as <- _.
  - unfold closed, bind, onClose. intros Hrun. left.
    destruct (bool_decide (s ∈ listening w)); injection Hrun as <- _; simpl; [|done].
    split; [done|]. apply subseteq_difference_l. done.
  - destruct (matches_pattern ch); [|intros [= <- _]; by left].
    intros Hrun. left. apply Hq. revert Hrun.
    apply onBusMessage_respects; try apply _.
    intros room v s w1 w2 r2. rewrite deliver_spec. by intros [= <- _].
Qed.

(** *** What a socket is sent *)

(** The type of an event on the wire, as the client reads it. *)
Definition kind (data : string) : option string :=
  match JSON_parse data with
  | Some (JObj fields) =>
      match json_get "type" fields with
      | Some (JStr t) => Some t
      | _ => None
      end
  | _ => None
  end.

Lemma kind_event e :
  kind (stringify_event e)
  = Some (match e with
          | EvHistory _ _ => "history"
          | EvBroadcast _ => "broadcast"
          | EvSystem _ => "system"
          end)%string.
Proof. unfold kind, stringify_event. rewrite JSON_parse_stringify. by destruct e. Qed.

(** From [w] to [w'] the accepted socket [s], if it is still there, has
    been sent more frames, all of them in [K], and has not gone back to
    CONNECTING. *)
Definition more_of (K : string -> Prop) (s : nat) (w w' : World) : Prop :=
  (s < next_ws w)%nat ->
  (s < next_ws w')%nat /\
  forall sock',
    wss_clients w' !! s = Some sock' ->
    exists sock more,
      wss_clients w !! s = Some sock /\ sent sock' = sent sock ++ more /\ Forall K more /\
      (readyState sock <> CONNECTING -> readyState sock' <> CONNECTING).

#[local] Instance more_of_refl K s : Reflexive (more_of K s).
Proof.
  intros w Hlt. split; [done|]. intros sock Hs. exists sock, []. by rewrite app_nil_r.
Qed.

#[local] Instance more_of_trans K s : Transitive (more_of K s).
Proof.
  intros w1 w2 w3 H12 H23 Hlt. destruct (H12 Hlt) as [Hlt2 Hs2].
  destruct (H23 Hlt2) as [Hlt3 Hs3]. split; [done|].
  intros sock3 Hsock3.
  destruct (Hs3 _ Hsock3) as (sock2 & more2 & Hsock2 & Hsent2 & HK2 & Hst2).
  destruct (Hs2 _ Hsock2) as (sock1 & more1 & Hsock1 & Hsent1 & HK1 & Hst1).
  exists sock1, (more1 ++ more2). split; [done|]. split; [|split].
  - by rewrite Hsent2, Hsent1, app_assoc.
  - by apply Forall_app.
  - auto.
Qed.

Lemma same_more_of K s w w' :
  same (fun w => (wss_clients w, next_ws w)) w w' -> more_of K s w w'.
Proof.
  intros [= Hm Hn] Hlt. rewrite Hn, Hm. split; [done|].
  intros sock Hs. exists sock, []. by rewrite app_nil_r.
Qed.

Lemma shape_more_of K s w w' : same shape w w' -> more_of K s w w'.
Proof. intros [= Hm _ _ Hn]. apply same_more_of. unfold same. by rewrite Hm, Hn. Qed.

Lemma send_more_of K s s' data : (s' = s -> K data) -> respects (more_of K s) (send s' data).
Proof.
  intros HK w w' r. unfold send.
  destruct (wss_clients w !! s') as [[st out]|] eqn:Hs'; [|intros [= <- _]; reflexivity].
  destruct st; simpl; intros [= <- _]; try reflexivity.
  intros Hlt. split; [done|]. intros sock'. simpl.
  destruct (decide (s' = s)) as [->|Hne].
  - rewrite lookup_insert_eq. intros [= <-]. exists (mkSocket OPEN out), [data].
    split; [done|]. split; [done|]. split; [|done]. constructor; [by apply HK|constructor].
  - rewrite lookup_insert_ne by done. intros Hs. exists sock', []. by rewrite app_nil_r.
Qed.

Lemma deliver_more_of K s room payload s' :
  K (stringify_event payload) -> respects (more_of K s) (deliver room payload s').
Proof.
  intros HK w w' r. unfold deliver.
  destruct (clients w !! s') as [info|]; [|intros [= <- _]; reflexivity].
  destruct (_ && _); [|intros [= <- _]; reflexivity].
  by apply send_more_of.
Qed.

(** One event of [step]: a socket is sent broadcasts and, once its
    handlers are registered, notices. The history event of a connection
    goes to the socket that the event accepts. *)
Lemma step_more_of K s ev w w' r :
  (forall v, K (stringify_event (EvBroadcast v))) ->
  (s ∈ listening w -> forall t, K (stringify_event (EvSystem t))) ->
  step cfg ev w = (w', r) -> more_of K s w w'.
Proof.
  intros Hb Hn. destruct ev as [f ra now|s' data now uuid|s'|s'|ch message]; simpl.
  - unfold bind at 1. unfold accept. set (w1 := mkWorld _ _ _ _ _ _). intros Hrun Hlt.
    assert (more_of K s w1 w') as Hmore.
    { revert Hrun. apply onConnection_respects; try apply _.
      - intros w2. by apply same_more_of.
      - intros data. apply send_more_of. intros Heq. lia.
      - intros w2. by apply same_more_of. }
    destruct Hmore as [Hlt' Hs']; [simpl; lia|]. split; [done|].
    intros sock' Hsock'. destruct (Hs' _ Hsock') as (sock & more & Hsock & Hsent & HK).
    exists sock, more. split; [|done]. unfold w1 in Hsock. simpl in Hsock.
    by rewrite lookup_insert_ne in Hsock by lia.
  - destruct (frame_target w s') as [info|] eqn:Ht; [|intros [= <- _]; reflexivity].
    apply respects_bind; [apply _ | | intros _; apply respects_ret; apply _].
    apply onMessage_respects; try apply _.
    + apply shape_more_of.
    + intros t. apply send_more_of. intros ->. apply Hn.
      unfold frame_target in Ht. destruct (decide (s ∈ listening w)) as [Hin|Hin]; [done|].
      by rewrite bool_decide_eq_false_2 in Ht.
    + intros room w1 w2 r2 Hj. apply same_more_of. by eapply join_same.
  - unfold closing. destruct (wss_clients w !! s') as [[st out]|] eqn:Hs';
      [|intros [= <- _]; reflexivity].
    destruct st; intros [= <- _]; try reflexivity.
    intros Hlt. split; [done|]. intros sock'. simpl.
    destruct (decide (s' = s)) as [->|Hne].
    + rewrite lookup_insert_eq. intros [= <-]. exists (mkSocket OPEN out), [].
      by rewrite app_nil_r.
    + rewrite lookup_insert_ne by done. intros Hs. exists sock', []. by rewrite app_nil_r.
  - unfold closed, bind, onClose.
    assert (forall w2, wss_clients w2 = delete s' (wss_clients w) -> next_ws w2 = next_ws w ->
                       more_of K s w w2) as Hdel.
    { intros w2 Hm Hn2 Hlt. rewrite Hn2, Hm. split; [done|].
      intros sock' [_ Hs]%lookup_delete_Some. exists sock', []. by rewrite app_nil_r. }
    destruct (bool_decide _); intros [= <- _]; by apply Hdel.
  - destruct (matches_pattern ch); [|intros [= <- _]; reflexivity].
    apply onBusMessage_respects; try apply _.
    intros room v x. by apply deliver_more_of.
Qed.


(** *** Sockets that are closed *)

(** Socket [s] has been accepted and has left [wss.clients]. *)
Definition gone (s : nat) (w : World) : Prop :=
  (s < next_ws w)%nat /\ wss_clients w !! s = None.

(** From [w] to [w'] a socket that is gone stays gone, and [clients]
    holds for it what it held. *)
Definition forsaken (s : nat) (w w' : World) : Prop :=
  gone s w -> gone s w' /\ clients w' !! s = clients w !! s.

#[local] Instance forsaken_refl s : Reflexive (forsaken s).
Proof. by intros w H. Qed.

#[local] Instance forsaken_trans s : Transitive (forsaken s).
Proof.
  intros w1 w2 w3 H12 H23 H1. destruct (H12 H1) as [H2 Hc2].
  destruct (H23 H2) as [H3 Hc3]. split; [done|congruence].
Qed.

Lemma same_forsaken s w w' :
  same (fun w => (wss_clients w, clients w, next_ws w)) w w' -> forsaken s w w'.
Proof. intros [= Hm Hc Hn] [Hlt Hs]. unfold gone. by rewrite Hm, Hc, Hn. Qed.

Lemma shape_forsaken s w w' : same shape w w' -> forsaken s w w'.
Proof. intros [= Hm Hc _ Hn]. apply same_forsaken. unfold same. by rewrite Hm, Hc, Hn. Qed.

Lemma send_forsaken s s' data : respects (forsaken s) (send s' data).
Proof.
  intros w w' r. unfold send.
  destruct (wss_clients w !! s') as [[st out]|] eqn:Hs'; [|intros [= <- _]; reflexivity].
  destruct st; simpl; intros [= <- _]; try reflexivity.
  intros [Hlt Hs]. unfold gone. simpl.
  rewrite lookup_insert_ne by (intros ->; congruence). done.
Qed.

Lemma deliver_forsaken s room payload s' : respects (forsaken s) (deliver room payload s').
Proof.
  intros w w' r. unfold deliver.
  destruct (clients w !! s') as [info|]; [|intros [= <- _]; reflexivity].
  destruct (_ && _); [|intros [= <- _]; reflexivity].
  apply send_forsaken.
Qed.

Lemma join_forsaken s s' room : s' <> s -> respects (forsaken s) (join s' room).
Proof.
  intros Hne w w' r. rewrite join_joined. intros [= <- _] Hgone. split; [done|].
  simpl. unfold joined. destruct (clients w !! s'); [|done]. by rewrite lookup_insert_ne.
Qed.

Lemma step_forsaken s ev w w' r :
  emitted w ev = true -> step cfg ev w = (w', r) -> forsaken s w w'.
Proof.
  intros Hem Hrun Hgone. pose proof Hgone as [Hlt Hs]. revert Hgone.
  change (forsaken s w w'). revert Hrun.
  destruct ev as [f ra now|s' data now uuid|s'|s'|ch message]; simpl.
  - unfold bind at 1. unfold accept. set (w1 := mkWorld _ _ _ _ _ _). intros Hrun.
    assert (forsaken s w w1) as H1.
    { intros _. unfold gone, w1. simpl. rewrite lookup_insert_ne by lia.
      split; [split|]; [lia|done..]. }
    etrans; [exact H1|]. revert Hrun. apply onConnection_respects; try apply _.
    + intros w2 Hgone. split; [done|]. simpl. by rewrite lookup_insert_ne by lia.
    + intros data. apply send_forsaken.
    + intros w2. by apply same_forsaken.
  - destruct (frame_target w s') as [info|] eqn:Ht; [|intros [= <- _]; reflexivity].
    assert (s' <> s) as Hne.
    { intros ->. apply frame_target_open in Ht as (sock & Hsock & _). congruence. }
    apply respects_bind; [apply _ | | intros _; apply respects_ret; apply _].
    apply onMessage_respects; try apply _.
    + apply shape_forsaken.
    + intros t. apply send_forsaken.
    + intros room. by apply join_forsaken.
  - unfold closing. destruct (wss_clients w !! s') as [[st out]|] eqn:Hs';
      [|intros [= <- _]; reflexivity].
    destruct st; intros [= <- _]; try reflexivity.
    intros _. unfold gone. simpl. rewrite lookup_insert_ne by (intros ->; congruence). done.
  - simpl in Hem. apply bool_decide_eq_true_1 in Hem as [sock' Hs'].
    assert (s' <> s) as Hne by (intros ->; congruence).
    unfold closed, bind, onClose.
    destruct (bool_decide _); intros [= <- _] _; unfold gone; simpl;
      rewrite ?lookup_delete_ne by done; done.
  - destruct (matches_pattern ch); [|intros [= <- _]; reflexivity].
    apply onBusMessage_respects; try apply _.
    intros room v x. apply deliver_forsaken.
Qed.

Lemma perform_forsaken s t p p' r :
  perform cfg t p = (p', r) -> forsaken s (world p) (world p').
Proof.
  destruct t as [f ra now|s'|ev]; simpl.
  - intros [= <- _] [Hlt Hs]. unfold gone. simpl.
    rewrite !lookup_insert_ne by lia. split; [split|]; [lia|done..].
  - destruct (awaiting p !! s') as [reply|]; [|intros [= <- _]; reflexivity].
    destruct (onConnection_resume cfg s' reply (world p)) as [w1 r1] eqn:Hrun.
    intros [= <- _]. simpl. revert Hrun.
    apply onConnection_resume_respects; try apply _.
    + intros data. apply send_forsaken.
    + intros w2. by apply same_forsaken.
  - destruct (emitted (world p) ev) eqn:Hem; [|intros [= <- _]; reflexivity].
    destruct (step cfg ev (world p)) as [w1 r1] eqn:Hrun. intros [= <- _]. simpl.
    by eapply step_forsaken.
Qed.

Lemma schedule_forsaken s ts : forall p p' r,
  schedule cfg ts p = (p', r) -> forsaken s (world p) (world p').
Proof.
  induction ts as [|t ts IH]; intros p p' r; simpl.
  - intros [= <- _]. reflexivity.
  - destruct (perform cfg t p) as [p1 [[]|e]] eqn:Ht.
    + intros Hrun. etrans; [by eapply perform_forsaken | by eapply IH].
    + intros [= <- _]. by eapply perform_forsaken.
Qed.


(** *** The second part of the connection handler *)

Lemma parse_all_Forall2 raw vs w :
  Forall2 (fun x v => JSON_parse x = Some v) raw vs ->
  parse_all raw w = (w, Ret vs).
Proof.
  induction 1 as [|x v raw vs Hx _ IH]; simpl; [done|].
  unfold bind, parse. rewrite Hx. unfold ret. by rewrite IH.
Qed.

Lemma Forall2_enc (l : list ChatMessage.t) :
  Forall2 (fun x v => JSON_parse x = Some v) (enc <$> l) (ChatMessage.to_json <$> l).
Proof.
  induction l as [|m l IH]; [constructor|]. rewrite !fmap_cons.
  constructor; [apply JSON_parse_stringify|done].
Qed.

(** [loadHistory] in terms of the reply of the store, when its entries
    decode. *)
Lemma loadHistory_reply now room w vs :
  ~ holds_counter now (historyKey room) w ->
  Forall2 (fun x v => JSON_parse x = Some v)
          (Redis.range (stored now room w) 0 (HISTORY_SIZE cfg - 1)) vs ->
  Redis.lRange now (historyKey room) 0 (HISTORY_SIZE cfg - 1) (redis w)
  = Ret (Redis.range (stored now room w) 0 (HISTORY_SIZE cfg - 1)) /\
  loadHistory cfg now room w = (w, Ret (reverse vs)).
Proof.
  intros Hty Hvs. rewrite loadHistory_unfold. unfold Redis.lRange, stored, holds_counter in *.
  destruct (Redis.get now (historyKey room) (redis w)) as [[[n|l] e]|] eqn:Hget.
  - exfalso. apply Hty. eauto.
  - by rewrite (parse_all_Forall2 _ vs).
  - assert (Redis.range (A:=string) [] 0 (HISTORY_SIZE cfg - 1) = []) as Hnil.
    { unfold Redis.range. cbv zeta. simpl. by rewrite orb_true_r. }
    rewrite Hnil in *. by apply Forall2_nil_inv_l in Hvs as ->.
Qed.

(** What the second part does on a reply whose entries decode to [vs]:
    it sends the history event and the welcome notice to a socket that
    is OPEN, and nothing to one that is closing or closed; then it
    registers the handlers. *)
Lemma resume_sends s raw vs w :
  Forall2 (fun x v => JSON_parse x = Some v) raw vs ->
  onConnection_resume cfg s (Ret raw) w =
    match wss_clients w !! s with
    | Some (mkSocket OPEN out) =>
        (mkWorld (redis w) (published w)
           (<[s := mkSocket OPEN
                     (out ++ [stringify_event (EvHistory (DEFAULT_ROOM cfg) (reverse vs));
                              stringify_event (welcome cfg)])]> (wss_clients w))
           (clients w) ({[ s ]} ∪ listening w) (next_ws w), Ret tt)
    | Some (mkSocket CONNECTING _) => (w, Throw SendError)
    | _ => (set_listening (union {[ s ]}) w, Ret tt)
    end.
Proof.
  intros Hvs. unfold onConnection_resume. unfold bind at 1.
  rewrite (parse_all_Forall2 raw vs) by done.
  unfold bind, send.
  destruct (wss_clients w !! s) as [[[] out]|] eqn:Hs; simpl; rewrite ?Hs; simpl; try done.
  rewrite lookup_insert_eq. simpl. unfold set_listening, set_wss_clients. simpl.
  by rewrite insert_insert_eq, <- app_assoc.
Qed.

(** What the second part can change, whatever the reply. *)
Lemma resume_effect s reply w w' r :
  onConnection_resume cfg s reply w = (w', r) ->
  redis w' = redis w /\ published w' = published w /\ clients w' = clients w /\
  next_ws w' = next_ws w /\ listening w' ⊆ {[ s ]} ∪ listening w /\
  forall s', s' <> s -> wss_clients w' !! s' = wss_clients w !! s'.
Proof.
  set (R := fun x y : World =>
              redis y = redis x /\ published y = published x /\ clients y = clients x /\
              next_ws y = next_ws x /\ listening y ⊆ {[ s ]} ∪ listening x /\
              forall s', s' <> s -> wss_clients y !! s' = wss_clients x !! s').
  assert (Reflexive R) as Hrefl.
  { intros x. repeat split; try done. apply union_subseteq_r. }
  assert (Transitive R) as Htrans.
  { intros x y z (H1 & H2 & H3 & H4 & H5 & H6) (H1' & H2' & H3' & H4' & H5' & H6').
    repeat split; try congruence.
    - etrans; [exact H5'|]. apply union_least; [apply union_subseteq_l|done].
    - intros s' Hne. by rewrite H6', H6. }
  change (onConnection_resume cfg s reply w = (w', r) -> R w w'). revert w w' r.
  apply onConnection_resume_respects; [done|done| |].
  - intros data w w' r. unfold send.
    destruct (wss_clients w !! s) as [[[] out]|]; intros [= <- _]; try apply Hrefl.
    repeat split; try done; [apply union_subseteq_r|].
    intros s' Hne. simpl. by rewrite lookup_insert_ne.
  - intros w. by repeat split.
Qed.

(** *** Runs of the process *)

(** What holds of the process along a run: the invariant of the state;
    handlers are registered for accepted sockets only; a connection
    handler that waits belongs to an accepted socket without handlers,
    and the reply on its way holds encoded messages. *)
Definition sound (p : Process) : Prop :=
  consistent cfg (world p) /\
  (forall s, s ∈ listening (world p) -> (s < next_ws (world p))%nat) /\
  (forall s reply,
      awaiting p !! s = Some reply ->
      (s < next_ws (world p))%nat /\ (s ∉ listening (world p)) /\
      exists l, reply = Ret (enc <$> l)).

(** The reply to the LRANGE of [loadHistory] in a state of the
    invariant: the encoded latest publications of the room, latest
    first. *)
Lemma reply_consistent now room w :
  consistent cfg w ->
  exists ms,
    Redis.lRange now (historyKey room) 0 (N - 1) (redis w) = Ret (enc <$> reverse ms) /\
    enc <$> reverse ms = Redis.range (stored now room w) 0 (N - 1) /\
    (enc <$> ms) `suffix_of` publications room (published w) /\
    Forall (fun m => ChatMessage.room m = room /\ message_ok m) ms /\
    (1 <= N -> (length ms <= Z.to_nat N)%nat).
Proof.
  intros Hinv. destruct (loadHistory_returns cfg now room w Hinv) as (ms & _ & Hms & Hraw).
  fold N in Hraw. exists ms. split; [|split; [done|split; [|split; [done|]]]].
  - rewrite Hraw. unfold Redis.lRange, stored.
    destruct (Redis.get now (historyKey room) (redis w)) as [[[n|l] e]|] eqn:Hget; [|done|].
    + exfalso. eapply (consistent_no_counter cfg now room w); [by destruct Hinv|]. by exists n, e.
    + unfold Redis.range. cbv zeta. simpl. by rewrite orb_true_r.
  - apply suffix_prefix_reverse. rewrite <- fmap_reverse, Hraw.
    etrans; [apply range_from_0_prefix|]. apply (stored_prefix cfg). by destruct Hinv.
  - intros HN. pose proof (range_length (stored now room w) _ HN) as Hlen.
    rewrite <- Hraw in Hlen. by rewrite length_fmap, length_reverse in Hlen.
Qed.

Lemma perform_sound t p :
  sound p ->
  exists p' r, perform cfg t p = (p', r) /\ sound p' /\
    (r = Ret tt \/
     r = Throw SyntaxError /\ p' = p /\
     exists ch m, t = Handle (BusMessage ch m) /\ matches_pattern ch = true /\
                  JSON_parse m = None).
Proof.
  intros (Hinv & Hfresh & Hwait). destruct t as [f ra now|s|ev]; simpl.
  - eexists _, _. split; [done|]. split; [|by left].
    destruct (accept_consistent cfg (world p) Hinv) as [Hinv1 _].
    unfold accept in Hinv1. simpl in Hinv1. split; [|split]; simpl.
    + eapply consistent_same; [| | |exact Hinv1]; try done. by destruct Hinv1.
    + intros s Hs. apply Hfresh in Hs. lia.
    + intros s reply. destruct (decide (s = next_ws (world p))) as [->|Hne].
      * rewrite lookup_insert_eq. intros [= <-]. split; [lia|]. split.
        { intros Hin. apply Hfresh in Hin. lia. }
        destruct (reply_consistent now (DEFAULT_ROOM cfg) (world p) Hinv) as (ms & Heq & _).
        unfold N in Heq. rewrite Heq. by eexists.
      * rewrite lookup_insert_ne by done. intros Hs.
        destruct (Hwait s reply Hs) as (Hlt & Hnl & Hl). split; [lia|done].
  - destruct (awaiting p !! s) as [reply|] eqn:Hs.
    2: { exists p, (Ret tt). split; [done|]. split; [done|by left]. }
    destruct (Hwait s reply Hs) as (Hlt & Hnl & l & ->).
    rewrite (resume_sends s _ _ _ (Forall2_enc l)).
    assert (forall w' : World, redis w' = redis (world p) -> published w' = published (world p) ->
              no_connecting w' -> next_ws w' = next_ws (world p) ->
              listening w' ⊆ {[ s ]} ∪ listening (world p) ->
              sound (mkProcess w' (delete s (awaiting p)))) as Hsound.
    { intros w' Hd Hp Hnc Hn Hl. split; [|split]; simpl.
      - by apply (consistent_same cfg (world p)).
      - intros s' Hin. rewrite Hn. apply Hl in Hin.
        apply elem_of_union in Hin as [->%elem_of_singleton|Hin]; [done|by apply Hfresh].
      - intros s' reply' [Hne Hs']%lookup_delete_Some.
        destruct (Hwait s' reply' Hs') as (Hlt' & Hnl' & Hl'). rewrite Hn.
        split; [done|]. split; [|done]. intros Hin. apply Hl in Hin.
        apply elem_of_union in Hin as [Heq%elem_of_singleton|Hin]; [congruence|done]. }
    pose proof (consistent_sockets cfg _ Hinv) as Hnc.
    destruct (wss_clients (world p) !! s) as [[[] out]|] eqn:Hsock.
    + by apply Hnc in Hsock.
    + eexists _, _. split; [done|]. split; [|by left]. apply Hsound; simpl; try done.
      intros s' sock'. simpl. destruct (decide (s' = s)) as [->|Hne].
      * rewrite lookup_insert_eq. by intros [= <-].
      * rewrite lookup_insert_ne by done. apply Hnc.
    + eexists _, _. split; [done|]. split; [|by left]. by apply Hsound.
    + eexists _, _. split; [done|]. split; [|by left]. by apply Hsound.
    + eexists _, _. split; [done|]. split; [|by left]. by apply Hsound.
  - destruct (emitted (world p) ev).
    2: { exists p, (Ret tt). split; [done|]. split; [done|by left]. }
    destruct (step_consistent cfg ev (world p) Hinv) as (w' & r & Hstep & Hinv' & Hr).
    rewrite Hstep. eexists _, _. split; [done|].
    assert (sound (mkProcess w' (awaiting p))) as Hsound.
    { split; [done|]. simpl.
      destruct (step_listening ev _ _ _ Hstep) as [[Hn Hl]|[Hn Hl]]; split.
      - intros s Hin. rewrite Hn. by apply Hfresh, Hl.
      - intros s reply Hs. destruct (Hwait s reply Hs) as (Hlt & Hnl & Hx). rewrite Hn.
        split; [done|]. split; [|done]. intros Hin. by apply Hnl, Hl.
      - intros s Hin. rewrite Hn. apply Hl in Hin.
        apply elem_of_union in Hin as [->%elem_of_singleton|Hin]; [lia|].
        apply Hfresh in Hin. lia.
      - intros s reply Hs. destruct (Hwait s reply Hs) as (Hlt & Hnl & Hx). rewrite Hn.
        split; [lia|]. split; [|done]. intros Hin. apply Hl in Hin.
        apply elem_of_union in Hin as [Heq%elem_of_singleton|Hin]; [lia|done]. }
    split; [done|]. destruct Hr as [->|(-> & -> & ch & m & -> & Hch & Hm)]; [by left|].
    right. split; [done|]. split; [by destruct p|]. by exists ch, m.
Qed.

Lemma schedule_sound ts : forall p, sound p -> sound (schedule cfg ts p).1.
Proof.
  induction ts as [|t ts IH]; intros p Hp; [done|]. simpl.
  destruct (perform_sound t p Hp) as (p1 & r1 & -> & Hp1 & _).
  destruct r1 as [[]|e]; [by apply IH|done].
Qed.

Lemma start_sound : sound start.
Proof.
  split; [apply (consistent_init cfg)|]. split.
  - intros s Hs. simpl in Hs. by apply elem_of_empty in Hs.
  - intros s reply Hs. simpl in Hs. by rewrite lookup_empty in Hs.
Qed.


(** *** What a new socket is sent *)

(** The two frames of the connection handler, for the entries [vs] of
    the reply. *)
Definition greeting (vs : list json) : list string :=
  [stringify_event (EvHistory (DEFAULT_ROOM cfg) (reverse vs));
   stringify_event (welcome cfg)].

(** The frames sent to a socket whose connection handler found [vs]:
    broadcasts, then the two frames of the handler if it has sent them,
    then no further history event. *)
Definition greeted (vs : list json) (l : list string) : Prop :=
  exists pre sent_by_handler post,
    l = pre ++ sent_by_handler ++ post /\
    Forall (fun d => kind d = Some "broadcast"%string) pre /\
    Forall (fun d => kind d <> Some "history"%string) post /\
    (sent_by_handler = [] \/ sent_by_handler = greeting vs).

(** The connection handler of socket [s] waits for the reply [raw]:
    the socket has no handlers yet, and has been sent broadcasts
    only. *)
Definition waits (s : nat) (raw : list string) (p : Process) : Prop :=
  (s < next_ws (world p))%nat /\
  awaiting p !! s = Some (Ret raw) /\
  (s ∉ listening (world p)) /\
  forall sock, wss_clients (world p) !! s = Some sock ->
               readyState sock <> CONNECTING /\
               Forall (fun d => kind d = Some "broadcast"%string) (sent sock).

(** The connection handler of socket [s] has gone on. *)
Definition resumed (s : nat) (vs : list json) (p : Process) : Prop :=
  (s < next_ws (world p))%nat /\
  awaiting p !! s = None /\
  forall sock, wss_clients (world p) !! s = Some sock -> greeted vs (sent sock).

Lemma perform_waits s raw vs t p p' r :
  Forall2 (fun x v => JSON_parse x = Some v) raw vs ->
  waits s raw p -> perform cfg t p = (p', r) ->
  (t = Resume s -> resumed s vs p') /\ (t <> Resume s -> waits s raw p').
Proof.
  intros Hvs (Hlt & Hs & Hnl & Hsent). destruct t as [f ra now|s'|ev]; simpl.
  - intros [= <- _]. split; [done|]. intros _. split; [|split; [|split]]; simpl.
    + lia.
    + by rewrite lookup_insert_ne by lia.
    + done.
    + intros sock. rewrite lookup_insert_ne by lia. apply Hsent.
  - destruct (decide (s' = s)) as [->|Hne].
    + intros Hrun. split; [intros _|done]. revert Hrun.
      rewrite Hs, (resume_sends s raw vs) by done.
      destruct (wss_clients (world p) !! s) as [[[] out]|] eqn:Hsock;
        intros [= <- _]; (split; [done|]); (split; [by apply lookup_delete_eq|]); simpl;
        intros sock; rewrite ?lookup_insert_eq, ?Hsock; intros [= <-].
      * exists out, [], []. rewrite !app_nil_r. split; [done|].
        split; [by apply (Hsent _ eq_refl)|]. split; [constructor|by left].
      * exists out, (greeting vs), []. split; [done|]. split; [by apply (Hsent _ eq_refl)|].
        split; [constructor|by right].
      * exists out, [], []. rewrite !app_nil_r. split; [done|].
        split; [by apply (Hsent _ eq_refl)|]. split; [constructor|by left].
      * exists out, [], []. rewrite !app_nil_r. split; [done|].
        split; [by apply (Hsent _ eq_refl)|]. split; [constructor|by left].
    + intros Hrun. split; [congruence|intros _]. revert Hrun.
      destruct (awaiting p !! s') as [reply|] eqn:Hs';
        [|intros [= <- _]; by split; [|split; [|split]]].
      destruct (onConnection_resume cfg s' reply (world p)) as [w1 r1] eqn:Hrun.
      intros [= <- _].
      apply resume_effect in Hrun as (_ & _ & _ & Hn & Hl & Hm).
      split; [|split; [|split]]; simpl.
      * by rewrite Hn.
      * by rewrite lookup_delete_ne.
      * intros Hin. apply Hl in Hin.
        apply elem_of_union in Hin as [Heq%elem_of_singleton|Hin]; [congruence|done].
      * intros sock. rewrite Hm by congruence. apply Hsent.
  - intros Hrun. split; [done|intros _]. revert Hrun.
    destruct (emitted (world p) ev); [|intros [= <- _]; by split; [|split; [|split]]].
    destruct (step cfg ev (world p)) as [w1 r1] eqn:Hstep. intros [= <- _].
    destruct (step_more_of (fun d => kind d = Some "broadcast"%string) s ev _ _ _
                (fun v => kind_event (EvBroadcast v)) (fun Hin => False_ind _ (Hnl Hin)) Hstep Hlt)
      as [Hlt1 Hmore].
    split; [|split; [|split]]; simpl; [done|done| |].
    + destruct (step_listening ev _ _ _ Hstep) as [[Hn Hl]|[Hn Hl]]; intros Hin; apply Hl in Hin;
        [done|].
      apply elem_of_union in Hin as [Heq%elem_of_singleton|Hin]; [lia|done].
    + intros sock' Hsock'.
      destruct (Hmore _ Hsock') as (sock & more & Hsock & -> & Hk & Hst).
      destruct (Hsent _ Hsock) as [Hst0 Hsent0]. split; [by apply Hst|].
      apply Forall_app. by split.
Qed.

Lemma perform_resumed s vs t p p' r :
  resumed s vs p -> perform cfg t p = (p', r) -> resumed s vs p'.
Proof.
  intros (Hlt & Hs & Hsent). destruct t as [f ra now|s'|ev]; simpl.
  - intros [= <- _]. split; [|split]; simpl.
    + lia.
    + by rewrite lookup_insert_ne by lia.
    + intros sock. rewrite lookup_insert_ne by lia. apply Hsent.
  - destruct (awaiting p !! s') as [reply|] eqn:Hs'; [|intros [= <- _]; by split; [|split]].
    assert (s' <> s) as Hne by congruence.
    destruct (onConnection_resume cfg s' reply (world p)) as [w1 r1] eqn:Hrun.
    intros [= <- _].
    apply resume_effect in Hrun as (_ & _ & _ & Hn & Hl & Hm).
    split; [|split]; simpl.
    + by rewrite Hn.
    + by rewrite lookup_delete_ne.
    + intros sock. rewrite Hm by congruence. apply Hsent.
  - destruct (emitted (world p) ev); [|intros [= <- _]; by split; [|split]].
    destruct (step cfg ev (world p)) as [w1 r1] eqn:Hstep. intros [= <- _].
    assert (more_of (fun d => kind d <> Some "history"%string) s (world p) w1) as Hmore.
    { eapply step_more_of; [| |exact Hstep].
      - intros v. by rewrite kind_event.
      - intros _ t. by rewrite kind_event. }
    destruct (Hmore Hlt) as [Hlt1 Hmore1]. clear Hmore. rename Hmore1 into Hmore.
    split; [|split]; simpl; [done|done|].
    intros sock' Hsock'. destruct (Hmore _ Hsock') as (sock & more & Hsock & -> & Hk & _).
    destruct (Hsent _ Hsock) as (pre & mid & post & -> & Hpre & Hpost & Hmid).
    exists pre, mid, (post ++ more). split; [by rewrite <- !app_assoc|]. split; [done|].
    split; [by apply Forall_app|done].
Qed.

Lemma waits_greeted s raw vs p sock :
  waits s raw p -> wss_clients (world p) !! s = Some sock -> greeted vs (sent sock).
Proof.
  intros (_ & _ & _ & Hsent) Hsock. exists (sent sock), [], []. rewrite !app_nil_r.
  split; [done|]. split; [by apply Hsent|]. split; [constructor|by left].
Qed.

(** Along every run from the arrival of a connection: its handler
    waits until its second part has run, and then has gone on. *)
Lemma schedule_waits s raw vs ts : forall p p' r,
  Forall2 (fun x v => JSON_parse x = Some v) raw vs ->
  waits s raw p -> schedule cfg ts p = (p', r) ->
  (Resume s ∉ ts -> waits s raw p') /\ (waits s raw p' \/ resumed s vs p').
Proof.
  assert (forall ts p p' r, resumed s vs p -> schedule cfg ts p = (p', r) -> resumed s vs p')
    as Hres.
  { clear ts. induction ts as [|t ts IH]; intros p p' r Hp; simpl; [by intros [= <- _]|].
    destruct (perform cfg t p) as [p1 [[]|e]] eqn:Ht.
    - apply IH. by eapply perform_resumed.
    - intros [= <- _]. by eapply perform_resumed. }
  induction ts as [|t ts IH]; intros p p' r Hvs Hp; simpl.
  - intros [= <- _]. split; [done|by left].
  - destruct (perform cfg t p) as [p1 r1] eqn:Ht.
    destruct (perform_waits s raw vs t p p1 r1 Hvs Hp Ht) as [Hyes Hno].
    assert (t = Resume s \/ t <> Resume s) as [->|Hne].
    { destruct t as [f ra now|s'|ev]; try by right.
      destruct (decide (s' = s)) as [->|Hne]; [by left|right; congruence]. }
    + intros Hrun.
      assert (resumed s vs p') as Hp'.
      { destruct r1 as [[]|e]; [eapply Hres; [by apply Hyes|exact Hrun]|].
        injection Hrun as <- _. by apply Hyes. }
      split; [|by right]. intros Hnot. exfalso. apply Hnot. apply elem_of_cons. by left.
    + destruct r1 as [[]|e].
      * intros Hrun. destruct (IH p1 p' r Hvs (Hno Hne) Hrun) as [Hw Hor]. split; [|done].
        intros Hnot. apply Hw. intros Hin. apply Hnot. apply elem_of_cons. by right.
      * intros [= <- _]. split; [|left]; by auto.
Qed.

(** C8, as the code has it. A connection that arrives in a state where
    the entries that [loadHistory] reads for the default room decode to
    [vs]. The first part of the handler creates the session, a member
    of exactly the default room, before anything is sent, and the
    LRANGE of [loadHistory] is answered with these entries - at most
    [HISTORY_SIZE] of them when the cap is at least 1. Whatever turns
    run while the handler waits, it then returns and registers the
    handlers of the socket, and a socket that is still OPEN is sent
    exactly two more frames: one history event for the default room
    with the decoded entries in the reverse of their order in the store,
    and directly after it the system notice
    [Connected. Joined room "<default room>".]; a socket that is no
    longer OPEN is sent nothing. Before the two frames the socket has
    been sent broadcasts only, and after them it is never sent another
    history event: it is sent at most one. When the list was written by
    appends within one time to live, the event carries the messages
    last appended to the default room, oldest first. *)
Theorem connection_history_then_welcome
    (p : Process) (f ra : option string) (now : Z) (vs : list json) :
  (forall s, s ∈ listening (world p) -> (s < next_ws (world p))%nat) ->
  ~ holds_counter now (historyKey (DEFAULT_ROOM cfg)) (world p) ->
  Forall2 (fun x v => JSON_parse x = Some v)
          (Redis.range (stored now (DEFAULT_ROOM cfg) (world p)) 0 (HISTORY_SIZE cfg - 1)) vs ->
  let w := world p in
  let s := next_ws w in
  let room := DEFAULT_ROOM cfg in
  let raw := Redis.range (stored now room w) 0 (HISTORY_SIZE cfg - 1) in
  let session := mkInfo s {[ room ]} (client_ip f ra) in
  let quote := String (ascii_of_nat 34) EmptyString in
  let history := stringify_event (EvHistory room (reverse vs)) in
  let notice :=
    stringify_event (EvSystem ("Connected. Joined room " +:+ quote +:+ room +:+ quote +:+ ".")) in
  let p1 :=
    mkProcess (mkWorld (redis w) (published w) (<[s := mkSocket OPEN []]> (wss_clients w))
                       (<[s := session]> (clients w)) (listening w) (S s))
              (<[s := Ret raw]> (awaiting p)) in
  perform cfg (Arrive f ra now) p = (p1, Ret tt) /\
  (1 <= HISTORY_SIZE cfg -> (length (reverse vs) <= Z.to_nat (HISTORY_SIZE cfg))%nat) /\
  kind history = Some "history"%string /\ kind notice = Some "system"%string /\
  (forall w0 lo ps,
      1 <= HISTORY_SIZE cfg -> 0 < HISTORY_TTL_SECONDS cfg ->
      lists_only w0 -> history_from cfg w0 lo ps w ->
      now < lo + HISTORY_TTL_SECONDS cfg * 1000 ->
      let msgs := appended room ps in
      let cap := Z.to_nat (HISTORY_SIZE cfg) in
      (cap <= length msgs)%nat \/ (forall t, stored t room w0 = []) ->
      reverse vs = ChatMessage.to_json <$> drop (length msgs - cap) msgs) /\
  forall (ts : list turn) (p2 : Process) (r : res unit),
    schedule cfg ts p1 = (p2, r) ->
    (Resume s ∉ ts ->
     exists p3,
       perform cfg (Resume s) p2 = (p3, Ret tt) /\
       (s ∈ listening (world p3)) /\
       (forall sock, wss_clients (world p2) !! s = Some sock -> readyState sock <> OPEN ->
                     wss_clients (world p3) = wss_clients (world p2)) /\
       forall out,
         wss_clients (world p2) !! s = Some (mkSocket OPEN out) ->
         Forall (fun d => kind d = Some "broadcast"%string) out /\
         world p3 =
           mkWorld (redis (world p2)) (published (world p2))
                   (<[s := mkSocket OPEN (out ++ [history; notice])]> (wss_clients (world p2)))
                   (clients (world p2)) ({[ s ]} ∪ listening (world p2))
                   (next_ws (world p2))) /\
    (forall sock,
        wss_clients (world p2) !! s = Some sock ->
        exists pre sent_by_handler post,
          sent sock = pre ++ sent_by_handler ++ post /\
          Forall (fun d => kind d = Some "broadcast"%string) pre /\
          Forall (fun d => kind d <> Some "history"%string) post /\
          (sent_by_handler = [] \/ sent_by_handler = [history; notice])).
Proof.
  intros Hfresh Hty Hvs w s room raw session quote history notice p1.
  destruct (loadHistory_reply now room w vs Hty Hvs) as [Hreply Hload].
  split; [|split; [|split; [|split; [|split]]]].
  - simpl. fold w room. by rewrite Hreply.
  - intros HN. rewrite length_reverse. apply Forall2_length in Hvs. rewrite <- Hvs.
    by apply range_length.
  - apply kind_event.
  - apply (kind_event (EvSystem _)).
  - intros w0 lo ps HN HT Hty0 Hinv Hnow msgs cap Hcase.
    pose proof (history_from_load cfg w0 lo ps now room w HN Hty0 Hnow Hinv Hcase) as Hload'.
    rewrite Hload in Hload'. by injection Hload'.
  - intros ts p2 r Hrun.
    assert (waits s raw p1) as Hw1.
    { unfold waits, p1. simpl. split; [lia|]. split; [apply lookup_insert_eq|]. split.
      - intros Hin. apply Hfresh in Hin. unfold s, w in *. lia.
      - intros sock. rewrite lookup_insert_eq. intros [= <-]. split; [done|constructor]. }
    destruct (schedule_waits s raw vs ts p1 p2 r Hvs Hw1 Hrun) as [Hw Hor]. split.
    + intros Hnot. destruct (Hw Hnot) as (Hlt2 & Hs2 & Hnl2 & Hsent2).
      simpl. rewrite Hs2, (resume_sends s raw vs) by done.
      destruct (wss_clients (world p2) !! s) as [[[] out]|] eqn:Hsock.
      * by destruct (Hsent2 _ eq_refl).
      * eexists. split; [done|]. simpl. split; [|split].
        -- apply elem_of_union. left. by apply elem_of_singleton.
        -- intros sock [= <-]. done.
        -- intros out' [= <-]. split; [by apply (Hsent2 _ eq_refl)|done].
      * eexists. split; [done|]. simpl. split; [|split; [done|done]].
        apply elem_of_union. left. by apply elem_of_singleton.
      * eexists. split; [done|]. simpl. split; [|split; [done|done]].
        apply elem_of_union. left. by apply elem_of_singleton.
      * eexists. split; [done|]. simpl. split; [|split; [done|done]].
        apply elem_of_union. left. by apply elem_of_singleton.
    + intros sock Hsock. destruct Hor as [Hw2|(_ & _ & Hsent)].
      * by apply (waits_greeted s raw vs p2).
      * by apply Hsent.
Qed.

(** The assumptions on the state in which a connection arrives hold in
    every state of a run from start-up: handlers are registered for
    accepted sockets only, no history key holds a counter, and the
    entries that [loadHistory] reads are the encoded latest publications
    of the room, latest first, which decode. *)
Lemma start_up_connection (before : list turn) (now : Z) (room : string) :
  let w := world (schedule cfg before start).1 in
  (forall s, s ∈ listening w -> (s < next_ws w)%nat) /\
  ~ holds_counter now (historyKey room) w /\
  exists ms,
    Redis.range (stored now room w) 0 (HISTORY_SIZE cfg - 1) = enc <$> reverse ms /\
    (enc <$> ms) `suffix_of` publications room (published w) /\
    Forall2 (fun x v => JSON_parse x = Some v)
            (enc <$> reverse ms) (ChatMessage.to_json <$> reverse ms).
Proof.
  intros w.
  assert (sound (schedule cfg before start).1) as (Hinv & Hfresh & _)
    by apply schedule_sound, start_sound.
  split; [done|]. split.
  { apply (consistent_no_counter cfg). by destruct Hinv. }
  destruct (reply_consistent now room w Hinv) as (ms & _ & Hraw & Hsuf & _).
  exists ms. split; [done|]. split; [done|]. apply Forall2_enc.
Qed.

(** X17. The closing of an accepted socket that is in [wss.clients],
    in any state of the process: the turn returns, the socket has left
    [wss.clients] and has no handlers. If its handlers were registered,
    its session is deleted; if it closes while its connection handler
    still waits, no ["close"] handler is there to run, and [clients]
    keeps the session. Whatever turns follow, the socket is never in
    [wss.clients] again, no frame is handled for it, and [clients]
    holds for it what it held after the closing: nothing in the first
    case, the session in the second. *)
Theorem close_forgets_the_session (p : Process) (s : nat) (ts : list turn) :
  (s < next_ws (world p))%nat ->
  is_Some (wss_clients (world p) !! s) ->
  let w := world p in
  let p1 := (perform cfg (Handle (Close s)) p).1 in
  let p' := (schedule cfg ts p1).1 in
  (perform cfg (Handle (Close s)) p).2 = Ret tt /\
  wss_clients (world p1) !! s = None /\ (s ∉ listening (world p1)) /\
  clients (world p1) !! s = (if bool_decide (s ∈ listening w) then None else clients w !! s) /\
  wss_clients (world p') !! s = None /\ frame_target (world p') s = None /\
  clients (world p') !! s = clients (world p1) !! s.
Proof.
  intros Hlt Hsock w p1 p'.
  assert ((perform cfg (Handle (Close s)) p).2 = Ret tt /\
          wss_clients (world p1) !! s = None /\ (s ∉ listening (world p1)) /\
          clients (world p1) !! s
          = (if bool_decide (s ∈ listening w) then None else clients w !! s) /\
          next_ws (world p1) = next_ws w) as (Hret & Hm & Hl & Hc & Hn).
  { unfold p1. simpl. rewrite bool_decide_eq_true_2 by done. unfold closed, bind, onClose.
    fold w. destruct (decide (s ∈ listening w)) as [Hin|Hin].
    - rewrite !bool_decide_eq_true_2 by done. simpl. rewrite !lookup_delete_eq.
      repeat split; try done.
      intros [_ Hs]%elem_of_difference. apply Hs. by apply elem_of_singleton.
    - rewrite !bool_decide_eq_false_2 by done. simpl. by rewrite lookup_delete_eq. }
  split; [done|]. split; [done|]. split; [done|]. split; [done|].
  destruct (schedule_forsaken s ts p1 p' ((schedule cfg ts p1).2)) as [[_ Hm'] Hc'].
  { unfold p'. by destruct (schedule cfg ts p1). }
  { split; [|done]. rewrite Hn. exact Hlt. }
  split; [done|]. split; [|done].
  unfold frame_target, is_open. rewrite Hm'. by rewrite andb_false_r.
Qed.

End Interleaving.

(** ** The schema *)

Lemma json_get_app k more fs :
  json_get k (more ++ fs) =
    match json_get k fs with
    | Some v => Some v
    | None => json_get k more
    end.
Proof.
  induction more as [|[k' v] more IH]; simpl.
  - by destruct (json_get k fs).
  - rewrite IH. by destruct (json_get k fs).
Qed.

(** X2. What [ClientMessageSchema] accepts. An object whose last
    members are the tag ["message"] and the strings [room], [text] and
    [username] passes exactly when [room] has at least 1 code unit,
    [text] 1 to 2000 and [username] 1 to 40, bounds included, whatever
    members come before them: members of other names are dropped, and
    of two members of one name the later one counts. A value that is
    not an object, a tag that is not ["message"] and a text that is not
    a string are turned down. *)
Theorem schema_accepts_exactly_in_bounds
    (more : list (string * json)) (room text username : string) :
  let members v :=
    more ++ [("type", JStr "message"); ("room", JStr room); ("text", v);
             ("username", JStr username)] in
  safeParse (JObj (members (JStr text))) =
    (if (1 <=? Str.length room)
        && (1 <=? Str.length text) && (Str.length text <=? 2000)
        && (1 <=? Str.length username) && (Str.length username <=? 40)
     then Some (ClientMessage.mk room text username)
     else None) /\
  (forall v, (forall s, v <> JStr s) -> safeParse (JObj (members v)) = None) /\
  (forall tag, tag <> "message"%string ->
     safeParse (JObj (more ++ [("room", JStr room); ("text", JStr text);
                               ("username", JStr username); ("type", JStr tag)])) = None) /\
  (forall v, (forall fields, v <> JObj fields) -> safeParse v = None).
Proof.
  intros members. split; [|split; [|split]].
  - unfold safeParse, members. rewrite !json_get_app. cbn [json_get String.eqb Ascii.eqb Bool.eqb].
    cbn. unfold str_min_max, str_min.
    destruct (1 <=? Str.length room); [|done].
    destruct (1 <=? Str.length text); [|done].
    destruct (Str.length text <=? 2000); [|done].
    destruct (1 <=? Str.length username); [|done].
    by destruct (Str.length username <=? 40).
  - intros v Hv. unfold safeParse, members. rewrite !json_get_app. cbn.
    destruct (1 <=? Str.length room); [|done].
    unfold str_min_max at 1. unfold str_min at 1.
    destruct v as [| | |s| |]; try done. by destruct (Hv s).
  - intros tag Htag. unfold safeParse. rewrite !json_get_app. cbn.
    destruct (String.eqb_spec tag "message"); [done|done].
  - intros v Hv. destruct v as [| | | | |fields]; try done. by destruct (Hv fields).
Qed.

(** ** The names of keys and channels *)

(** X1. The keys and channels name what they stand for, whatever
    characters an address or a room holds, colons included: two rate
    keys are one only for one address and one minute bucket, two
    history keys or two channels only for one room, a rate key is never
    a history key, and the subscriber decodes from a room's channel the
    room itself. *)
Theorem keys_name_their_owner (a a' r r' : string) (t t' : Z) :
  (rateKey a t = rateKey a' t' <-> a = a' /\ minuteBucket t = minuteBucket t') /\
  (historyKey r = historyKey r' <-> r = r') /\
  (channelFor r = channelFor r' <-> r = r') /\
  rateKey a t <> historyKey r /\
  matches_pattern (channelFor r) = true /\
  roomOf (channelFor r) = r.
Proof.
  split; [|split; [|split; [|split; [|split]]]].
  - split; [apply rateKey_inj|]. intros [-> Hb]. by apply rateKey_bucket.
  - split; [apply historyKey_inj|]. by intros ->.
  - split; [apply channelFor_inj|]. by intros ->.
  - apply rateKey_historyKey.
  - apply matches_channelFor.
  - apply roomOf_channelFor.
Qed.

(** * Scenarios

    The theorems above at concrete inputs, with the codec [wire_codec],
    a limit of two frames a minute, a history of two messages and a time
    to live of one minute. *)

Module Scenario.

Definition cfg : Config := Build_Config "lobby" 2 2 60.

(** A frame as a client writes it. *)
Definition frame (room text username : string) : string :=
  JSON_stringify (JObj [("type", JStr "message"); ("room", JStr room);
                        ("text", JStr text); ("username", JStr username)]).

(** A valid frame for the default room. *)
Definition hi : string := frame "lobby" "hi" "alice".

(** A valid frame for another room. *)
Definition other : string := frame "other" "hi" "alice".

(** A frame whose text is one space. *)
Definition blank : string := frame "lobby" " " "alice".

(** A text that is not JSON: an object that is cut short. *)
Definition cut : string := "{".

Definition alice : ClientInfo := mkInfo 0 {[ "lobby" ]} "10.0.0.1".

Definition msg (n : Z) (text : string) : ChatMessage.t :=
  ChatMessage.mk "id" "lobby" text "alice" n.

(** A client connects. *)
Definition connected : list event := [Connect None (Some "10.0.0.1") 1000].

(** A client connects and sends one valid frame. *)
Definition one_frame : list event :=
  [Connect None (Some "10.0.0.1") 1000; Frame 0 hi 2000 "id-1"].

(** A client connects and sends two frames that are not JSON. *)
Definition two_bad_frames : list event :=
  [Connect None (Some "10.0.0.1") 1000; Frame 0 "oops" 2000 "id-1"; Frame 0 cut 3000 "id-2"].

(** Two clients connect; the closing handshake of the second starts. *)
Definition two_clients : list event :=
  [Connect None (Some "10.0.0.1") 1000; Connect (Some "10.0.0.2") None 1000; CloseStart 1].

Definition after (evs : list event) : World := (run cfg evs init).1.

(** What the first socket has been sent on connecting to an empty
    history. *)
Definition greeted : WebSocket :=
  mkSocket OPEN [stringify_event (EvHistory "lobby" []); stringify_event (welcome cfg)].

(** A history list whose latest entry is cut short. *)
Definition damaged : World :=
  set_redis (insert (historyKey "lobby")
               (Redis.mk (Redis.List [cut; enc (msg 1 "one")]) None)) init.

Definition three_pushes : list (Z * string * ChatMessage.t) :=
  [(1000, "lobby", msg 1000 "one"); (2000, "lobby", msg 2000 "two");
   (3000, "lobby", msg 3000 "three")].

(** Settings with a limit of zero frames, with a cap of zero entries,
    and with a time to live of zero. *)
Definition muted : Config := Build_Config "lobby" 0 2 60.
Definition uncut : Config := Build_Config "lobby" 2 0 60.
Definition fleeting : Config := Build_Config "lobby" 2 2 0.

(** The messages that the handler builds from the frames [hi] and
    [other] at time 2000. *)
Definition hi_msg : ChatMessage.t := ChatMessage.mk "id-1" "lobby" "hi" "alice" 2000.
Definition other_msg : ChatMessage.t := ChatMessage.mk "id-1" "other" "hi" "alice" 2000.

(** What a frame of [frame] decodes to. *)
Definition frame_json (room text username : string) : json :=
  JObj [("type", JStr "message"); ("room", JStr room);
        ("text", JStr text); ("username", JStr username)].

(** A client connects and sends one valid frame, or two, as turns of
    the event loop. *)
Definition talked : list turn := Handle <$> one_frame.
Definition talked_twice : list turn :=
  Handle <$> [Connect None (Some "10.0.0.1") 1000; Frame 0 hi 2000 "id-1";
              Frame 0 hi 3000 "id-2"].

(** The message that the handler builds from the second frame of
    [talked_twice]. *)
Definition hi_again : ChatMessage.t := ChatMessage.mk "id-2" "lobby" "hi" "alice" 3000.

End Scenario.

Import Scenario.

(** C1 at the second frame of a client, with a limit of two: it reads 2
    and passes. *)
Lemma rate_limit_per_bucket_witness :
  run cfg one_frame init = (after one_frame, Ret tt) /\
  frame_target (after one_frame) 0 = Some alice /\
  counter 2500 "10.0.0.1"
    (set_redis (tick 2500 (rateKey "10.0.0.1" 2500)) (after one_frame)) = 2 /\
  onMessage cfg 0 "10.0.0.1" hi 2500 "id-2" (after one_frame) =
    process cfg 0 hi 2500 "id-2"
      (set_redis (tick 2500 (rateKey "10.0.0.1" 2500)) (after one_frame)).
Proof.
  assert (run cfg one_frame init = (after one_frame, Ret tt)) as Hrun
    by (vm_compute; reflexivity).
  assert (frame_target (after one_frame) 0 = Some alice) as Htarget
    by (vm_compute; reflexivity).
  split; [exact Hrun|]. split; [exact Htarget|].
  destruct (rate_limit_per_bucket cfg one_frame (after one_frame) 0 alice hi 2500 "id-2"
              Hrun Htarget) as (Hcount & Hpass & _ & _).
  split; [exact Hcount|]. apply Hpass. vm_compute. discriminate.
Defined.

(** C10 after two frames that are not JSON, with a limit of two: the
    counter stands at 2 and a valid frame is turned down. *)
Lemma rate_counted_before_validation_witness :
  run cfg two_bad_frames init = (after two_bad_frames, Ret tt) /\
  frame_target (after two_bad_frames) 0 = Some alice /\
  counter 4000 "10.0.0.1" (after two_bad_frames) = 2 /\
  exists w', onMessage cfg 0 "10.0.0.1" hi 4000 "id-3" (after two_bad_frames)
             = (w', Ret RateLimited).
Proof.
  assert (run cfg two_bad_frames init = (after two_bad_frames, Ret tt)) as Hrun
    by (vm_compute; reflexivity).
  assert (frame_target (after two_bad_frames) 0 = Some alice) as Htarget
    by (vm_compute; reflexivity).
  split; [exact Hrun|]. split; [exact Htarget|].
  destruct (rate_counted_before_validation cfg two_bad_frames (after two_bad_frames)
              0 alice 4000 "id-3" Hrun Htarget) as (Hcount & _ & _ & Hfull).
  split.
  - refine (eq_trans Hcount _). vm_compute. reflexivity.
  - apply Hfull. vm_compute. discriminate.
Defined.



(** C4 with an open member and a member whose socket is closing: the
    first is sent a third frame, the second stays at two. *)
Lemma relay_reaches_open_members_witness :
  let payload := enc (msg 5000 "hi") in
  matches_pattern "chat:lobby" = true /\
  JSON_parse payload = Some (ChatMessage.to_json (msg 5000 "hi")) /\
  exists w',
    step cfg (BusMessage "chat:lobby" payload) (after two_clients) = (w', Ret tt) /\
    (length <$> (sent <$> wss_clients w' !! 0%nat)) = Some 3%nat /\
    (length <$> (sent <$> wss_clients w' !! 1%nat)) = Some 2%nat.
Proof.
  intros payload.
  assert (matches_pattern "chat:lobby" = true) as Hch by reflexivity.
  assert (JSON_parse payload = Some (ChatMessage.to_json (msg 5000 "hi"))) as Hv
    by apply JSON_parse_stringify.
  split; [exact Hch|]. split; [exact Hv|].
  destruct (relay_reaches_open_members cfg (after two_clients) "chat:lobby" payload _ Hch Hv)
    as (_ & w' & Hstep & _ & _ & _ & _ & Hsockets).
  exists w'. split; [exact Hstep|].
  rewrite !Hsockets. vm_compute. split; reflexivity.
Defined.

(** C6 at a payload that is cut short: the run ends with [SyntaxError],
    and the valid payload after it is not handled. *)
Lemma relay_throws_on_undecodable_payload_witness :
  matches_pattern "chat:lobby" = true /\
  JSON_parse cut = None /\
  run cfg [BusMessage "chat:lobby" cut; BusMessage "chat:lobby" (enc (msg 5000 "hi"))]
      (after two_clients)
    = (after two_clients, Throw SyntaxError).
Proof.
  assert (matches_pattern "chat:lobby" = true) as Hch by reflexivity.
  assert (JSON_parse cut = None) as Hbad by (vm_compute; reflexivity).
  split; [exact Hch|]. split; [exact Hbad|].
  exact (proj2 (relay_throws_on_undecodable_payload cfg (after two_clients) "chat:lobby"
                  cut [BusMessage "chat:lobby" (enc (msg 5000 "hi"))] Hch Hbad)).
Defined.

(** C7 at a history of one damaged and one sound entry: nothing is
    answered. *)
Lemma loadHistory_throws_on_unparsable_entry_witness :
  1 <= HISTORY_SIZE cfg /\
  JSON_parse cut = None /\
  JSON_parse (enc (msg 1 "one")) = Some (ChatMessage.to_json (msg 1 "one")) /\
  loadHistory cfg 1000 "lobby" damaged = (damaged, Throw SyntaxError).
Proof.
  assert (1 <= HISTORY_SIZE cfg) as HN by (simpl; lia).
  assert (JSON_parse cut = None) as Hbad by (vm_compute; reflexivity).
  split; [exact HN|]. split; [exact Hbad|]. split; [apply JSON_parse_stringify|].
  apply (loadHistory_throws_on_unparsable_entry cfg 1000 "lobby" damaged
           [cut; enc (msg 1 "one")] None cut HN).
  - vm_compute. reflexivity.
  - vm_compute. apply elem_of_cons. by left.
  - exact Hbad.
Defined.

(** C5 as stated, at a frame that is not JSON, the first of its sender:
    it is turned down as invalid JSON, and besides the notice the store
    has a new key, the sender's counter at 1. *)
Lemma rejected_frame_steps_counter :
  let w := after connected in
  let result := onMessage cfg 0 "10.0.0.1" "oops" 2000 "id-1" w in
  result.2 = Ret InvalidJSON /\
  wss_clients result.1 !! 0%nat
    = Some (mkSocket OPEN (sent greeted ++ [stringify_event (EvSystem "Invalid JSON")])) /\
  redis w !! rateKey "10.0.0.1" 2000 = None /\
  redis result.1 !! rateKey "10.0.0.1" 2000
    = Some (Redis.mk (Redis.Int 1) (Some 62000)) /\
  result.1 <> set_wss_clients
                (insert 0%nat
                   (mkSocket OPEN (sent greeted ++ [stringify_event (EvSystem "Invalid JSON")])))
                w.
Proof.
  intros w result.
  assert (redis w !! rateKey "10.0.0.1" 2000 = None) as Hbefore by (vm_compute; reflexivity).
  assert (redis result.1 !! rateKey "10.0.0.1" 2000
          = Some (Redis.mk (Redis.Int 1) (Some 62000))) as Hafter by (vm_compute; reflexivity).
  split; [vm_compute; reflexivity|]. split; [vm_compute; reflexivity|].
  split; [exact Hbefore|]. split; [exact Hafter|].
  intros Heq. rewrite Heq in Hafter. simpl in Hafter. congruence.
Qed.

(** C5 as the code has it, at the same frame. *)
Lemma rejected_frame_effects_witness :
  let w := after connected in
  wss_clients w !! 0%nat = Some greeted /\
  rejection cfg (counter 2000 "10.0.0.1" w) "oops" = Some InvalidJSON /\
  onMessage cfg 0 "10.0.0.1" "oops" 2000 "id-1" w =
    (mkWorld (tick 2000 (rateKey "10.0.0.1" 2000) (redis w)) (published w)
             (<[0%nat := mkSocket OPEN
                           (sent greeted ++ [stringify_event (EvSystem "Invalid JSON")])]>
                (wss_clients w))
             (clients w) (listening w) (next_ws w),
     Ret InvalidJSON).
Proof.
  intros w.
  assert (wss_clients w !! 0%nat = Some greeted) as Hs by (vm_compute; reflexivity).
  assert (readyState greeted = OPEN) as Ho by reflexivity.
  assert (~ holds_list 2000 (rateKey "10.0.0.1" 2000) w) as Hty.
  { intros (l & e & Hget). vm_compute in Hget. discriminate. }
  assert (rejection cfg (counter 2000 "10.0.0.1" w) "oops" = Some InvalidJSON) as Hrej
    by (vm_compute; reflexivity).
  split; [exact Hs|]. split; [exact Hrej|].
  exact (proj1 (rejected_frame_effects cfg w 0 greeted "10.0.0.1" "oops" 2000 "id-1"
                  InvalidJSON Hs Ho Hty Hrej)).
Defined.

(** C8 at a second connection, made after one message was published to
    the default room, with a broadcast of that room handled while the
    connection handler waits: the socket is sent the broadcast, then
    the history event with the message, then the welcome notice. *)
Lemma connection_history_then_welcome_witness :
  let p := (schedule cfg talked start).1 in
  let relay := Handle (BusMessage "chat:lobby" (enc hi_msg)) in
  exists p1 p2 p3,
    perform cfg (Arrive None None 3000) p = (p1, Ret tt) /\
    schedule cfg [relay] p1 = (p2, Ret tt) /\
    perform cfg (Resume 1) p2 = (p3, Ret tt) /\
    clients (world p1) !! 1%nat = Some (mkInfo 1 {[ "lobby"%string ]} "unknown") /\
    wss_clients (world p3) !! 1%nat =
      Some (mkSocket OPEN
              [stringify_event (EvBroadcast (ChatMessage.to_json hi_msg));
               stringify_event (EvHistory "lobby" [ChatMessage.to_json hi_msg]);
               stringify_event (welcome cfg)]).
Proof.
  intros p relay.
  destruct (start_up_connection cfg talked 3000 "lobby") as (Hfresh & Hty & _).
  assert (Forall2 (fun x v => JSON_parse x = Some v)
            (Redis.range (stored 3000 (DEFAULT_ROOM cfg) (world p)) 0 (HISTORY_SIZE cfg - 1))
            [ChatMessage.to_json hi_msg]) as Hvs.
  { assert (Redis.range (stored 3000 (DEFAULT_ROOM cfg) (world p)) 0 (HISTORY_SIZE cfg - 1)
            = enc <$> [hi_msg]) as -> by (vm_compute; reflexivity).
    apply (Forall2_enc [hi_msg]). }
  destruct (connection_history_then_welcome cfg p None None 3000 [ChatMessage.to_json hi_msg]
              Hfresh Hty Hvs) as (Harrive & _ & _ & _ & _ & Hafter).
  assert (next_ws (world p) = 1%nat) as Hn by (vm_compute; reflexivity).
  rewrite Hn in Hafter.
  match type of Harrive with _ = (?P, _) => set (p1 := P) in * end.
  set (p2 := (schedule cfg [relay] p1).1).
  assert (schedule cfg [relay] p1 = (p2, Ret tt)) as Hrun by (vm_compute; reflexivity).
  destruct (Hafter [relay] p2 (Ret tt) Hrun) as [Hresume _].
  destruct Hresume as (p3 & Hp3 & _ & _ & Hopen).
  { intros Hin. apply elem_of_cons in Hin as [Heq|Hin]; [discriminate|].
    by apply elem_of_nil in Hin. }
  destruct (Hopen [stringify_event (EvBroadcast (ChatMessage.to_json hi_msg))]) as [_ Hw3].
  { vm_compute. reflexivity. }
  exists p1, p2, p3. split; [exact Harrive|]. split; [exact Hrun|]. split; [exact Hp3|].
  split.
  - vm_compute. reflexivity.
  - rewrite Hw3. simpl. by rewrite lookup_insert_eq.
Defined.

(** C8 as stated, with a cap of zero: the history event of a connection
    made after two messages carries both, more than [HISTORY_SIZE]. *)
Lemma connection_history_exceeds_zero_cap :
  let p := (schedule uncut (talked_twice ++ [Arrive None None 4000; Resume 1]) start).1 in
  let messages := [ChatMessage.to_json hi_msg; ChatMessage.to_json hi_again] in
  HISTORY_SIZE uncut = 0 /\
  wss_clients (world p) !! 1%nat =
    Some (mkSocket OPEN [stringify_event (EvHistory "lobby" messages);
                         stringify_event (welcome uncut)]) /\
  (Z.to_nat (HISTORY_SIZE uncut) < length messages)%nat.
Proof.
  intros p messages. split; [reflexivity|]. split; [vm_compute; reflexivity|]. simpl. lia.
Qed.

(** C9 at a session that sends to a second room: it has both rooms. *)
Lemma rooms_keep_default_and_grow_witness :
  let w := after one_frame in
  exists w',
    run cfg one_frame init = (w, Ret tt) /\
    run cfg [Frame 0 other 3000 "id-2"] w = (w', Ret tt) /\
    rooms <$> clients w !! 0%nat = Some {[ "lobby" ]} /\
    rooms <$> clients w' !! 0%nat = Some ({[ "other" ]} ∪ {[ "lobby" ]}) /\
    (forall s info, clients w' !! s = Some info -> DEFAULT_ROOM cfg ∈ rooms info).
Proof.
  intros w.
  assert (run cfg one_frame init = (w, Ret tt)) as Hrun by (vm_compute; reflexivity).
  set (w' := (run cfg [Frame 0 other 3000 "id-2"] w).1).
  assert (run cfg [Frame 0 other 3000 "id-2"] w = (w', Ret tt)) as Hrun'
    by (vm_compute; reflexivity).
  exists w'. split; [exact Hrun|]. split; [exact Hrun'|].
  split; [vm_compute; reflexivity|]. split; [vm_compute; reflexivity|].
  exact (proj1 (proj2 (rooms_keep_default_and_grow cfg one_frame [Frame 0 other 3000 "id-2"]
                         w w' (Ret tt) Hrun Hrun'))).
Defined.

(** C3, on the code: a frame whose text is one space passes the schema,
    its text having length 1; the handler accepts it, and the message it
    stores and publishes has the empty text, of length 0. *)
Theorem whitespace_text_accepted_as_empty :
  let w := after connected in
  frame_target w 0 = Some alice /\
  (exists payload cm,
      JSON_parse blank = Some payload /\ safeParse payload = Some cm /\
      Str.length (ClientMessage.text cm) = 1) /\
  exists w' m,
    onMessage cfg 0 "10.0.0.1" blank 2000 "id-1" w = (w', Ret (Accepted m)) /\
    ChatMessage.text m = "" /\ Str.length (ChatMessage.text m) = 0 /\
    published w' = [(channelFor "lobby", enc m)] /\
    stored 2000 "lobby" w' = [enc m].
Proof.
  intros w. split; [vm_compute; reflexivity|]. split.
  - eexists _, _. split; [vm_compute; reflexivity|]. split; vm_compute; reflexivity.
  - eexists _, _. split; [vm_compute; reflexivity|]. repeat split; vm_compute; reflexivity.
Qed.

(** ** The further properties at concrete inputs *)

(** X6 at the one frame of [one_frame]. *)
Lemma publications_well_formed_witness :
  ("chat:lobby"%string, enc hi_msg) ∈ published (after one_frame) /\
  exists m,
    enc hi_msg = enc m /\ roomOf "chat:lobby" = ChatMessage.room m /\
    Str.length (ChatMessage.text m) <= 2000.
Proof.
  assert (("chat:lobby"%string, enc hi_msg) ∈ published (run cfg one_frame init).1) as Hin.
  { assert (published (run cfg one_frame init).1 = [("chat:lobby"%string, enc hi_msg)]) as ->
      by (vm_compute; reflexivity).
    apply elem_of_cons. by left. }
  split; [exact Hin|].
  destruct (publications_well_formed cfg one_frame _ _ Hin)
    as (m & _ & Hm & _ & Hr & _ & _ & Ht & _).
  exists m. split; [exact Hm|]. split; [exact Hr|exact Ht].
Defined.

(** X8 at a frame for a room that its sender has not joined: the sender
    becomes a member and is sent the broadcast. *)
Lemma accepted_frame_is_echoed_witness :
  frame_target (after connected) 0 = Some alice /\
  JSON_parse other = Some (frame_json "other" "hi" "alice") /\
  exists w1 w2,
    step cfg (Frame 0 other 2000 "id-1") (after connected) = (w1, Ret tt) /\
    published w1 = published (after connected) ++ [("chat:other"%string, enc other_msg)] /\
    rooms <$> clients w1 !! 0%nat = Some ({[ "other"%string ]} ∪ {[ "lobby"%string ]}) /\
    step cfg (BusMessage "chat:other" (enc other_msg)) w1 = (w2, Ret tt) /\
    wss_clients w2 !! 0%nat =
      Some (mkSocket OPEN
              (sent greeted ++ [stringify_event (EvBroadcast (ChatMessage.to_json other_msg))])).
Proof.
  assert (frame_target (run cfg connected init).1 0 = Some alice) as Ht
    by (vm_compute; reflexivity).
  assert (counter 2000 (ip alice) (run cfg connected init).1 + 1 <= RATE_LIMIT_PER_MIN cfg)
    as Hc by (vm_compute; discriminate).
  assert (JSON_parse other = Some (frame_json "other" "hi" "alice")) as Hp
    by apply JSON_parse_stringify.
  assert (safeParse (frame_json "other" "hi" "alice")
          = Some (ClientMessage.mk "other" "hi" "alice")) as Hs by (vm_compute; reflexivity).
  assert (wss_clients (run cfg connected init).1 !! 0%nat = Some greeted) as Hg
    by (vm_compute; reflexivity).
  split; [exact Ht|]. split; [exact Hp|].
  destruct (accepted_frame_is_echoed cfg connected 0 alice other 2000 "id-1" _ _ Ht Hc Hp Hs)
    as (w1 & w2 & Hstep & Hpub & Hrooms & Hrelay & (sock & Hsock & Hsent) & _).
  exists w1, w2. split; [exact Hstep|]. split; [exact Hpub|]. split; [exact Hrooms|].
  split; [exact Hrelay|].
  rewrite Hg in Hsock. injection Hsock as <-. exact Hsent.
Defined.

(** X9 at the frame of [one_frame], asked when its time to live ends. *)
Lemma accepted_message_kept_for_ttl_witness :
  exists older rs body,
    let w1 := (step cfg (Frame 0 hi 2000 "id-1") (after connected)).1 in
    loadHistory cfg 62000 "lobby" w1 = (w1, Ret (older ++ [ChatMessage.to_json hi_msg])) /\
    getRooms 62000 w1 = (w1, Ret (rs, body)) /\ "lobby"%string ∈ rs.
Proof.
  assert (1 <= HISTORY_SIZE cfg) as HN by (vm_compute; discriminate).
  assert (0 < HISTORY_TTL_SECONDS cfg) as HT by (vm_compute; reflexivity).
  assert (frame_target (run cfg connected init).1 0 = Some alice) as Ht
    by (vm_compute; reflexivity).
  assert (counter 2000 (ip alice) (run cfg connected init).1 + 1 <= RATE_LIMIT_PER_MIN cfg)
    as Hc by (vm_compute; discriminate).
  assert (JSON_parse hi = Some (frame_json "lobby" "hi" "alice")) as Hp
    by apply JSON_parse_stringify.
  assert (safeParse (frame_json "lobby" "hi" "alice")
          = Some (ClientMessage.mk "lobby" "hi" "alice")) as Hs by (vm_compute; reflexivity).
  destruct (accepted_message_kept_for_ttl cfg connected 0 alice hi 2000 "id-1" _ _ 62000
              HN HT Ht Hc Hp Hs) as [Hkept _].
  destruct Hkept as [(older & Hload & _) (rs & body & Hrooms & Hin)].
  { vm_compute. discriminate. }
  exists older, rs, body. split; [exact Hload|]. split; [exact Hrooms|exact Hin].
Defined.

(** X10 at a frame for another room: the history of the default room
    is as it was. *)
Lemma frame_leaves_other_histories_witness :
  let result := onMessage cfg 0 "10.0.0.1" other 3000 "id-2" (after one_frame) in
  stored 3000 "lobby" result.1 = stored 3000 "lobby" (after one_frame).
Proof.
  intros result.
  assert (JSON_parse other = Some (frame_json "other" "hi" "alice")) as Hp
    by apply JSON_parse_stringify.
  refine (proj1 (proj2 (frame_leaves_other_histories cfg (after one_frame) result.1 0
                          "10.0.0.1" other 3000 "id-2" result.2 "lobby" _ _) 3000)).
  - apply surjective_pairing.
  - intros payload cm Hp' Hs. rewrite Hp in Hp'. injection Hp' as <-.
    vm_compute in Hs. injection Hs as <-. simpl. discriminate.
Defined.

(** X11 after three appends with a cap of zero: all three are answered. *)
Lemma zero_cap_keeps_every_message_witness :
  exists w',
    pushAll uncut three_pushes init = (w', Ret tt) /\
    loadHistory uncut 4000 "lobby" w'
      = (w', Ret [ChatMessage.to_json (msg 1000 "one"); ChatMessage.to_json (msg 2000 "two");
                  ChatMessage.to_json (msg 3000 "three")]).
Proof.
  destruct (zero_cap_keeps_every_message uncut 0 4000 "lobby" three_pushes init)
    as (w' & Hrun & _ & Hload).
  - reflexivity.
  - reflexivity.
  - intros r. apply lookup_empty.
  - apply Forall_forall. repeat constructor; simpl; lia.
  - simpl. lia.
  - exists w'. split; [exact Hrun|exact Hload].
Defined.

(** X12 with a time to live of zero: the accepted frame of [one_frame]
    is published and leaves no history. *)
Lemma nonpositive_ttl_keeps_no_history_witness :
  let w := (run fleeting one_frame init).1 in
  published w = [("chat:lobby"%string, enc hi_msg)] /\
  loadHistory fleeting 2000 "lobby" w = (w, Ret []).
Proof.
  intros w. split; [vm_compute; reflexivity|].
  refine (proj1 (proj2 (nonpositive_ttl_keeps_no_history fleeting one_frame _)) 2000 "lobby").
  vm_compute. discriminate.
Defined.

(** X13 with a limit of zero: the valid frame of [one_frame] is not
    published. *)
Lemma nonpositive_limit_accepts_nothing_witness :
  published (run muted one_frame init).1 = [].
Proof.
  refine (proj1 (nonpositive_limit_accepts_nothing muted one_frame _)).
  vm_compute. discriminate.
Defined.

(** X15 after the frame of [one_frame]: the default room is listed, and
    a message was published to it. *)
Lemma listed_rooms_were_published_to_witness :
  let w := after one_frame in
  getRooms 3000 w
    = (w, Ret (["lobby"%string], JSON_stringify (JObj [("rooms", JArr [JStr "lobby"])]))) /\
  exists m, ChatMessage.room m = "lobby"%string /\ ("chat:lobby"%string, enc m) ∈ published w.
Proof.
  intros w.
  assert (getRooms 3000 (run cfg one_frame init).1
          = ((run cfg one_frame init).1,
             Ret (["lobby"%string], JSON_stringify (JObj [("rooms", JArr [JStr "lobby"])]))))
    as Hget by (vm_compute; reflexivity).
  split; [exact Hget|].
  refine (proj2 (listed_rooms_were_published_to cfg one_frame 3000 _ _ "lobby" Hget _)).
  apply elem_of_cons. by left.
Defined.

(** X16 at the second socket of [two_clients], whose closing handshake
    has started: a broadcast to its room and a frame of its own leave
    it as it was. *)
Lemma socket_not_open_is_sent_nothing_witness :
  let w := after two_clients in
  let evs := [BusMessage "chat:lobby" (enc hi_msg); Frame 1 hi 2000 "id-1"] in
  (readyState <$> wss_clients w !! 1%nat) = Some CLOSING /\
  (wss_clients (run cfg evs w).1 !! 1%nat = wss_clients w !! 1%nat \/
   wss_clients (run cfg evs w).1 !! 1%nat = None).
Proof.
  intros w evs. split; [vm_compute; reflexivity|].
  refine (proj1 (socket_not_open_is_sent_nothing cfg w (run cfg evs w).1 evs (run cfg evs w).2
                   1 _ _ _)).
  - vm_compute. lia.
  - intros sock Hs. vm_compute in Hs. injection Hs as <-. discriminate.
  - apply surjective_pairing.
Defined.

(** X17 at a socket that closes while its connection handler waits:
    the session is still there after the handler has gone on, and after
    a frame for the socket. *)
Lemma close_forgets_the_session_witness :
  let p := (schedule cfg [Arrive None (Some "10.0.0.1") 1000] start).1 in
  let p1 := (perform cfg (Handle (Close 0)) p).1 in
  let p' := (schedule cfg [Resume 0; Handle (Frame 0 hi 2000 "id-1")] p1).1 in
  clients (world p) !! 0%nat = Some alice /\
  wss_clients (world p') !! 0%nat = None /\
  clients (world p') !! 0%nat = Some alice.
Proof.
  intros p p1 p'.
  assert (clients (world p) !! 0%nat = Some alice) as Hc by (vm_compute; reflexivity).
  split; [exact Hc|].
  destruct (close_forgets_the_session cfg p 0 [Resume 0; Handle (Frame 0 hi 2000 "id-1")])
    as (_ & _ & _ & Hc1 & Hm' & _ & Hc').
  - vm_compute. lia.
  - vm_compute. by eexists.
  - split; [exact Hm'|]. unfold p', p1. rewrite Hc', Hc1, Hc. vm_compute. reflexivity.
Defined.
